(** * Nemo Run: difficulty curve, obstacle spawning, motion and collisions

    A shallow embedding of

    - [src/utils/constants.ts] (the [GAME_SETTINGS] and [UI_SETTINGS]
      constants the core reads),
    - [src/utils/difficultyManager.ts] (class [DifficultyManager]),
    - the [Obstacles] component (spawner, collision detector and per-frame
      update), and
    - the score and difficulty glue of the [GameStateProvider] context,

    followed by the properties of the specification that concern them.

    Numbers.  JavaScript numbers are idealised as exact numbers: the
    difficulty manager only adds, subtracts, multiplies, divides and compares,
    so it is embedded over the rationals [Q] and stays executable; the
    obstacle code also calls [Math.sin], [Math.floor] and
    [Vector3.distanceTo] (a square root), so it is embedded over the reals
    [R].  [NaN] and the infinities are not represented. *)

From Stdlib Require Import String.
From Stdlib Require Import List Sorted Bool Arith ZArith Lia.
From Stdlib Require Import QArith Qround Lqa.
From Stdlib Require Import Reals Lra.
Import ListNotations.

(* ================================================================= *)
(** ** Difficulty levels and game parameters (difficultyManager.ts)   *)
(* ================================================================= *)

(** [interface DifficultyLevel]; the optional field is an [option]. *)
Module DifficultyLevel.
Record t : Type := mk {
  score : Q;
  speed : Q;
  spawnRate : Q;
  scoreMultiplier : option Q
}.
End DifficultyLevel.

(** [interface GameParameters]; [nextMilestone : number | null]. *)
Module GameParameters.
Record t : Type := mk {
  speed : Q;
  spawnRate : Q;
  scoreMultiplier : Q;
  difficultyLevel : nat;
  nextMilestone : option Q
}.
End GameParameters.

(** The part of [constants.ts] that the core reads. *)
Module GAME_SETTINGS.

Definition DIFFICULTY_LEVELS : list DifficultyLevel.t :=
  [ DifficultyLevel.mk 0 5 2.0 None;
    DifficultyLevel.mk 100 6 1.8 None;
    DifficultyLevel.mk 250 7 1.6 None;
    DifficultyLevel.mk 500 8 1.4 None;
    DifficultyLevel.mk 1000 9 1.2 None;
    DifficultyLevel.mk 2000 10 1.0 None ]%Q.

Definition COLLISION_THRESHOLD : R := 0.8%R.
Definition OBSTACLE_SPAWN_RATE : R := 2000%R.
Definition OBSTACLE_SPAWN_DISTANCE : R := 100%R.
Definition INITIAL_SPEED : R := 0.5%R.

End GAME_SETTINGS.

Module UI_SETTINGS.
Definition SCORE_INCREMENT : Q := 1%Q.
End UI_SETTINGS.

Module DifficultyManager.

Local Open Scope Q_scope.

(** JavaScript [x || d] on an optional number: [undefined] and [0] are
    falsy, every other (non-NaN) number is kept. *)
Definition orDefault (x : option Q) (d : Q) : Q :=
  match x with
  | Some v => if Qeq_bool v 0 then d else v
  | None => d
  end.

Section Levels.

(** [private static difficultyLevels]: the table the class works on.  The
    program initialises it with [GAME_SETTINGS.DIFFICULTY_LEVELS]. *)
Variable difficultyLevels : list DifficultyLevel.t.

(** The loop [for (i = n - 1; i >= 0; i--)] of [getDifficultyLevelIndex],
    with [n] the number of indices still to visit: the first [i] (from the
    top) whose threshold is [<= score] wins; when the loop runs out,
    [levelIndex] keeps its initial value [0]. *)
Fixpoint scanLevels (n : nat) (score : Q) : nat :=
  match n with
  | O => O
  | S i =>
      match nth_error difficultyLevels i with
      | Some level =>
          if Qle_bool (DifficultyLevel.score level) score then i
          else scanLevels i score
      | None => scanLevels i score
      end
  end.

Definition getDifficultyLevelIndex (score : Q) : nat :=
  scanLevels (length difficultyLevels) score.

(** [getNextMilestone]: [null] is [None].  The comparison
    [currentLevelIndex >= length - 1] is made on integers, since
    [length - 1] is [-1] for an empty table. *)
Definition getNextMilestone (score : Q) : option Q :=
  let currentLevelIndex := getDifficultyLevelIndex score in
  if (Z.of_nat (length difficultyLevels) - 1 <=? Z.of_nat currentLevelIndex)%Z
  then None
  else option_map DifficultyLevel.score
         (nth_error difficultyLevels (currentLevelIndex + 1)).

(** [calculateGameParameters].  The outer [option] is [None] where the
    JavaScript throws a [TypeError] (reading a field of
    [difficultyLevels[i]] when that is [undefined], which happens exactly
    for an empty table). *)
Definition calculateGameParameters (score : Q) : option GameParameters.t :=
  let levelIndex := getDifficultyLevelIndex score in
  match nth_error difficultyLevels levelIndex with
  | None => None
  | Some currentLevel =>
      let nextMilestone := getNextMilestone score in
      if match nextMilestone with None => true | Some _ => false end
         || Qeq_bool score (DifficultyLevel.score currentLevel)
      then
        Some (GameParameters.mk
                (DifficultyLevel.speed currentLevel)
                (DifficultyLevel.spawnRate currentLevel)
                (orDefault (DifficultyLevel.scoreMultiplier currentLevel) 1.0)
                levelIndex
                nextMilestone)
      else
        match nth_error difficultyLevels (levelIndex + 1) with
        | None => None
        | Some nextLevel =>
            let progressToNextLevel :=
              (score - DifficultyLevel.score currentLevel)
              / (DifficultyLevel.score nextLevel
                 - DifficultyLevel.score currentLevel) in
            let speed :=
              DifficultyLevel.speed currentLevel
              + progressToNextLevel
                * (DifficultyLevel.speed nextLevel
                   - DifficultyLevel.speed currentLevel) in
            let spawnRate :=
              DifficultyLevel.spawnRate currentLevel
              + progressToNextLevel
                * (DifficultyLevel.spawnRate nextLevel
                   - DifficultyLevel.spawnRate currentLevel) in
            let currentMultiplier :=
              orDefault (DifficultyLevel.scoreMultiplier currentLevel) 1.0 in
            let nextMultiplier :=
              orDefault (DifficultyLevel.scoreMultiplier nextLevel) 1.0 in
            let scoreMultiplier :=
              currentMultiplier
              + progressToNextLevel * (nextMultiplier - currentMultiplier) in
            Some (GameParameters.mk speed spawnRate scoreMultiplier
                    levelIndex nextMilestone)
        end
  end.

(** [isNewDifficultyLevel]. *)
Definition isNewDifficultyLevel (previousScore currentScore : Q) : bool :=
  let previousLevel := getDifficultyLevelIndex previousScore in
  let currentLevel := getDifficultyLevelIndex currentScore in
  (previousLevel <? currentLevel)%nat.

End Levels.

(** [getDifficultyName]: the label list, clamped to its last entry. *)
Definition difficultyNames : list string :=
  [ "Easy"; "Normal"; "Challenging"; "Hard"; "Expert"; "Master" ]%string.

Definition getDifficultyName (levelIndex : nat) : string :=
  let clampedIndex := Nat.min levelIndex (length difficultyNames - 1) in
  nth clampedIndex difficultyNames ""%string.

End DifficultyManager.

(* ================================================================= *)
(** ** Score and difficulty glue of the game-state context            *)
(* ================================================================= *)

Module GameState.

Local Open Scope Q_scope.

Inductive GameStatus : Type := menu | playing | paused | gameOver.

Definition GameStatus_eqb (a b : GameStatus) : bool :=
  match a, b with
  | menu, menu | playing, playing | paused, paused | gameOver, gameOver => true
  | _, _ => false
  end.

(** The [useState] cells and the [useRef] cell the score logic touches.
    [notifications] is a trace: one entry, the level announced, for every
    call [setShowDifficultyNotification(true)] made by [updateDifficulty]. *)
Record State : Type := mkState {
  gameStatus : GameStatus;
  score : Q;
  highScore : Q;
  gameParameters : GameParameters.t;
  showDifficultyNotification : bool;
  difficultyName : string;
  previousScoreRef : Q;
  notifications : list nat
}.

Definition isPlaying (st : State) : bool :=
  GameStatus_eqb (gameStatus st) playing.

(** [Math.round]: the nearest integer, halves rounded up. *)
Definition Math_round (x : Q) : Q := inject_Z (Qfloor (x + 0.5)).

Section Levels.

Variable difficultyLevels : list DifficultyLevel.t.

(** [updateDifficulty(newScore)]; [None] where [calculateGameParameters]
    throws.  The [setTimeout] that clears the notification three seconds
    later is a later event and not part of this call. *)
Definition updateDifficulty (newScore : Q) (st : State) : option State :=
  match DifficultyManager.calculateGameParameters difficultyLevels newScore with
  | None => None
  | Some params =>
      let crossed :=
        DifficultyManager.isNewDifficultyLevel difficultyLevels
          (previousScoreRef st) newScore in
      Some (mkState
              (gameStatus st)
              (score st)
              (highScore st)
              params
              (if crossed then true else showDifficultyNotification st)
              (if crossed
               then DifficultyManager.getDifficultyName
                      (GameParameters.difficultyLevel params)
               else difficultyName st)
              newScore
              (if crossed
               then notifications st ++ [GameParameters.difficultyLevel params]
               else notifications st))
  end.

(** The effect [if (isPlaying) updateDifficulty(score)] run for each of a
    sequence of successive score values. *)
Fixpoint updateDifficultyAll (scores : list Q) (st : State) : option State :=
  match scores with
  | [] => Some st
  | s :: rest =>
      match updateDifficulty s st with
      | None => None
      | Some st' => updateDifficultyAll rest st'
      end
  end.

End Levels.

(** [setScoreWithMultiplier(baseScoreIncrease)], the [setScore] the context
    exports. *)
Definition setScoreWithMultiplier (baseScoreIncrease : Q) (st : State) : State :=
  if isPlaying st then
    let multipliedIncrease :=
      baseScoreIncrease
      * GameParameters.scoreMultiplier (gameParameters st) in
    mkState (gameStatus st)
            (score st + Math_round multipliedIncrease)
            (highScore st) (gameParameters st)
            (showDifficultyNotification st) (difficultyName st)
            (previousScoreRef st) (notifications st)
  else st.

End GameState.

(* ================================================================= *)
(** ** The Obstacles component                                        *)
(* ================================================================= *)

(** [THREE.Vector3] with the one method the core calls. *)
Module Vector3.
Local Open Scope R_scope.
Record t : Type := mk { x : R; y : R; z : R }.

Definition distanceToSquared (a b : t) : R :=
  let dx := x a - x b in
  let dy := y a - y b in
  let dz := z a - z b in
  dx * dx + dy * dy + dz * dz.

Definition distanceTo (a b : t) : R := sqrt (distanceToSquared a b).
End Vector3.

Inductive ObstacleType : Type := coral | seaweed | rock | shark | jellyfish.

Inductive MovementPattern : Type := upDown | leftRight | zigzag | static.

(** [interface Obstacle].  The fields the interface marks optional
    ([movementPattern], [amplitude], [frequency]) are plain fields here:
    [spawnObstacle], the only place that builds an obstacle, always sets
    them. *)
Module Obstacle.
Record t : Type := mk {
  id : nat;
  type : ObstacleType;
  position : Vector3.t;
  scale : Vector3.t;
  rotation : Vector3.t;  (* THREE.Euler: its three angles *)
  speed : R;
  active : bool;
  color : string;
  animationOffset : R;
  movementPattern : MovementPattern;
  amplitude : R;
  frequency : R
}.
End Obstacle.

Module Obstacles.

Local Open Scope R_scope.

(** The comparison [a < b] of two numbers, as a boolean. *)
Definition Rltb (a b : R) : bool := if Rlt_dec a b then true else false.

(** The props of the component.  [nemoRef.current] is [None] while the
    player's group is not mounted; of the group the component reads the
    world position and [scale.x]. *)
Record Nemo : Type := mkNemo { worldPosition : Vector3.t; scaleX : R }.

Record Props : Type := mkProps {
  score : R;
  isPlaying : bool;
  nemoRef : option Nemo
}.

(** [obstaclesGroupRef.current]: [None] while the group is not mounted;
    otherwise the lookup [getObjectByName(`obstacle-${id}`)] followed by
    [getWorldPosition], which is [None] when no object has that name. *)
Definition Group : Type := nat -> option Vector3.t.

Definition obstacleColors (type : ObstacleType) : string :=
  match type with
  | coral => "#ff6f61"
  | seaweed => "#2e8b57"
  | rock => "#696969"
  | shark => "#708090"
  | jellyfish => "#9370db"
  end%string.

Record ObstacleConfig : Type := mkConfig {
  cfg_scale : Vector3.t;
  movement : MovementPattern;
  yPosition : R;
  cfg_amplitude : option R;
  cfg_frequency : option R;
  collisionRadius : R
}.

Definition obstacleConfigs (type : ObstacleType) : ObstacleConfig :=
  match type with
  | coral =>
      mkConfig (Vector3.mk 0.8 1.5 0.8) static (-3.5) None None 1
  | seaweed =>
      mkConfig (Vector3.mk 0.5 2.5 0.5) leftRight (-3) (Some 0.2) (Some 2) 0.8
  | rock =>
      mkConfig (Vector3.mk 1.2 1.2 1.2) static (-2) None None 1.1
  | shark =>
      mkConfig (Vector3.mk 1.5 0.7 0.7) zigzag 0 (Some 1.5) (Some 0.5) 1.2
  | jellyfish =>
      mkConfig (Vector3.mk 0.8 1.2 0.8) upDown 1 (Some 1.5) (Some 0.8) 0.7
  end.

(** [x || 0] on an optional number. *)
Definition orZero (x : option R) : R :=
  match x with Some v => v | None => 0 end.

Definition getDifficultyFactor (currentScore : R) : R :=
  1 + currentScore / 5000.

Definition obstacleTypes : list ObstacleType :=
  [coral; seaweed; rock; shark; jellyfish].

(** [Math.floor], as an integer. *)
Definition Math_floor (r : R) : Z := Int_part r.

(** The [useState] cell and the three [useRef] cells of the component. *)
Record State : Type := mkState {
  obstacles : list Obstacle.t;
  lastSpawnTimeRef : R;
  obstacleCounterRef : nat;
  hasCollidedRef : bool
}.

Definition initialState : State := mkState [] 0 0 false.

Definition isFloorType (type : ObstacleType) : bool :=
  match type with coral | seaweed => true | _ => false end.

(** [spawnObstacle].  [currentTime] is the value of [Date.now()];
    [random k] is the value of the [k]-th call of [Math.random()] made by
    this invocation, a number in #[0,1)#, so that [randomTypeIndex] is a
    valid index (the default of [nth] is never reached then).  At the
    score -5000 the JavaScript divides by zero and compares with
    [Infinity], which the reals do not have; the statements about the
    spawner take the score to be non-negative. *)
Definition spawnObstacle (props : Props) (currentTime : R)
    (random : nat -> R) (st : State) : State :=
  if negb (isPlaying props) then st
  else
    let difficulty := getDifficultyFactor (score props) in
    let spawnInterval := GAME_SETTINGS.OBSTACLE_SPAWN_RATE / difficulty in
    if Rltb (currentTime - lastSpawnTimeRef st) spawnInterval then st
    else
      let randomTypeIndex :=
        Math_floor (random 0%nat * INR (length obstacleTypes)) in
      let type := nth (Z.to_nat randomTypeIndex) obstacleTypes coral in
      let config := obstacleConfigs type in
      let xPos := random 1%nat * 10 - 5 in
      let yPos :=
        if isFloorType type then yPosition config
        else yPosition config + (random 2%nat * 3 - 1.5) in
      let nextDraw := if isFloorType type then 2%nat else 3%nat in
      let zPos := - GAME_SETTINGS.OBSTACLE_SPAWN_DISTANCE in
      let newObstacle :=
        Obstacle.mk
          (obstacleCounterRef st)
          type
          (Vector3.mk xPos yPos zPos)
          (cfg_scale config)
          (Vector3.mk 0 0 0)
          (GAME_SETTINGS.INITIAL_SPEED * difficulty)
          true
          (obstacleColors type)
          (random nextDraw * PI * 2)
          (movement config)
          (orZero (cfg_amplitude config))
          (orZero (cfg_frequency config)) in
      mkState (obstacles st ++ [newObstacle])
              currentTime
              (S (obstacleCounterRef st))
              (hasCollidedRef st).

(** The body of the [forEach] callback of [checkCollisions]: the pair is
    [hasCollidedRef.current] and the number of [onCollision()] calls made
    so far in this invocation. *)
Definition checkObstacle (group : Group) (nemoPosition : Vector3.t)
    (nemoRadius : R) (acc : bool * nat) (obstacle : Obstacle.t) : bool * nat :=
  if negb (Obstacle.active obstacle) then acc
  else
    match group (Obstacle.id obstacle) with
    | None => acc
    | Some obstaclePosition =>
        let obstacleRadius :=
          collisionRadius (obstacleConfigs (Obstacle.type obstacle)) in
        let distance := Vector3.distanceTo nemoPosition obstaclePosition in
        if Rltb distance (nemoRadius + obstacleRadius)
        then (true, S (snd acc))
        else acc
    end.

(** [checkCollisions].  [obstacles] is the list the current render closed
    over.  The result is the new value of [hasCollidedRef.current] and the
    number of times [onCollision()] was called. *)
Definition checkCollisions (props : Props) (obstaclesGroupRef : option Group)
    (obstacles : list Obstacle.t) (hasCollided : bool) : bool * nat :=
  match nemoRef props, obstaclesGroupRef with
  | Some nemo, Some group =>
      if hasCollided then (hasCollided, 0%nat)
      else if negb (isPlaying props) then (hasCollided, 0%nat)
      else
        let nemoPosition := worldPosition nemo in
        let nemoSize := scaleX nemo in
        let nemoRadius :=
          0.5 * nemoSize * GAME_SETTINGS.COLLISION_THRESHOLD in
        fold_left (checkObstacle group nemoPosition nemoRadius)
                  obstacles (hasCollided, 0%nat)
  | _, _ => (hasCollided, 0%nat)
  end.

(** The effect [useEffect(() => { if (isPlaying) hasCollidedRef.current =
    false }, [isPlaying])], run when the [isPlaying] prop takes a new value. *)
Definition resetCollisionEffect (isPlaying : bool) (st : State) : State :=
  if isPlaying
  then mkState (obstacles st) (lastSpawnTimeRef st) (obstacleCounterRef st) false
  else st.

(** The callback of [prevObstacles.map] in [useFrame]: one obstacle advanced
    by one frame.  The writes to the mesh (position copy, shark heading,
    jellyfish pulse) change the scene graph, not the obstacle, and are left
    to the renderer. *)
Definition advance (group : Group) (elapsedTime delta : R)
    (obstacle : Obstacle.t) : Obstacle.t :=
  if negb (Obstacle.active obstacle) then obstacle
  else
    match group (Obstacle.id obstacle) with
    | None => obstacle
    | Some _ =>
        let p := Obstacle.position obstacle in
        let phase :=
          (elapsedTime + Obstacle.animationOffset obstacle)
          * Obstacle.frequency obstacle in
        let newZ := Vector3.z p + Obstacle.speed obstacle * delta * 60 in
        let newPosition :=
          match Obstacle.movementPattern obstacle with
          | upDown =>
              Vector3.mk
                (Vector3.x p)
                (Vector3.y p + sin phase * Obstacle.amplitude obstacle * delta)
                newZ
          | leftRight =>
              Vector3.mk
                (Vector3.x p + sin phase * Obstacle.amplitude obstacle * delta)
                (Vector3.y p)
                newZ
          | zigzag =>
              Vector3.mk
                (Vector3.x p + sin phase * Obstacle.amplitude obstacle * delta)
                (match Obstacle.type obstacle with
                 | shark =>
                     Vector3.y p
                     + sin (phase * 2)
                       * (Obstacle.amplitude obstacle / 3) * delta
                 | _ => Vector3.y p
                 end)
                newZ
          | static => Vector3.mk (Vector3.x p) (Vector3.y p) newZ
          end in
        let isOutOfBounds := Rltb 20 (Vector3.z newPosition) in
        Obstacle.mk
          (Obstacle.id obstacle) (Obstacle.type obstacle)
          newPosition
          (Obstacle.scale obstacle) (Obstacle.rotation obstacle)
          (Obstacle.speed obstacle)
          (negb isOutOfBounds)
          (Obstacle.color obstacle) (Obstacle.animationOffset obstacle)
          (Obstacle.movementPattern obstacle)
          (Obstacle.amplitude obstacle) (Obstacle.frequency obstacle)
    end.

(** The updater passed to [setObstacles] in [useFrame]. *)
Definition updateObstacles (group : Group) (elapsedTime delta : R)
    (prevObstacles : list Obstacle.t) : list Obstacle.t :=
  filter Obstacle.active (map (advance group elapsedTime delta) prevObstacles).

(** What one frame reads from outside the component. *)
Record Frame : Type := mkFrame {
  props : Props;
  obstaclesGroupRef : option Group;
  currentTime : R;
  random : nat -> R;
  elapsedTime : R;
  delta : R
}.

(** The [useFrame] callback.  [spawnObstacle] and the update both go through
    functional [setObstacles] updaters, applied in order to the pending
    state; [checkCollisions] reads the list of the current render.  The
    second component counts the [onCollision()] calls of the frame. *)
Definition useFrame (f : Frame) (st : State) : State * nat :=
  match obstaclesGroupRef f with
  | None => (st, 0%nat)
  | Some group =>
      if negb (isPlaying (props f)) then (st, 0%nat)
      else
        let st1 := spawnObstacle (props f) (currentTime f) (random f) st in
        let '(collided, calls) :=
          checkCollisions (props f) (obstaclesGroupRef f)
                          (obstacles st) (hasCollidedRef st1) in
        (mkState
           (updateObstacles group (elapsedTime f) (delta f) (obstacles st1))
           (lastSpawnTimeRef st1)
           (obstacleCounterRef st1)
           collided,
         calls)
  end.

(** A run of the component: frames, and changes of the [isPlaying] prop. *)
Inductive Event : Type :=
| FrameEvent (f : Frame)
| IsPlayingChanged (isPlaying : bool).

Definition step (st : State) (e : Event) : State :=
  match e with
  | FrameEvent f => fst (useFrame f st)
  | IsPlayingChanged b => resetCollisionEffect b st
  end.

Definition run (events : list Event) (st : State) : State :=
  fold_left step events st.

End Obstacles.

(* ================================================================= *)
(** ** Well-formed level tables                                       *)
(* ================================================================= *)

Module LevelTable.

Local Open Scope Q_scope.

Definition Qltb (a b : Q) : bool := negb (Qle_bool b a).

(** Thresholds strictly increasing along the table. *)
Fixpoint ascending (levels : list DifficultyLevel.t) : bool :=
  match levels with
  | a :: ((b :: _) as rest) =>
      Qltb (DifficultyLevel.score a) (DifficultyLevel.score b)
      && ascending rest
  | _ => true
  end.

(** No level spells out a multiplier of zero (which [||] would replace). *)
Definition truthyMultiplier (level : DifficultyLevel.t) : bool :=
  match DifficultyLevel.scoreMultiplier level with
  | Some m => negb (Qeq_bool m 0)
  | None => true
  end.

(** A table as the specification describes it: at least one level,
    thresholds strictly increasing, multipliers (where given) non-zero. *)
Definition wellFormed (levels : list DifficultyLevel.t) : bool :=
  negb (Nat.eqb (length levels) 0)
  && ascending levels
  && forallb truthyMultiplier levels.

(** The multiplier a level carries, [1.0] when the field is absent. *)
Definition multiplierOf (level : DifficultyLevel.t) : Q :=
  match DifficultyLevel.scoreMultiplier level with
  | Some m => m
  | None => 1.0
  end.

(** The table of scenario A of the specification. *)
Definition scenarioA : list DifficultyLevel.t :=
  [ DifficultyLevel.mk 0 5 2.0 (Some 1.0);
    DifficultyLevel.mk 100 6 1.8 (Some 1.0) ].

(** The interpolation of the specification: the fraction of the way from
    the threshold of [cur] to that of [next], and the point that far from
    [a] towards [b]. *)
Definition progressBetween (cur next : DifficultyLevel.t) (s : Q) : Q :=
  (s - DifficultyLevel.score cur)
  / (DifficultyLevel.score next - DifficultyLevel.score cur).

Definition lerp (a b t : Q) : Q := a + t * (b - a).

End LevelTable.

(* ================================================================= *)
(** ** Level changes                                                  *)
(* ================================================================= *)

Module Crossing.

Import LevelTable.
Local Open Scope Q_scope.

(** A score the curve is meant for: not below the first threshold. *)
Definition inDomain (levels : list DifficultyLevel.t) (s : Q) : bool :=
  match levels with
  | [] => true
  | first :: _ => Qle_bool (DifficultyLevel.score first) s
  end.

(** The update from [prev] to [cur] crosses a threshold: some threshold
    lies above [prev] and not above [cur]. *)
Definition crossesThreshold (levels : list DifficultyLevel.t)
    (prev cur : Q) : bool :=
  existsb (fun l => Qltb prev (DifficultyLevel.score l)
                    && Qle_bool (DifficultyLevel.score l) cur) levels.

(** The notifications the specification asks for along a sequence of score
    updates: one for each update that crosses a threshold, announcing the
    level reached by that update. *)
Fixpoint expectedNotifications (levels : list DifficultyLevel.t)
    (prev : Q) (scores : list Q) : list nat :=
  match scores with
  | [] => []
  | s :: rest =>
      (if crossesThreshold levels prev s
       then [DifficultyManager.getDifficultyLevelIndex levels s] else [])
      ++ expectedNotifications levels s rest
  end.

(** A game state in mid-play whose last recorded score is 90. *)
Definition stateAt90 : GameState.State :=
  GameState.mkState GameState.playing 90 0
    (GameParameters.mk 5 2 1 0 (Some 100)) false "Easy" 90 [].

End Crossing.

(* ================================================================= *)
(** ** Notions used to state the obstacle properties                  *)
(* ================================================================= *)

Module ObstacleSpec.

Import Obstacles.
Local Open Scope R_scope.

(** The distance test of the specification for one obstacle: it is active,
    its mesh is in the scene, and the distance from the player to the mesh
    is below the sum of the two radii. *)
Definition overlaps (group : Group) (nemoPosition : Vector3.t)
    (nemoRadius : R) (obstacle : Obstacle.t) : Prop :=
  Obstacle.active obstacle = true
  /\ exists obstaclePosition,
       group (Obstacle.id obstacle) = Some obstaclePosition
       /\ Vector3.distanceTo nemoPosition obstaclePosition
          < nemoRadius
            + collisionRadius (obstacleConfigs (Obstacle.type obstacle)).

(** The same test as a boolean. *)
Definition overlapsb (group : Group) (nemoPosition : Vector3.t)
    (nemoRadius : R) (obstacle : Obstacle.t) : bool :=
  Obstacle.active obstacle
  && match group (Obstacle.id obstacle) with
     | Some obstaclePosition =>
         Rltb (Vector3.distanceTo nemoPosition obstaclePosition)
              (nemoRadius
               + collisionRadius (obstacleConfigs (Obstacle.type obstacle)))
     | None => false
     end.

(** A player at the origin with scale 1, and a scene in which every
    obstacle mesh sits at the origin too. *)
Definition nemoAtOrigin : Nemo := mkNemo (Vector3.mk 0 0 0) 1.

Definition playingProps : Props := mkProps 0 true (Some nemoAtOrigin).

Definition allAtOrigin : Group := fun _ => Some (Vector3.mk 0 0 0).

Definition obstacleOf (id : nat) (type : ObstacleType) (pos : Vector3.t)
  : Obstacle.t :=
  Obstacle.mk id type pos
    (cfg_scale (obstacleConfigs type)) (Vector3.mk 0 0 0)
    GAME_SETTINGS.INITIAL_SPEED true (obstacleColors type) 0
    (movement (obstacleConfigs type))
    (orZero (cfg_amplitude (obstacleConfigs type)))
    (orZero (cfg_frequency (obstacleConfigs type))).

(** Two concrete frames at score 0: in the first the scene holds no obstacle
    mesh yet, in the second every obstacle has one. *)
Definition noMeshes : Group := fun _ => None.

Definition firstFrame : Frame :=
  mkFrame playingProps (Some noMeshes) 5000 (fun _ => 0) 0 (1 / 60).

Definition secondFrame : Frame :=
  mkFrame playingProps (Some allAtOrigin) 5016 (fun _ => 0) (1 / 60) (1 / 60).

(** The number of [onCollision()] calls made by each of a series of
    frames. *)
Fixpoint frameCalls (frames : list Frame) (st : State) : list nat :=
  match frames with
  | [] => []
  | f :: rest =>
      snd (useFrame f st) :: frameCalls rest (fst (useFrame f st))
  end.

(** The identifiers of the obstacles held. *)
Definition ids (st : State) : list nat := map Obstacle.id (obstacles st).

(** What every reachable state satisfies: identifiers are below the
    counter and distinct, and every obstacle held is active. *)
Definition Invariant (st : State) : Prop :=
  Forall (fun o => (Obstacle.id o < obstacleCounterRef st)%nat
                   /\ Obstacle.active o = true) (obstacles st)
  /\ NoDup (ids st).

(** An identifier that has been handed out and is no longer held stays
    away: later obstacles get larger identifiers. *)
Definition Gone (i : nat) (st : State) : Prop :=
  Invariant st /\ (i < obstacleCounterRef st)%nat /\ ~ In i (ids st).

End ObstacleSpec.

(* ================================================================= *)
(** ** The rest of the game-state context                             *)
(* ================================================================= *)

(** [handleCollision], [endGame], [startGame], [togglePause],
    [goToMainMenu], [dismissDifficultyNotification], the keyboard handler
    and the score effect of [GameStateProvider], on the cells of
    [GameState.State]. *)
Module GameSession.

Import GameState.
Local Open Scope Q_scope.

Definition setGameStatus (status : GameStatus) (st : State) : State :=
  mkState status (score st) (highScore st) (gameParameters st)
    (showDifficultyNotification st) (difficultyName st)
    (previousScoreRef st) (notifications st).

(** [handleCollision]: end the game; [if (score > highScore)
    setHighScore(score)]. *)
Definition handleCollision (st : State) : State :=
  mkState gameOver (score st)
    (if LevelTable.Qltb (highScore st) (score st)
     then score st else highScore st)
    (gameParameters st)
    (showDifficultyNotification st) (difficultyName st)
    (previousScoreRef st) (notifications st).

(** [endGame] has the same body. *)
Definition endGame (st : State) : State := handleCollision st.

(** [togglePause]: [prev === 'playing' ? 'paused' : 'playing']. *)
Definition togglePause (st : State) : State :=
  setGameStatus
    (if GameStatus_eqb (gameStatus st) playing then paused else playing) st.

Definition goToMainMenu (st : State) : State := setGameStatus menu st.

Definition dismissDifficultyNotification (st : State) : State :=
  mkState (gameStatus st) (score st) (highScore st) (gameParameters st)
    false (difficultyName st) (previousScoreRef st) (notifications st).

Section Levels.

Variable difficultyLevels : list DifficultyLevel.t.

(** [startGame]: [setScore(0); previousScoreRef.current = 0;
    updateDifficulty(0); setGameStatus('playing')]. *)
Definition startGame (st : State) : option State :=
  match
    updateDifficulty difficultyLevels 0
      (mkState (gameStatus st) 0 (highScore st) (gameParameters st)
         (showDifficultyNotification st) (difficultyName st)
         0 (notifications st))
  with
  | Some st' => Some (setGameStatus playing st')
  | None => None
  end.

(** The effect [if (isPlaying) updateDifficulty(score)], run after the
    score or the status has changed. *)
Definition scoreEffect (st : State) : option State :=
  if isPlaying st then updateDifficulty difficultyLevels (score st) st
  else Some st.

(** The key codes [handleKeyDown] looks at, as far as they touch the cells
    modelled here ([KeyI] and the backquote toggle other cells). *)
Inductive KeyCode : Type := Space | Escape | OtherKey.

Definition handleKeyDown (code : KeyCode) (st : State) : option State :=
  match code with
  | Space =>
      match gameStatus st with
      | menu => startGame st
      | playing | paused => Some (togglePause st)
      | gameOver => Some (goToMainMenu st)
      end
  | Escape =>
      match gameStatus st with
      | playing => Some (togglePause st)
      | paused | gameOver => Some (goToMainMenu st)
      | menu => Some st
      end
  | OtherKey => Some st
  end.

(** The calls the context offers to the rest of the application. *)
Inductive Action : Type :=
| KeyDown (code : KeyCode)
| StartGame
| EndGame
| HandleCollision
| TogglePause
| GoToMainMenu
| SetScore (baseScoreIncrease : Q)
| ScoreEffect
| DismissDifficultyNotification.

Definition act (st : State) (a : Action) : option State :=
  match a with
  | KeyDown code => handleKeyDown code st
  | StartGame => startGame st
  | EndGame => Some (endGame st)
  | HandleCollision => Some (handleCollision st)
  | TogglePause => Some (togglePause st)
  | GoToMainMenu => Some (goToMainMenu st)
  | SetScore base => Some (setScoreWithMultiplier base st)
  | ScoreEffect => scoreEffect st
  | DismissDifficultyNotification => Some (dismissDifficultyNotification st)
  end.

Fixpoint runActions (actions : list Action) (st : State) : option State :=
  match actions with
  | [] => Some st
  | a :: rest =>
      match act st a with
      | Some st' => runActions rest st'
      | None => None
      end
  end.

(** The cells as [useState] initialises them; [None] where
    [calculateGameParameters(0)] throws. *)
Definition initialState : option State :=
  match DifficultyManager.calculateGameParameters difficultyLevels 0 with
  | Some params =>
      Some (mkState menu 0 0 params false
              (DifficultyManager.getDifficultyName 0) 0 [])
  | None => None
  end.

End Levels.

(** The base increase an action passes to the score setter, if any. *)
Definition baseOf (a : Action) : Q :=
  match a with SetScore base => base | _ => 0 end.

(** A rational that is an integer. *)
Definition isInteger (q : Q) : Prop := exists z : Z, q == inject_Z z.

(** What the session keeps when every level leaves the multiplier out:
    the score is a non-negative integer and the multiplier held is 1. *)
Definition sessionInvariant (st : State) : Prop :=
  0 <= score st /\ isInteger (score st)
  /\ GameParameters.scoreMultiplier (gameParameters st) == 1.

End GameSession.

(* ================================================================= *)
(** ** The progress bar of the HUD                                    *)
(* ================================================================= *)

Module HUD.

Local Open Scope Q_scope.

(** [nextMilestone ? Math.min(100, Math.floor((score / nextMilestone) *
    100)) : 100]; [null] and [0] are falsy. *)
Definition progressToNext (score : Q) (nextMilestone : option Q) : Z :=
  match nextMilestone with
  | Some m =>
      if Qeq_bool m 0 then 100%Z
      else Z.min 100 (Qfloor (score / m * 100))
  | None => 100%Z
  end.

End HUD.

(* ================================================================= *)
(** ** Shapes of level tables                                         *)
(* ================================================================= *)

Module TableShape.

Local Open Scope Q_scope.

(** A relation holds between every level and the one after it. *)
Fixpoint adjacent (rel : DifficultyLevel.t -> DifficultyLevel.t -> bool)
    (levels : list DifficultyLevel.t) : bool :=
  match levels with
  | a :: ((b :: _) as rest) => rel a b && adjacent rel rest
  | _ => true
  end.

Definition speedsAscend (levels : list DifficultyLevel.t) : bool :=
  adjacent (fun a b => Qle_bool (DifficultyLevel.speed a)
                                (DifficultyLevel.speed b)) levels.

Definition spawnRatesDescend (levels : list DifficultyLevel.t) : bool :=
  adjacent (fun a b => Qle_bool (DifficultyLevel.spawnRate b)
                                (DifficultyLevel.spawnRate a)) levels.

(** Every level keeps a quantity within [lo] and [hi]. *)
Definition within (f : DifficultyLevel.t -> Q) (lo hi : Q)
    (levels : list DifficultyLevel.t) : bool :=
  forallb (fun l => Qle_bool lo (f l) && Qle_bool (f l) hi) levels.

(** The threshold of the first level is zero. *)
Definition startsAtZero (levels : list DifficultyLevel.t) : bool :=
  match levels with
  | first :: _ => Qeq_bool (DifficultyLevel.score first) 0
  | [] => false
  end.

End TableShape.

(* ================================================================= *)
(** ** The player controls (useNemoControls.ts)                       *)
(* ================================================================= *)

(** Further entries of [GAME_SETTINGS] in [constants.ts]. *)
Module GAME_SETTINGS_REST.
Definition MAX_SPEED : Q := 10%Q.
Definition MAX_PROFILES : nat := 5%nat.
Definition NEMO_INITIAL_SIZE : R := 1.0%R.
Definition NEMO_GROWTH_FACTOR : R := 0.05%R.
Definition GROWTH_SCORE_THRESHOLD : R := 1000%R.
End GAME_SETTINGS_REST.

Module NemoControls.

Local Open Scope R_scope.

(** [BOUNDS] and [MOVEMENT_SPEED]. *)
Definition BOUNDS_x : R := 5.
Definition BOUNDS_y : R := 4.
Definition BOUNDS_z : R := 5.
Definition MOVEMENT_SPEED_normal : R := 0.1.
Definition MOVEMENT_SPEED_fast : R := 0.2.
Definition MOVEMENT_SPEED_forward : R := 0.02.

(** The key states [getKeys()] returns. *)
Record Keys : Type := mkKeys {
  ArrowUp : bool;
  ArrowDown : bool;
  ArrowLeft : bool;
  ArrowRight : bool;
  KeyW : bool;
  KeyS : bool;
  KeyA : bool;
  KeyD : bool;
  ShiftLeft : bool
}.

(** The [useState] cells of the hook; [rotation] is a [THREE.Euler]. *)
Record State : Type := mkState {
  position : Vector3.t;
  rotation : Vector3.t;
  size : R;
  isMoving : bool;
  isBoosting : bool;
  tailAngle : R
}.

Definition initialState : State :=
  mkState (Vector3.mk 0 0 0) (Vector3.mk 0 (PI / 2) 0)
          GAME_SETTINGS_REST.NEMO_INITIAL_SIZE false false 0.

(** [updateSizeFromScore]. *)
Definition updateSizeFromScore (score : R) (st : State) : State :=
  let growthLevel :=
    Obstacles.Math_floor (score / GAME_SETTINGS_REST.GROWTH_SCORE_THRESHOLD) in
  let newSize :=
    GAME_SETTINGS_REST.NEMO_INITIAL_SIZE
    + IZR growthLevel * GAME_SETTINGS_REST.NEMO_GROWTH_FACTOR in
  mkState (position st) (rotation st) newSize
          (isMoving st) (isBoosting st) (tailAngle st).

Definition moveUp (k : Keys) : bool := ArrowUp k || KeyW k.
Definition moveDown (k : Keys) : bool := ArrowDown k || KeyS k.
Definition moveLeft (k : Keys) : bool := ArrowLeft k || KeyA k.
Definition moveRight (k : Keys) : bool := ArrowRight k || KeyD k.
Definition boost (k : Keys) : bool := ShiftLeft k.

Definition anyMovement (k : Keys) : bool :=
  moveUp k || moveDown k || moveLeft k || moveRight k.

Definition targetRotationX (k : Keys) : R :=
  if moveUp k then 0.2 else if moveDown k then -0.2 else 0.

Definition targetRotationZ (k : Keys) : R :=
  if moveLeft k then -0.3 else if moveRight k then 0.3 else 0.

(** The [useFrame] callback of the hook.  [mounted] tells whether
    [nemoRef.current] is set; the copies of position and rotation to the
    mesh are writes to the scene graph. *)
Definition useFrame (isPlaying mounted : bool) (k : Keys)
    (elapsedTime delta : R) (st : State) : State :=
  if negb isPlaying || negb mounted then st
  else
    let speed :=
      if boost k then MOVEMENT_SPEED_fast else MOVEMENT_SPEED_normal in
    let p := position st in
    let z1 := Vector3.z p + sin (elapsedTime * 2) * 0.01 in
    let y1 := if moveUp k then Vector3.y p + speed else Vector3.y p in
    let y2 := if moveDown k then y1 - speed else y1 in
    let x1 := if moveLeft k then Vector3.x p - speed else Vector3.x p in
    let x2 := if moveRight k then x1 + speed else x1 in
    let x3 := Rmax (- BOUNDS_x) (Rmin BOUNDS_x x2) in
    let y3 := Rmax (- BOUNDS_y) (Rmin BOUNDS_y y2) in
    let r := rotation st in
    let newRotation :=
      Vector3.mk
        (Vector3.x r + (targetRotationX k - Vector3.x r) * 0.1)
        (PI / 2)
        (Vector3.z r + (targetRotationZ k - Vector3.z r) * 0.1) in
    let tailSpeed :=
      if boost k then 15 else if anyMovement k then 10 else 5 in
    mkState (Vector3.mk x3 y3 z1) newRotation (size st)
            (anyMovement k) (boost k) (tailAngle st + delta * tailSpeed).

(** A series of frames, each with its keys, elapsed time and delta. *)
Definition runFrames (isPlaying mounted : bool)
    (frames : list (Keys * (R * R))) (st : State) : State :=
  fold_left
    (fun s f => useFrame isPlaying mounted (fst f) (fst (snd f))
                         (snd (snd f)) s)
    frames st.

(** The player the obstacle component sees: the group is scaled by [size]
    and positioned at [position]. *)
Definition asNemo (st : State) : Obstacles.Nemo :=
  Obstacles.mkNemo (position st) (size st).

Definition noKeys : Keys :=
  mkKeys false false false false false false false false false.

End NemoControls.

(* ================================================================= *)
(** ** Notions used to state properties of runs of obstacles          *)
(* ================================================================= *)

Module ObstacleRuns.

Import Obstacles.
Local Open Scope R_scope.

(** The obstacle held under an identifier, if any. *)
Definition held (i : nat) (st : State) : option Obstacle.t :=
  find (fun o => Nat.eqb (Obstacle.id o) i) (obstacles st).

(** A frame in which the game plays and the scene holds the mesh of
    obstacle [i]. *)
Definition showsMesh (i : nat) (f : Frame) : Prop :=
  isPlaying (props f) = true
  /\ exists group, obstaclesGroupRef f = Some group /\ group i <> None.

(** The time covered by a series of frames. *)
Definition sumDeltas (frames : list Frame) : R :=
  fold_right (fun f acc => delta f + acc) 0 frames.

(** Every draw of a frame's random source lies in #[0,1)#. *)
Definition unitDraws (random : nat -> R) : Prop :=
  forall k, 0 <= random k < 1.

(** An obstacle as [spawnObstacle] makes it at a given score, whatever the
    draws: kind-specific fields from the configuration, position and phase
    within their ranges. *)
Definition freshlySpawned (score : R) (o : Obstacle.t) : Prop :=
  let config := obstacleConfigs (Obstacle.type o) in
  Obstacle.active o = true
  /\ -5 <= Vector3.x (Obstacle.position o) < 5
  /\ (if isFloorType (Obstacle.type o)
      then Vector3.y (Obstacle.position o) = yPosition config
      else yPosition config - 1.5 <= Vector3.y (Obstacle.position o)
           < yPosition config + 1.5)
  /\ Vector3.z (Obstacle.position o) = -100
  /\ Obstacle.scale o = cfg_scale config
  /\ Obstacle.speed o = 0.5 * (1 + score / 5000)
  /\ 0 <= Obstacle.animationOffset o < 2 * PI
  /\ Obstacle.movementPattern o = movement config
  /\ Obstacle.amplitude o = orZero (cfg_amplitude config)
  /\ Obstacle.frequency o = orZero (cfg_frequency config)
  /\ Obstacle.color o = obstacleColors (Obstacle.type o).

End ObstacleRuns.

(* ================================================================= *)
(** ** The storage manager                                            *)
(* ================================================================= *)

(** Class [StorageManager] over [localStorage].  An item of the store is
    represented by the value its text stands for: the array or object that
    [JSON.parse] returns for a text written with [JSON.stringify], the
    integer that [parseInt] returns for a text written with [toString].
    Scores are integers (the game adds [Math.round] values), volumes are
    rationals.  An integer stands for a JavaScript number, and is carried
    to a text and back unchanged, only within the safe range
    [isSafeInteger]: from 10^21 on [toString] writes exponent notation and
    [parseInt] reads back the leading digit alone.  What is proved of the
    high score is therefore stated for safe integers.  [localStorage]
    itself is taken not to throw.  The
    module-level object [DEFAULT_PREFERENCES] is part of the state, since
    the class hands it out and writes to what it hands out. *)
Module StorageManager.

Local Open Scope Q_scope.

Record UserProfile : Type := mkProfile {
  name : string;
  highScore : Z;
  lastPlayed : string
}.

Record GamePreferences : Type := mkPreferences {
  musicVolume : Q;
  sfxVolume : Q;
  isMusicMuted : bool;
  isSfxMuted : bool;
  controlSensitivity : Q;
  showTutorial : bool
}.

(** [Partial<GamePreferences>]. *)
Record PartialPreferences : Type := mkPartial {
  p_musicVolume : option Q;
  p_sfxVolume : option Q;
  p_isMusicMuted : option bool;
  p_isSfxMuted : option bool;
  p_controlSensitivity : option Q;
  p_showTutorial : option bool
}.

(** What the profiles item parses to: an array of profiles, or anything
    else (an empty text, a text that does not parse, a value that is not an
    array). *)
Inductive ProfilesItem : Type :=
| NotAnArray
| ProfileArray (profiles : list UserProfile).

(** Likewise for the preferences item. *)
Inductive PreferencesItem : Type :=
| NotAnObject
| PreferencesObject (preferences : GamePreferences).

Record Storage : Type := mkStorage {
  profilesItem : option ProfilesItem;
  currentProfileItem : option string;
  highScoreItem : option Z;
  preferencesItem : option PreferencesItem;
  versionItem : option Z;
  DEFAULT_PREFERENCES : GamePreferences
}.

Definition STORAGE_VERSION : Z := 1.
Definition DEFAULT_HIGH_SCORE : Z := 0.
Definition MAX_PROFILES : nat := 5.

(** The object literal [DEFAULT_PREFERENCES] is initialised with. *)
Definition defaultPreferencesLiteral : GamePreferences :=
  mkPreferences 0.7 0.8 false false 0.5 true.

(** A browser without any item of the game. *)
Definition emptyStorage : Storage :=
  mkStorage None None None None None defaultPreferencesLiteral.

Definition Math_min (a b : Q) : Q := if Qle_bool a b then a else b.
Definition Math_max (a b : Q) : Q := if Qle_bool a b then b else a.

(** [clampValue]. *)
Definition clampValue (value min max : Q) : Q :=
  Math_max min (Math_min max value).

(** Setters of single items. *)
Definition setProfilesItem (v : option ProfilesItem) (st : Storage) : Storage :=
  mkStorage v (currentProfileItem st) (highScoreItem st)
            (preferencesItem st) (versionItem st) (DEFAULT_PREFERENCES st).

Definition setCurrentProfileItem (v : option string) (st : Storage)
  : Storage :=
  mkStorage (profilesItem st) v (highScoreItem st)
            (preferencesItem st) (versionItem st) (DEFAULT_PREFERENCES st).

Definition setHighScoreItem (v : option Z) (st : Storage) : Storage :=
  mkStorage (profilesItem st) (currentProfileItem st) v
            (preferencesItem st) (versionItem st) (DEFAULT_PREFERENCES st).

Definition setPreferencesItem (v : option PreferencesItem) (st : Storage)
  : Storage :=
  mkStorage (profilesItem st) (currentProfileItem st) (highScoreItem st)
            v (versionItem st) (DEFAULT_PREFERENCES st).

Definition setVersionItem (v : option Z) (st : Storage) : Storage :=
  mkStorage (profilesItem st) (currentProfileItem st) (highScoreItem st)
            (preferencesItem st) v (DEFAULT_PREFERENCES st).

Definition setDefaults (p : GamePreferences) (st : Storage) : Storage :=
  mkStorage (profilesItem st) (currentProfileItem st) (highScoreItem st)
            (preferencesItem st) (versionItem st) p.

(** [getStorageVersion]: [version ? parseInt(version, 10) : 0]. *)
Definition getStorageVersion (st : Storage) : Z :=
  match versionItem st with Some v => v | None => 0%Z end.

Definition saveStorageVersion (version : Z) (st : Storage) : Storage :=
  setVersionItem (Some version) st.

(** [getProfiles]. *)
Definition getProfiles (st : Storage) : list UserProfile :=
  match profilesItem st with
  | Some (ProfileArray profiles) => profiles
  | Some NotAnArray | None => []
  end.

(** [saveProfiles]: at most [MAX_PROFILES] are written. *)
Definition saveProfiles (profiles : list UserProfile) (st : Storage)
  : Storage :=
  let limitedProfiles := firstn MAX_PROFILES profiles in
  setProfilesItem (Some (ProfileArray limitedProfiles)) st.

Definition hasName (n : string) (p : UserProfile) : bool :=
  String.eqb (name p) n.

(** [getProfileByName]. *)
Definition getProfileByName (n : string) (st : Storage)
  : option UserProfile :=
  find (hasName n) (getProfiles st).

Definition getCurrentProfileName (st : Storage) : option string :=
  currentProfileItem st.

Definition saveCurrentProfileName (n : string) (st : Storage) : Storage :=
  setCurrentProfileItem (Some n) st.

(** A string as a condition: the empty string is falsy. *)
Definition truthyString (s : string) : bool :=
  match s with EmptyString => false | _ => true end.

(** [getCurrentProfile]. *)
Definition getCurrentProfile (st : Storage) : option UserProfile :=
  match getCurrentProfileName st with
  | Some n => if truthyString n then getProfileByName n st else None
  | None => None
  end.

(** [createProfile]; [now] is [new Date().toISOString()]. *)
Definition createProfile (n now : string) (st : Storage)
  : option UserProfile * Storage :=
  let profiles := getProfiles st in
  match find (hasName n) profiles with
  | Some _ => (None, st)
  | None =>
      if (MAX_PROFILES <=? length profiles)%nat then (None, st)
      else
        let newProfile := mkProfile n 0 now in
        (Some newProfile,
         saveCurrentProfileName n (saveProfiles (profiles ++ [newProfile]) st))
  end.

(** [deleteProfile]. *)
Definition deleteProfile (n : string) (st : Storage) : bool * Storage :=
  let profiles := getProfiles st in
  let newProfiles := filter (fun p => negb (hasName n p)) profiles in
  if (length newProfiles =? length profiles)%nat then (false, st)
  else
    let st1 := saveProfiles newProfiles st in
    let st2 :=
      match getCurrentProfileName st1 with
      | Some current =>
          if String.eqb current n then
            match newProfiles with
            | first :: _ => saveCurrentProfileName (name first) st1
            | [] => setCurrentProfileItem None st1
            end
          else st1
      | None => st1
      end in
    (true, st2).

(** [profiles[profileIndex] = ...] for the first index whose profile has
    the name; [None] when [findIndex] gives -1. *)
Fixpoint replaceFirst (n : string) (f : UserProfile -> UserProfile)
    (profiles : list UserProfile) : option (list UserProfile) :=
  match profiles with
  | [] => None
  | p :: rest =>
      if hasName n p then Some (f p :: rest)
      else option_map (cons p) (replaceFirst n f rest)
  end.

(** [updateProfile]: [{...profiles[i], ...profile, lastPlayed: now}]. *)
Definition updateProfile (profile : UserProfile) (now : string)
    (st : Storage) : bool * Storage :=
  match
    replaceFirst (name profile)
      (fun _ => mkProfile (name profile) (highScore profile) now)
      (getProfiles st)
  with
  | Some profiles => (true, saveProfiles profiles st)
  | None => (false, st)
  end.

(** [updateProfileHighScore]. *)
Definition updateProfileHighScore (n : string) (score : Z) (now : string)
    (st : Storage) : bool * Storage :=
  match getProfileByName n st with
  | None => (false, st)
  | Some profile =>
      if (highScore profile <? score)%Z
      then updateProfile (mkProfile (name profile) score (lastPlayed profile))
                         now st
      else (false, st)
  end.

(** [Number.MAX_SAFE_INTEGER] and [Number.isSafeInteger] on integers. *)
Definition MAX_SAFE_INTEGER : Z := 2 ^ 53 - 1.

Definition isSafeInteger (z : Z) : bool :=
  (- MAX_SAFE_INTEGER <=? z)%Z && (z <=? MAX_SAFE_INTEGER)%Z.

(** [getHighScore]: [highScoreStr ? parseInt(highScoreStr, 10) : 0].  The
    item holds the number whose [toString] was written; reading it back
    as that number is right for safe integers. *)
Definition getHighScore (st : Storage) : Z :=
  match highScoreItem st with Some h => h | None => DEFAULT_HIGH_SCORE end.

Definition saveHighScore (score : Z) (st : Storage) : Storage :=
  setHighScoreItem (Some score) st.

(** [updateHighScore]. *)
Definition updateHighScore (score : Z) (st : Storage) : bool * Storage :=
  let currentHighScore := getHighScore st in
  if (currentHighScore <? score)%Z then (true, saveHighScore score st)
  else (false, st).

(** [autoSave]. *)
Definition autoSave (score : Z) (currentProfileName : option string)
    (now : string) (st : Storage) : Storage :=
  let st1 := snd (updateHighScore score st) in
  match currentProfileName with
  | Some n =>
      if truthyString n
      then snd (updateProfileHighScore n score now st1) else st1
  | None => st1
  end.

(** What [getPreferences] returns: the object [DEFAULT_PREFERENCES] itself
    (no item, an empty text, or a value that is not an object), or a new
    object [{...DEFAULT_PREFERENCES, ...preferences}]. *)
Inductive PreferencesRef : Type :=
| TheDefaults
| Fresh (preferences : GamePreferences).

Definition getPreferencesRef (st : Storage) : PreferencesRef :=
  match preferencesItem st with
  | Some (PreferencesObject preferences) => Fresh preferences
  | Some NotAnObject | None => TheDefaults
  end.

(** The content of the object a reference points to. *)
Definition deref (st : Storage) (r : PreferencesRef) : GamePreferences :=
  match r with
  | TheDefaults => DEFAULT_PREFERENCES st
  | Fresh preferences => preferences
  end.

(** [getPreferences], as a value. *)
Definition getPreferences (st : Storage) : GamePreferences :=
  deref st (getPreferencesRef st).

(** [savePreferences]: merge with the defaults (a full object overrides
    them all), clamp the three ranges, write. *)
Definition savePreferences (preferences : GamePreferences) (st : Storage)
  : Storage :=
  let merged :=
    mkPreferences
      (clampValue (musicVolume preferences) 0 1)
      (clampValue (sfxVolume preferences) 0 1)
      (isMusicMuted preferences)
      (isSfxMuted preferences)
      (clampValue (controlSensitivity preferences) 0 1)
      (showTutorial preferences) in
  setPreferencesItem (Some (PreferencesObject merged)) st.

Definition orElse {A : Type} (x : option A) (d : A) : A :=
  match x with Some v => v | None => d end.

(** [updatePreferences]: [{...currentPreferences, ...preferences}]. *)
Definition updatePreferences (preferences : PartialPreferences)
    (st : Storage) : Storage :=
  let current := getPreferences st in
  let updated :=
    mkPreferences
      (orElse (p_musicVolume preferences) (musicVolume current))
      (orElse (p_sfxVolume preferences) (sfxVolume current))
      (orElse (p_isMusicMuted preferences) (isMusicMuted current))
      (orElse (p_isSfxMuted preferences) (isSfxMuted current))
      (orElse (p_controlSensitivity preferences) (controlSensitivity current))
      (orElse (p_showTutorial preferences) (showTutorial current)) in
  savePreferences updated st.

Inductive SoundType : Type := music | sfx.

(** A write to a field of the object [getPreferences] returned: when that
    is [DEFAULT_PREFERENCES], the defaults change. *)
Definition assign (r : PreferencesRef) (f : GamePreferences -> GamePreferences)
    (st : Storage) : GamePreferences * Storage :=
  match r with
  | TheDefaults =>
      (f (DEFAULT_PREFERENCES st), setDefaults (f (DEFAULT_PREFERENCES st)) st)
  | Fresh preferences => (f preferences, st)
  end.

Definition withMusicVolume (v : Q) (p : GamePreferences) : GamePreferences :=
  mkPreferences v (sfxVolume p) (isMusicMuted p) (isSfxMuted p)
                (controlSensitivity p) (showTutorial p).

Definition withSfxVolume (v : Q) (p : GamePreferences) : GamePreferences :=
  mkPreferences (musicVolume p) v (isMusicMuted p) (isSfxMuted p)
                (controlSensitivity p) (showTutorial p).

Definition toggleMusicMuted (p : GamePreferences) : GamePreferences :=
  mkPreferences (musicVolume p) (sfxVolume p) (negb (isMusicMuted p))
                (isSfxMuted p) (controlSensitivity p) (showTutorial p).

Definition toggleSfxMuted (p : GamePreferences) : GamePreferences :=
  mkPreferences (musicVolume p) (sfxVolume p) (isMusicMuted p)
                (negb (isSfxMuted p)) (controlSensitivity p) (showTutorial p).

(** [updateSoundVolume]. *)
Definition updateSoundVolume (type : SoundType) (volume : Q) (st : Storage)
  : Storage :=
  let clampedVolume := clampValue volume 0 1 in
  let '(preferences, st1) :=
    assign (getPreferencesRef st)
           (match type with
            | music => withMusicVolume clampedVolume
            | sfx => withSfxVolume clampedVolume
            end) st in
  savePreferences preferences st1.

(** [toggleMute]; the result is the new mute state. *)
Definition toggleMute (type : SoundType) (st : Storage) : bool * Storage :=
  let '(preferences, st1) :=
    assign (getPreferencesRef st)
           (match type with
            | music => toggleMusicMuted
            | sfx => toggleSfxMuted
            end) st in
  (match type with
   | music => isMusicMuted preferences
   | sfx => isSfxMuted preferences
   end,
   savePreferences preferences st1).

(** [type === 'music' ? preferences.isMusicMuted : preferences.isSfxMuted]
    and the volume of the same sound type. *)
Definition muteState (type : SoundType) (p : GamePreferences) : bool :=
  match type with music => isMusicMuted p | sfx => isSfxMuted p end.

Definition volumeOf (type : SoundType) (p : GamePreferences) : Q :=
  match type with music => musicVolume p | sfx => sfxVolume p end.

(** [resetStorage]: the four items are removed and written anew; the item
    of the current profile name is not touched. *)
Definition resetStorage (st : Storage) : Storage :=
  let st1 :=
    setVersionItem None
      (setPreferencesItem None
         (setHighScoreItem None (setProfilesItem None st))) in
  saveStorageVersion STORAGE_VERSION
    (savePreferences (DEFAULT_PREFERENCES st1)
       (saveHighScore DEFAULT_HIGH_SCORE (saveProfiles [] st1))).

(** The calls of the class that go through the checks of the class (not
    [saveProfiles] and [saveHighScore], which write what they are given). *)
Inductive Op : Type :=
| CreateProfile (n now : string)
| DeleteProfile (n : string)
| UpdateProfile (profile : UserProfile) (now : string)
| UpdateProfileHighScore (n : string) (score : Z) (now : string)
| UpdateHighScore (score : Z)
| AutoSave (score : Z) (currentProfileName : option string) (now : string)
| SaveCurrentProfileName (n : string)
| UpdatePreferences (preferences : PartialPreferences)
| UpdateSoundVolume (type : SoundType) (volume : Q)
| ToggleMute (type : SoundType)
| ResetStorage.

Definition perform (st : Storage) (op : Op) : Storage :=
  match op with
  | CreateProfile n now => snd (createProfile n now st)
  | DeleteProfile n => snd (deleteProfile n st)
  | UpdateProfile profile now => snd (updateProfile profile now st)
  | UpdateProfileHighScore n score now =>
      snd (updateProfileHighScore n score now st)
  | UpdateHighScore score => snd (updateHighScore score st)
  | AutoSave score current now => autoSave score current now st
  | SaveCurrentProfileName n => saveCurrentProfileName n st
  | UpdatePreferences preferences => updatePreferences preferences st
  | UpdateSoundVolume type volume => updateSoundVolume type volume st
  | ToggleMute type => snd (toggleMute type st)
  | ResetStorage => resetStorage st
  end.

Definition performAll (ops : list Op) (st : Storage) : Storage :=
  fold_left perform ops st.

(** The score an operation hands to [updateHighScore], if any. *)
Definition submittedScore (op : Op) : option Z :=
  match op with
  | UpdateHighScore score => Some score
  | AutoSave score _ _ => Some score
  | _ => None
  end.

(** The scores an operation hands to [updateHighScore] are safe
    integers. *)
Definition safeScore (op : Op) : bool :=
  match submittedScore op with
  | Some score => isSafeInteger score
  | None => true
  end.

Definition isReset (op : Op) : bool :=
  match op with ResetStorage => true | _ => false end.

(** At most five profiles, with pairwise different names. *)
Definition profilesOk (st : Storage) : Prop :=
  (length (getProfiles st) <= MAX_PROFILES)%nat
  /\ NoDup (map name (getProfiles st)).

(** The three ranged preferences lie in [0,1]. *)
Definition inRange (p : GamePreferences) : Prop :=
  0 <= musicVolume p <= 1 /\ 0 <= sfxVolume p <= 1
  /\ 0 <= controlSensitivity p <= 1.

Definition preferencesOk (st : Storage) : Prop :=
  inRange (DEFAULT_PREFERENCES st) /\ inRange (getPreferences st).

End StorageManager.

(* ================================================================= *)
(** ** Lemmas on the level scan                                       *)
(* ================================================================= *)

Section ScanLemmas.

Import DifficultyManager LevelTable.
Local Open Scope Q_scope.

Lemma Qltb_lt (a b : Q) : Qltb a b = true <-> a < b.
Proof.
  unfold Qltb. rewrite negb_true_iff. split; intro H.
  - apply Qnot_le_lt. intro Hle. apply Qle_bool_iff in Hle. congruence.
  - destruct (Qle_bool b a) eqn:E; [|reflexivity].
    apply Qle_bool_iff in E. exfalso. apply (Qlt_not_le _ _ H E).
Qed.

Lemma Qle_bool_false (a b : Q) : Qle_bool a b = false <-> b < a.
Proof.
  rewrite <- Qltb_lt. unfold Qltb. rewrite negb_true_iff. reflexivity.
Qed.

Lemma ascending_tail (a : DifficultyLevel.t) (ls : list DifficultyLevel.t) :
  ascending (a :: ls) = true -> ascending ls = true.
Proof.
  destruct ls as [|b ls]; [reflexivity|].
  cbn [ascending]. rewrite andb_true_iff. tauto.
Qed.

Lemma ascending_head_lt (a : DifficultyLevel.t) (ls : list DifficultyLevel.t) :
  ascending (a :: ls) = true ->
  forall j b, nth_error ls j = Some b ->
  DifficultyLevel.score a < DifficultyLevel.score b.
Proof.
  revert a. induction ls as [|c ls IH]; intros a Hasc j b Hj.
  - destruct j; discriminate.
  - cbn [ascending] in Hasc. apply andb_true_iff in Hasc as [Hac Hrest].
    apply Qltb_lt in Hac.
    destruct j as [|j]; cbn in Hj.
    + injection Hj as <-. exact Hac.
    + eapply Qlt_trans; [exact Hac|]. eapply IH; eassumption.
Qed.

(** In an ascending table, a later level has a strictly larger threshold. *)
Lemma ascending_nth (ls : list DifficultyLevel.t) :
  ascending ls = true ->
  forall i j a b, (i < j)%nat ->
  nth_error ls i = Some a -> nth_error ls j = Some b ->
  DifficultyLevel.score a < DifficultyLevel.score b.
Proof.
  induction ls as [|c ls IH]; intros Hasc i j a b Hij Hi Hj.
  - destruct i; discriminate.
  - destruct j as [|j]; [lia|].
    destruct i as [|i]; cbn in Hi, Hj.
    + injection Hi as <-. eapply ascending_head_lt; eassumption.
    + eapply (IH (ascending_tail _ _ Hasc) i j); try eassumption. lia.
Qed.

(** The scan stops at [i] when level [i] qualifies and no higher one does. *)
Lemma scanLevels_found (ls : list DifficultyLevel.t) (s : Q) (i : nat)
    (level : DifficultyLevel.t) :
  nth_error ls i = Some level ->
  DifficultyLevel.score level <= s ->
  forall n, (i < n)%nat ->
  (forall j l, (i < j < n)%nat -> nth_error ls j = Some l ->
               s < DifficultyLevel.score l) ->
  scanLevels ls n s = i.
Proof.
  intros Hi Hle n. induction n as [|n IH]; intros Hin Habove; [lia|].
  cbn [scanLevels].
  destruct (Nat.eq_dec i n) as [->|Hne].
  - rewrite Hi. apply Qle_bool_iff in Hle. rewrite Hle. reflexivity.
  - destruct (nth_error ls n) as [l|] eqn:Hn.
    + assert (Hlt : s < DifficultyLevel.score l) by (apply (Habove n); [lia|exact Hn]).
      apply Qle_bool_false in Hlt. rewrite Hlt.
      apply IH; [lia|]. intros j l' Hj. apply Habove. lia.
    + apply IH; [lia|]. intros j l' Hj. apply Habove. lia.
Qed.

(** The scan falls back to [0] when no level below [n] qualifies. *)
Lemma scanLevels_none (ls : list DifficultyLevel.t) (s : Q) :
  forall n,
  (forall j l, (j < n)%nat -> nth_error ls j = Some l ->
               s < DifficultyLevel.score l) ->
  scanLevels ls n s = 0%nat.
Proof.
  induction n as [|n IH]; intros Hnone; [reflexivity|].
  cbn [scanLevels].
  destruct (nth_error ls n) as [l|] eqn:Hn.
  - assert (Hlt : s < DifficultyLevel.score l) by (apply (Hnone n); [lia|exact Hn]).
    apply Qle_bool_false in Hlt. rewrite Hlt.
    apply IH. intros j l' Hj. apply Hnone. lia.
  - apply IH. intros j l' Hj. apply Hnone. lia.
Qed.

(** The scan never returns an index at or beyond its start (but for [0]). *)
Lemma scanLevels_bound (ls : list DifficultyLevel.t) (s : Q) :
  forall n, (scanLevels ls n s <= Nat.pred n)%nat.
Proof.
  induction n as [|n IH]; [cbn; lia|].
  cbn [scanLevels].
  destruct (nth_error ls n) as [l|]; [destruct (Qle_bool _ _)|]; cbn; lia.
Qed.

(** What the scan returns: a level whose threshold is at most the score and
    above which every level is too high, or else [0] with every level too
    high. *)
Lemma scanLevels_spec (ls : list DifficultyLevel.t) (s : Q) :
  forall n, (n <= length ls)%nat ->
  let i := scanLevels ls n s in
  (exists level, nth_error ls i = Some level /\ (i < n)%nat
                 /\ DifficultyLevel.score level <= s
                 /\ forall j l, (i < j < n)%nat -> nth_error ls j = Some l ->
                                s < DifficultyLevel.score l)
  \/ (i = 0%nat /\ forall j l, (j < n)%nat -> nth_error ls j = Some l ->
                               s < DifficultyLevel.score l).
Proof.
  induction n as [|n IH]; intros Hn; cbn zeta.
  - right. split; [reflexivity|]. intros; lia.
  - cbn [scanLevels].
    destruct (nth_error ls n) as [l|] eqn:En.
    + destruct (Qle_bool (DifficultyLevel.score l) s) eqn:Ele.
      * left. exists l. repeat split; [exact En|lia| |intros; lia].
        apply Qle_bool_iff. exact Ele.
      * apply Qle_bool_false in Ele.
        destruct IH as [(level & Hi & Hlt & Hle & Habove)|[H0 Hnone]]; [lia| |].
        -- left. exists level. repeat split; [exact Hi|lia|exact Hle|].
           intros j l' Hj Hl'. destruct (Nat.eq_dec j n) as [->|Hne].
           ++ rewrite En in Hl'. injection Hl' as <-. exact Ele.
           ++ apply (Habove j); [lia|exact Hl'].
        -- right. split; [exact H0|].
           intros j l' Hj Hl'. destruct (Nat.eq_dec j n) as [->|Hne].
           ++ rewrite En in Hl'. injection Hl' as <-. exact Ele.
           ++ apply (Hnone j); [lia|exact Hl'].
    + apply nth_error_None in En. lia.
Qed.

End ScanLemmas.

(* ================================================================= *)
(** ** Properties of the difficulty curve                             *)
(* ================================================================= *)

Section CurveLemmas.

Import DifficultyManager LevelTable.
Local Open Scope Q_scope.

Variable levels : list DifficultyLevel.t.
Hypothesis levels_ok : wellFormed levels = true.

Lemma wellFormed_ascending : ascending levels = true.
Proof.
  unfold wellFormed in levels_ok.
  apply andb_true_iff in levels_ok as [H _].
  apply andb_true_iff in H as [_ H]. exact H.
Qed.

Lemma wellFormed_nonempty : (0 < length levels)%nat.
Proof.
  unfold wellFormed in levels_ok.
  apply andb_true_iff in levels_ok as [H _].
  apply andb_true_iff in H as [H _].
  apply negb_true_iff, Nat.eqb_neq in H. lia.
Qed.

Lemma wellFormed_multiplier (i : nat) (level : DifficultyLevel.t) :
  nth_error levels i = Some level ->
  orDefault (DifficultyLevel.scoreMultiplier level) 1.0 = multiplierOf level.
Proof.
  intro Hi. apply nth_error_In in Hi.
  unfold wellFormed in levels_ok.
  apply andb_true_iff in levels_ok as [_ H].
  rewrite forallb_forall in H. specialize (H _ Hi).
  unfold truthyMultiplier, orDefault, multiplierOf in *.
  destruct (DifficultyLevel.scoreMultiplier level) as [m|]; [|reflexivity].
  apply negb_true_iff in H. rewrite H. reflexivity.
Qed.

(** The level index of a score that lies in the range of level [i]. *)
Lemma getDifficultyLevelIndex_in_range (s : Q) (i : nat)
    (level : DifficultyLevel.t) :
  nth_error levels i = Some level ->
  DifficultyLevel.score level <= s ->
  (forall next, nth_error levels (i + 1) = Some next ->
                s < DifficultyLevel.score next) ->
  getDifficultyLevelIndex levels s = i.
Proof.
  intros Hi Hle Hnext. unfold getDifficultyLevelIndex.
  assert (Hlen : (i < length levels)%nat)
    by (apply nth_error_Some; rewrite Hi; discriminate).
  apply (scanLevels_found levels s i level Hi Hle _ Hlen).
  intros j l Hj Hl.
  destruct (nth_error levels (i + 1)) as [next|] eqn:En.
  - specialize (Hnext next eq_refl).
    destruct (Nat.eq_dec j (i + 1)) as [->|Hne].
    + rewrite En in Hl. injection Hl as <-. exact Hnext.
    + eapply Qlt_trans; [exact Hnext|].
      apply (ascending_nth levels wellFormed_ascending (i + 1) j next l);
        [lia|exact En|exact Hl].
  - apply nth_error_None in En. lia.
Qed.

(** [getNextMilestone] in terms of the level index. *)
Lemma getNextMilestone_last (s : Q) :
  getDifficultyLevelIndex levels s = (length levels - 1)%nat ->
  getNextMilestone levels s = None.
Proof.
  intro Hidx. unfold getNextMilestone. rewrite Hidx.
  destruct (Z.leb_spec (Z.of_nat (length levels) - 1)
                       (Z.of_nat (length levels - 1))); [reflexivity|lia].
Qed.

Lemma getNextMilestone_next (s : Q) (i : nat) (next : DifficultyLevel.t) :
  getDifficultyLevelIndex levels s = i ->
  nth_error levels (i + 1) = Some next ->
  getNextMilestone levels s = Some (DifficultyLevel.score next).
Proof.
  intros Hidx Hn. unfold getNextMilestone. rewrite Hidx, Hn.
  assert (Hlen : (i + 1 < length levels)%nat)
    by (apply nth_error_Some; rewrite Hn; discriminate).
  destruct (Z.leb_spec (Z.of_nat (length levels) - 1) (Z.of_nat i));
    [lia|reflexivity].
Qed.

(** The two return statements of [calculateGameParameters], each under the
    condition that selects it. *)
Lemma calculateGameParameters_raw (s : Q) (i : nat)
    (level : DifficultyLevel.t) :
  nth_error levels i = Some level ->
  getDifficultyLevelIndex levels s = i ->
  getNextMilestone levels s = None \/ s == DifficultyLevel.score level ->
  calculateGameParameters levels s =
  Some (GameParameters.mk
          (DifficultyLevel.speed level) (DifficultyLevel.spawnRate level)
          (multiplierOf level) i (getNextMilestone levels s)).
Proof.
  intros Hi Hidx Hcase. unfold calculateGameParameters.
  rewrite Hidx, Hi, (wellFormed_multiplier i level Hi).
  destruct Hcase as [Hnone|Heq].
  - rewrite Hnone. reflexivity.
  - apply Qeq_bool_iff in Heq. rewrite Heq, orb_true_r. reflexivity.
Qed.

Lemma calculateGameParameters_between (s : Q) (i : nat)
    (cur next : DifficultyLevel.t) :
  nth_error levels i = Some cur ->
  nth_error levels (i + 1) = Some next ->
  DifficultyLevel.score cur < s ->
  s < DifficultyLevel.score next ->
  let progress :=
    (s - DifficultyLevel.score cur)
    / (DifficultyLevel.score next - DifficultyLevel.score cur) in
  calculateGameParameters levels s =
  Some (GameParameters.mk
          (DifficultyLevel.speed cur
           + progress * (DifficultyLevel.speed next - DifficultyLevel.speed cur))
          (DifficultyLevel.spawnRate cur
           + progress * (DifficultyLevel.spawnRate next
                         - DifficultyLevel.spawnRate cur))
          (multiplierOf cur + progress * (multiplierOf next - multiplierOf cur))
          i (Some (DifficultyLevel.score next))).
Proof.
  intros Hi Hn Hlo Hhi progress.
  assert (Hidx : getDifficultyLevelIndex levels s = i).
  { apply (getDifficultyLevelIndex_in_range s i cur Hi (Qlt_le_weak _ _ Hlo)).
    intros next' Hn'. rewrite Hn in Hn'. injection Hn' as <-. exact Hhi. }
  unfold calculateGameParameters.
  rewrite Hidx, Hi, Hn, (getNextMilestone_next s i next Hidx Hn).
  rewrite (wellFormed_multiplier i cur Hi),
          (wellFormed_multiplier (i + 1) next Hn).
  destruct (Qeq_bool s (DifficultyLevel.score cur)) eqn:E.
  - apply Qeq_bool_iff in E. rewrite E in Hlo.
    exfalso. exact (Qlt_irrefl _ Hlo).
  - reflexivity.
Qed.

(** The index is always a valid position of a non-empty table. *)
Lemma getDifficultyLevelIndex_lt (s : Q) :
  (getDifficultyLevelIndex levels s < length levels)%nat.
Proof.
  unfold getDifficultyLevelIndex.
  pose proof (scanLevels_bound levels s (length levels)).
  pose proof wellFormed_nonempty. lia.
Qed.

End CurveLemmas.

Section CurveFacts.

Import DifficultyManager LevelTable.
Local Open Scope Q_scope.

(** [nextMilestone] and [difficultyLevel] always come from the same scan. *)
Lemma calculateGameParameters_milestone (levels : list DifficultyLevel.t)
    (s : Q) (p : GameParameters.t) :
  calculateGameParameters levels s = Some p ->
  GameParameters.difficultyLevel p = getDifficultyLevelIndex levels s
  /\ GameParameters.nextMilestone p = getNextMilestone levels s.
Proof.
  unfold calculateGameParameters.
  destruct (nth_error levels (getDifficultyLevelIndex levels s)) as [cur|];
    [|discriminate].
  destruct (_ || _).
  - intros [= <-]. split; reflexivity.
  - destruct (nth_error levels (getDifficultyLevelIndex levels s + 1));
      [|discriminate].
    intros [= <-]. split; reflexivity.
Qed.

Lemma getNextMilestone_None_iff (levels : list DifficultyLevel.t) (s : Q) :
  (getDifficultyLevelIndex levels s < length levels)%nat ->
  getNextMilestone levels s = None
  <-> getDifficultyLevelIndex levels s = (length levels - 1)%nat.
Proof.
  intro Hlt. unfold getNextMilestone.
  destruct (Z.leb_spec (Z.of_nat (length levels) - 1)
                       (Z.of_nat (getDifficultyLevelIndex levels s))) as [H|H].
  - split; [lia|reflexivity].
  - destruct (nth_error levels (getDifficultyLevelIndex levels s + 1)) eqn:E.
    + cbn. split; [discriminate|lia].
    + apply nth_error_None in E. lia.
Qed.

(** On a non-empty table [calculateGameParameters] always returns. *)
Lemma calculateGameParameters_total (levels : list DifficultyLevel.t) (s : Q) :
  levels <> [] -> exists p, calculateGameParameters levels s = Some p.
Proof.
  intro Hne.
  assert (Hlen : (0 < length levels)%nat)
    by (destruct levels; [congruence|cbn; lia]).
  assert (Hlt : (getDifficultyLevelIndex levels s < length levels)%nat).
  { unfold getDifficultyLevelIndex.
    pose proof (scanLevels_bound levels s (length levels)). lia. }
  unfold calculateGameParameters.
  destruct (nth_error levels (getDifficultyLevelIndex levels s)) as [cur|] eqn:Ec.
  - destruct (getNextMilestone levels s) as [m|] eqn:Em; cbn [orb].
    + destruct (Qeq_bool s (DifficultyLevel.score cur)); [eauto|].
      destruct (nth_error levels (getDifficultyLevelIndex levels s + 1)) eqn:En;
        [eauto|].
      apply nth_error_None in En.
      assert (getNextMilestone levels s = None)
        by (apply getNextMilestone_None_iff; lia).
      congruence.
    + eauto.
  - apply nth_error_None in Ec. lia.
Qed.

(** With every multiplier left out, the multiplier returned is one. *)
Lemma calculateGameParameters_no_multiplier (levels : list DifficultyLevel.t)
    (s : Q) (p : GameParameters.t) :
  Forall (fun l => DifficultyLevel.scoreMultiplier l = None) levels ->
  calculateGameParameters levels s = Some p ->
  GameParameters.scoreMultiplier p == 1.
Proof.
  intros Hall. rewrite Forall_forall in Hall.
  unfold calculateGameParameters.
  destruct (nth_error levels (getDifficultyLevelIndex levels s)) as [cur|] eqn:Ec;
    [|discriminate].
  pose proof (Hall _ (nth_error_In _ _ Ec)) as Hc.
  destruct (_ || _).
  - intros [= <-]. cbn. rewrite Hc. reflexivity.
  - destruct (nth_error levels (getDifficultyLevelIndex levels s + 1))
      as [next|] eqn:En; [|discriminate].
    pose proof (Hall _ (nth_error_In _ _ En)) as Hn.
    intros [= <-]. cbn [GameParameters.scoreMultiplier].
    rewrite Hc, Hn. cbn [orDefault].
    set (t := _ / _). ring.
Qed.

(** Progress grows with the score. *)
Lemma progressBetween_mono (cur next : DifficultyLevel.t) (s1 s2 : Q) :
  DifficultyLevel.score cur < DifficultyLevel.score next ->
  s1 <= s2 ->
  progressBetween cur next s1 <= progressBetween cur next s2.
Proof.
  intros Hd Hs. unfold progressBetween, Qdiv.
  apply Qmult_le_compat_r.
  - Lqa.lra.
  - apply Qlt_le_weak, Qinv_lt_0_compat. Lqa.lra.
Qed.

Lemma lerp_increasing (a b t1 t2 : Q) :
  a <= b -> t1 <= t2 -> lerp a b t1 <= lerp a b t2.
Proof.
  intros Hab Ht. unfold lerp.
  assert (t1 * (b - a) <= t2 * (b - a)) by (apply Qmult_le_compat_r; Lqa.lra).
  Lqa.lra.
Qed.

Lemma lerp_decreasing (a b t1 t2 : Q) :
  b <= a -> t1 <= t2 -> lerp a b t2 <= lerp a b t1.
Proof.
  intros Hab Ht. unfold lerp.
  assert (t1 * (a - b) <= t2 * (a - b)) by (apply Qmult_le_compat_r; Lqa.lra).
  assert (t1 * (b - a) == - (t1 * (a - b))) by ring.
  assert (t2 * (b - a) == - (t2 * (a - b))) by ring.
  Lqa.lra.
Qed.

Lemma progressBetween_strict (cur next : DifficultyLevel.t) (s1 s2 : Q) :
  DifficultyLevel.score cur < DifficultyLevel.score next ->
  s1 < s2 ->
  progressBetween cur next s1 < progressBetween cur next s2.
Proof.
  intros Hd Hs. unfold progressBetween, Qdiv.
  apply Qmult_lt_compat_r.
  - apply Qinv_lt_0_compat. Lqa.lra.
  - Lqa.lra.
Qed.

Lemma lerp_strictly_increasing (a b t1 t2 : Q) :
  a < b -> t1 < t2 -> lerp a b t1 < lerp a b t2.
Proof.
  intros Hab Ht. unfold lerp.
  assert (t1 * (b - a) < t2 * (b - a)) by (apply Qmult_lt_compat_r; Lqa.lra).
  Lqa.lra.
Qed.

Lemma lerp_strictly_decreasing (a b t1 t2 : Q) :
  b < a -> t1 < t2 -> lerp a b t2 < lerp a b t1.
Proof.
  intros Hab Ht. unfold lerp.
  assert (t1 * (a - b) < t2 * (a - b)) by (apply Qmult_lt_compat_r; Lqa.lra).
  assert (t1 * (b - a) == - (t1 * (a - b))) by ring.
  assert (t2 * (b - a) == - (t2 * (a - b))) by ring.
  Lqa.lra.
Qed.

Lemma lerp_constant (a b t1 t2 : Q) :
  a == b -> lerp a b t1 == lerp a b t2.
Proof.
  intros Hab. unfold lerp.
  assert (t1 * (b - a) == 0) by (rewrite Hab; ring).
  assert (t2 * (b - a) == 0) by (rewrite Hab; ring).
  Lqa.lra.
Qed.

(** From the threshold of a level up to (not including) the next one, the
    parameters returned are the interpolated ones; at the threshold itself
    progress is zero and they are the level's own. *)
Lemma calculateGameParameters_lerp (levels : list DifficultyLevel.t)
    (i : nat) (cur next : DifficultyLevel.t) (s : Q) :
  wellFormed levels = true ->
  nth_error levels i = Some cur ->
  nth_error levels (i + 1) = Some next ->
  DifficultyLevel.score cur <= s ->
  s < DifficultyLevel.score next ->
  exists p,
    calculateGameParameters levels s = Some p
    /\ GameParameters.speed p ==
       lerp (DifficultyLevel.speed cur) (DifficultyLevel.speed next)
            (progressBetween cur next s)
    /\ GameParameters.spawnRate p ==
       lerp (DifficultyLevel.spawnRate cur) (DifficultyLevel.spawnRate next)
            (progressBetween cur next s)
    /\ GameParameters.scoreMultiplier p ==
       lerp (multiplierOf cur) (multiplierOf next) (progressBetween cur next s).
Proof.
  intros Hwf Hi Hn Hlo Hhi.
  destruct (Qeq_dec s (DifficultyLevel.score cur)) as [Heq|Hneq].
  - assert (Hidx : getDifficultyLevelIndex levels s = i).
    { apply (getDifficultyLevelIndex_in_range levels Hwf s i cur Hi Hlo).
      intros next' Hn'. rewrite Hn in Hn'. injection Hn' as <-. exact Hhi. }
    eexists. split.
    + apply (calculateGameParameters_raw levels Hwf s i cur Hi Hidx).
      right. exact Heq.
    + cbn. unfold lerp, progressBetween. rewrite Heq.
      assert (H0 : DifficultyLevel.score cur - DifficultyLevel.score cur == 0)
        by ring.
      unfold Qdiv. rewrite H0. repeat split; ring.
  - assert (Hlt : DifficultyLevel.score cur < s).
    { destruct (Qlt_le_dec (DifficultyLevel.score cur) s) as [H|H]; [exact H|].
      exfalso. apply Hneq. apply Qle_antisym; assumption. }
    eexists. split.
    + apply (calculateGameParameters_between levels Hwf s i cur next Hi Hn Hlt Hhi).
    + cbn. unfold lerp, progressBetween. repeat split; reflexivity.
Qed.

End CurveFacts.

Section CurveTheorems.

Import DifficultyManager LevelTable.
Local Open Scope Q_scope.

(** C3.  On a well-formed table, a score equal to the threshold of level
    [i], or at or above the threshold of the last level [i], yields exactly
    that level's speed, spawn rate and multiplier (the multiplier being
    [1.0] when the level gives none) and the index [i]; and for every score
    the returned [nextMilestone] is [null] if and only if the returned
    index is the last one. *)
Theorem calculateGameParameters_threshold_or_max :
  forall levels : list DifficultyLevel.t,
  wellFormed levels = true ->
  (forall (s : Q) (i : nat) (level : DifficultyLevel.t),
     nth_error levels i = Some level ->
     s == DifficultyLevel.score level
     \/ (i = (length levels - 1)%nat /\ DifficultyLevel.score level <= s) ->
     exists p,
       calculateGameParameters levels s = Some p
       /\ GameParameters.speed p = DifficultyLevel.speed level
       /\ GameParameters.spawnRate p = DifficultyLevel.spawnRate level
       /\ GameParameters.scoreMultiplier p = multiplierOf level
       /\ GameParameters.difficultyLevel p = i
       /\ (i = (length levels - 1)%nat ->
           GameParameters.nextMilestone p = None))
  /\ (forall (s : Q) (p : GameParameters.t),
        calculateGameParameters levels s = Some p ->
        GameParameters.nextMilestone p = None
        <-> GameParameters.difficultyLevel p = (length levels - 1)%nat).
Proof.
  intros levels Hwf. split.
  - intros s i level Hi Hcase.
    assert (Hlen : (i < length levels)%nat)
      by (apply nth_error_Some; rewrite Hi; discriminate).
    assert (Hidx : getDifficultyLevelIndex levels s = i).
    { apply (getDifficultyLevelIndex_in_range levels Hwf s i level Hi).
      - destruct Hcase as [Heq|[_ Hle]]; [rewrite Heq; apply Qle_refl|exact Hle].
      - intros next Hn. destruct Hcase as [Heq|[Hlast _]].
        + rewrite Heq.
          apply (ascending_nth levels (wellFormed_ascending levels Hwf)
                   i (i + 1) level next); [lia|exact Hi|exact Hn].
        + assert ((i + 1 < length levels)%nat)
            by (apply nth_error_Some; rewrite Hn; discriminate).
          lia. }
    eexists. split.
    + apply (calculateGameParameters_raw levels Hwf s i level Hi Hidx).
      destruct Hcase as [Heq|[Hlast _]]; [right; exact Heq|left].
      apply (getNextMilestone_last levels). congruence.
    + cbn. repeat split.
      intro Hlast. apply (getNextMilestone_last levels). congruence.
  - intros s p Hp.
    destruct (calculateGameParameters_milestone levels s p Hp) as [-> ->].
    apply getNextMilestone_None_iff.
    apply (getDifficultyLevelIndex_lt levels Hwf).
Qed.

(** C4.  On a well-formed table, a score strictly between the thresholds
    of two consecutive levels yields speed, spawn rate and multiplier
    interpolated linearly with
    [progress = (s - currentThreshold) / (nextThreshold - currentThreshold)],
    the index of the lower level and the upper threshold as next milestone;
    on the table of scenario A the score 50 gives speed 5.5, spawn rate
    1.9, multiplier 1.0, index 0 and milestone 100. *)
Theorem calculateGameParameters_interpolates :
  (forall levels : list DifficultyLevel.t,
   wellFormed levels = true ->
   forall (s : Q) (i : nat) (cur next : DifficultyLevel.t),
   nth_error levels i = Some cur ->
   nth_error levels (i + 1) = Some next ->
   DifficultyLevel.score cur < s ->
   s < DifficultyLevel.score next ->
   let progress :=
     (s - DifficultyLevel.score cur)
     / (DifficultyLevel.score next - DifficultyLevel.score cur) in
   exists p,
     calculateGameParameters levels s = Some p
     /\ GameParameters.speed p ==
        DifficultyLevel.speed cur
        + progress * (DifficultyLevel.speed next - DifficultyLevel.speed cur)
     /\ GameParameters.spawnRate p ==
        DifficultyLevel.spawnRate cur
        + progress * (DifficultyLevel.spawnRate next
                      - DifficultyLevel.spawnRate cur)
     /\ GameParameters.scoreMultiplier p ==
        multiplierOf cur + progress * (multiplierOf next - multiplierOf cur)
     /\ GameParameters.difficultyLevel p = i
     /\ GameParameters.nextMilestone p = Some (DifficultyLevel.score next)
     /\ 0 < progress /\ progress < 1)
  /\ (exists p,
        calculateGameParameters scenarioA 50 = Some p
        /\ GameParameters.speed p == 5.5
        /\ GameParameters.spawnRate p == 1.9
        /\ GameParameters.scoreMultiplier p == 1.0
        /\ GameParameters.difficultyLevel p = 0%nat
        /\ GameParameters.nextMilestone p = Some 100).
Proof.
  split.
  - intros levels Hwf s i cur next Hi Hn Hlo Hhi progress.
    eexists. split.
    + apply (calculateGameParameters_between levels Hwf s i cur next
               Hi Hn Hlo Hhi).
    + cbn. fold progress. repeat split; try reflexivity.
      * unfold progress, Qdiv.
        apply Qmult_lt_0_compat; [Lqa.lra|].
        apply Qinv_lt_0_compat. Lqa.lra.
      * unfold progress. apply Qlt_shift_div_r; Lqa.lra.
  - eexists. split; [vm_compute; reflexivity|].
    cbn. repeat split; reflexivity.
Qed.

(** C9.  On a well-formed table and for two consecutive levels, as the
    score grows from the lower threshold towards the upper one the returned
    speed, spawn rate and multiplier each move monotonically in the
    direction of the difference between the two levels: never against it,
    and for a strictly larger score strictly along it when the two levels
    differ in the parameter, not at all when they agree in it. *)
Theorem interpolation_monotone :
  forall levels : list DifficultyLevel.t,
  wellFormed levels = true ->
  forall (i : nat) (cur next : DifficultyLevel.t) (s1 s2 : Q),
  nth_error levels i = Some cur ->
  nth_error levels (i + 1) = Some next ->
  DifficultyLevel.score cur <= s1 ->
  s1 <= s2 ->
  s2 < DifficultyLevel.score next ->
  exists p1 p2,
    calculateGameParameters levels s1 = Some p1
    /\ calculateGameParameters levels s2 = Some p2
    /\ (DifficultyLevel.speed cur <= DifficultyLevel.speed next ->
        GameParameters.speed p1 <= GameParameters.speed p2)
    /\ (DifficultyLevel.speed next <= DifficultyLevel.speed cur ->
        GameParameters.speed p2 <= GameParameters.speed p1)
    /\ (DifficultyLevel.spawnRate cur <= DifficultyLevel.spawnRate next ->
        GameParameters.spawnRate p1 <= GameParameters.spawnRate p2)
    /\ (DifficultyLevel.spawnRate next <= DifficultyLevel.spawnRate cur ->
        GameParameters.spawnRate p2 <= GameParameters.spawnRate p1)
    /\ (multiplierOf cur <= multiplierOf next ->
        GameParameters.scoreMultiplier p1 <= GameParameters.scoreMultiplier p2)
    /\ (multiplierOf next <= multiplierOf cur ->
        GameParameters.scoreMultiplier p2 <= GameParameters.scoreMultiplier p1)
    /\ (s1 < s2 ->
        (DifficultyLevel.speed cur < DifficultyLevel.speed next ->
         GameParameters.speed p1 < GameParameters.speed p2)
        /\ (DifficultyLevel.speed next < DifficultyLevel.speed cur ->
            GameParameters.speed p2 < GameParameters.speed p1)
        /\ (DifficultyLevel.spawnRate cur < DifficultyLevel.spawnRate next ->
            GameParameters.spawnRate p1 < GameParameters.spawnRate p2)
        /\ (DifficultyLevel.spawnRate next < DifficultyLevel.spawnRate cur ->
            GameParameters.spawnRate p2 < GameParameters.spawnRate p1)
        /\ (multiplierOf cur < multiplierOf next ->
            GameParameters.scoreMultiplier p1
            < GameParameters.scoreMultiplier p2)
        /\ (multiplierOf next < multiplierOf cur ->
            GameParameters.scoreMultiplier p2
            < GameParameters.scoreMultiplier p1))
    /\ (DifficultyLevel.speed cur == DifficultyLevel.speed next ->
        GameParameters.speed p1 == GameParameters.speed p2)
    /\ (DifficultyLevel.spawnRate cur == DifficultyLevel.spawnRate next ->
        GameParameters.spawnRate p1 == GameParameters.spawnRate p2)
    /\ (multiplierOf cur == multiplierOf next ->
        GameParameters.scoreMultiplier p1
        == GameParameters.scoreMultiplier p2).
Proof.
  intros levels Hwf i cur next s1 s2 Hi Hn Hlo H12 Hhi.
  assert (Hd : DifficultyLevel.score cur < DifficultyLevel.score next)
    by Lqa.lra.
  destruct (calculateGameParameters_lerp levels i cur next s1 Hwf Hi Hn)
    as (p1 & Hp1 & Hv1 & Hr1 & Hm1); [exact Hlo|Lqa.lra|].
  destruct (calculateGameParameters_lerp levels i cur next s2 Hwf Hi Hn)
    as (p2 & Hp2 & Hv2 & Hr2 & Hm2); [Lqa.lra|exact Hhi|].
  pose proof (progressBetween_mono cur next s1 s2 Hd H12) as Hpr.
  exists p1, p2. split; [exact Hp1|]. split; [exact Hp2|].
  rewrite Hv1, Hv2, Hr1, Hr2, Hm1, Hm2.
  repeat (split;
          [intro Hdir;
           first [ apply lerp_increasing; assumption
                 | apply lerp_decreasing; assumption ]|]).
  split.
  - intro Hlt.
    pose proof (progressBetween_strict cur next s1 s2 Hd Hlt) as Hst.
    repeat split; intro Hdir;
      first [ apply lerp_strictly_increasing; assumption
            | apply lerp_strictly_decreasing; assumption ].
  - repeat split; intro Heq; apply lerp_constant; exact Heq.
Qed.

(** C10.  With the shipped table, whose levels give no multiplier, the
    multiplier returned is 1 for every score, so the score setter adds the
    (rounded) base increase itself. *)
Theorem shipped_scoreMultiplier_is_one :
  forall s : Q,
  exists p,
    calculateGameParameters GAME_SETTINGS.DIFFICULTY_LEVELS s = Some p
    /\ GameParameters.scoreMultiplier p == 1
    /\ forall (st : GameState.State) (baseScoreIncrease : Q),
         GameState.gameParameters st = p ->
         GameState.isPlaying st = true ->
         baseScoreIncrease * GameParameters.scoreMultiplier p
         == baseScoreIncrease
         /\ GameState.score
              (GameState.setScoreWithMultiplier baseScoreIncrease st)
            == GameState.score st + GameState.Math_round baseScoreIncrease.
Proof.
  intro s.
  destruct (calculateGameParameters_total GAME_SETTINGS.DIFFICULTY_LEVELS s)
    as [p Hp]; [discriminate|].
  assert (Hm : GameParameters.scoreMultiplier p == 1).
  { apply (calculateGameParameters_no_multiplier
             GAME_SETTINGS.DIFFICULTY_LEVELS s p); [|exact Hp].
    repeat constructor. }
  exists p. split; [exact Hp|]. split; [exact Hm|].
  intros st base Hst Hplay.
  assert (Hb : base * GameParameters.scoreMultiplier p == base)
    by (rewrite Hm; ring).
  split; [exact Hb|].
  unfold GameState.setScoreWithMultiplier. rewrite Hplay, Hst.
  cbn [GameState.score]. unfold GameState.Math_round.
  rewrite Hb. reflexivity.
Qed.

End CurveTheorems.

(* ================================================================= *)
(** ** Level changes                                                  *)
(* ================================================================= *)

Section CrossingLemmas.

Import DifficultyManager LevelTable Crossing.
Local Open Scope Q_scope.

Variable levels : list DifficultyLevel.t.
Hypothesis levels_ok : wellFormed levels = true.

Lemma ascending_nth_le (i j : nat) (a b : DifficultyLevel.t) :
  (i <= j)%nat -> nth_error levels i = Some a -> nth_error levels j = Some b ->
  DifficultyLevel.score a <= DifficultyLevel.score b.
Proof.
  intros Hij Hi Hj. destruct (Nat.eq_dec i j) as [->|Hne].
  - rewrite Hi in Hj. injection Hj as <-. apply Qle_refl.
  - apply Qlt_le_weak.
    apply (ascending_nth levels (wellFormed_ascending levels levels_ok) i j);
      [lia|exact Hi|exact Hj].
Qed.

(** The index of a score: the greatest level not above it, when there is
    one; otherwise [0]. *)
Lemma getDifficultyLevelIndex_spec (s : Q) :
  let i := getDifficultyLevelIndex levels s in
  (exists level, nth_error levels i = Some level
                 /\ DifficultyLevel.score level <= s
                 /\ forall j l, (i < j)%nat -> nth_error levels j = Some l ->
                                s < DifficultyLevel.score l)
  \/ (i = 0%nat /\ forall l, In l levels -> s < DifficultyLevel.score l).
Proof.
  cbn zeta. unfold getDifficultyLevelIndex.
  destruct (scanLevels_spec levels s (length levels) (Nat.le_refl _))
    as [(level & Hi & Hlt & Hle & Habove)|[H0 Hnone]].
  - left. exists level. repeat split; [exact Hi|exact Hle|].
    intros j l Hj Hl. apply (Habove j); [|exact Hl].
    split; [exact Hj|]. apply nth_error_Some. rewrite Hl. discriminate.
  - right. split; [exact H0|]. intros l Hin.
    destruct (In_nth_error _ _ Hin) as [j Hj].
    apply (Hnone j); [|exact Hj].
    apply nth_error_Some. rewrite Hj. discriminate.
Qed.

Lemma getDifficultyLevelIndex_inDomain (s : Q) :
  inDomain levels s = true ->
  let i := getDifficultyLevelIndex levels s in
  exists level, nth_error levels i = Some level
                /\ DifficultyLevel.score level <= s
                /\ forall j l, (i < j)%nat -> nth_error levels j = Some l ->
                               s < DifficultyLevel.score l.
Proof.
  intros Hdom. cbn zeta.
  destruct (getDifficultyLevelIndex_spec s) as [H|[_ Hnone]]; [exact H|].
  exfalso. pose proof (wellFormed_nonempty levels levels_ok) as Hne.
  destruct levels as [|first rest]; [cbn in Hne; lia|].
  cbn in Hdom. apply Qle_bool_iff in Hdom.
  specialize (Hnone first (or_introl eq_refl)).
  apply (Qlt_not_le _ _ Hnone Hdom).
Qed.

(** The level rises exactly when the update crosses a threshold. *)
Lemma isNewDifficultyLevel_crosses (prev cur : Q) :
  inDomain levels prev = true ->
  isNewDifficultyLevel levels prev cur = crossesThreshold levels prev cur.
Proof.
  intro Hdom.
  destruct (getDifficultyLevelIndex_inDomain prev Hdom)
    as (lp & Hip & Hlep & Hab_p).
  apply eq_true_iff_eq. unfold isNewDifficultyLevel, crossesThreshold.
  rewrite Nat.ltb_lt, existsb_exists. split.
  - intro Hlt.
    destruct (getDifficultyLevelIndex_spec cur)
      as [(lc & Hic & Hlec & _)|[H0 _]]; [|lia].
    exists lc. split; [eapply nth_error_In; exact Hic|].
    apply andb_true_iff. split.
    + apply Qltb_lt. apply (Hab_p _ lc Hlt Hic).
    + apply Qle_bool_iff. exact Hlec.
  - intros (l & Hin & Hl). apply andb_true_iff in Hl as [Hpl Hlc].
    apply Qltb_lt in Hpl. apply Qle_bool_iff in Hlc.
    destruct (In_nth_error _ _ Hin) as [j Hj].
    assert (Hpj : (getDifficultyLevelIndex levels prev < j)%nat).
    { destruct (Nat.lt_ge_cases (getDifficultyLevelIndex levels prev) j)
        as [H|H]; [exact H|].
      exfalso. pose proof (ascending_nth_le _ _ _ _ H Hj Hip) as Hle.
      Lqa.lra. }
    assert (Hjc : (j <= getDifficultyLevelIndex levels cur)%nat).
    { destruct (getDifficultyLevelIndex_spec cur)
        as [(lc & Hic & Hlec & Hab_c)|[_ Hnone]].
      - destruct (Nat.lt_ge_cases (getDifficultyLevelIndex levels cur) j)
          as [H|H]; [|exact H].
        exfalso. pose proof (Hab_c j l H Hj). Lqa.lra.
      - exfalso. pose proof (Hnone l Hin). Lqa.lra. }
    lia.
Qed.

End CrossingLemmas.

Section CrossingTheorems.

Import DifficultyManager LevelTable Crossing.
Local Open Scope Q_scope.

(** One call of [updateDifficulty] on a well-formed table: it returns, it
    records the new score, and it appends a notification exactly when the
    update crosses a threshold. *)
Lemma updateDifficulty_notifies (levels : list DifficultyLevel.t)
    (s : Q) (st : GameState.State) :
  wellFormed levels = true ->
  inDomain levels (GameState.previousScoreRef st) = true ->
  exists st',
    GameState.updateDifficulty levels s st = Some st'
    /\ GameState.previousScoreRef st' = s
    /\ GameState.notifications st' =
       GameState.notifications st
       ++ (if crossesThreshold levels (GameState.previousScoreRef st) s
           then [getDifficultyLevelIndex levels s] else []).
Proof.
  intros Hwf Hdom. unfold GameState.updateDifficulty.
  destruct (calculateGameParameters_total levels s) as [p Hp].
  { pose proof (wellFormed_nonempty levels Hwf).
    destruct levels; [cbn in *; lia|discriminate]. }
  rewrite Hp, (isNewDifficultyLevel_crosses levels Hwf _ s Hdom).
  destruct (calculateGameParameters_milestone levels s p Hp) as [Hlvl _].
  eexists. split; [reflexivity|]. cbn. split; [reflexivity|].
  destruct (crossesThreshold _ _ _); [rewrite Hlvl; reflexivity|].
  rewrite app_nil_r. reflexivity.
Qed.

(** C5.  [isNewDifficultyLevel] is true exactly when the level index of the
    current score exceeds that of the previous one, hence false for two
    scores of the same level; along any sequence of score updates on a
    well-formed table, [updateDifficulty] raises exactly one notification
    for each update that crosses one or more thresholds, for the level that
    update reaches, and none for the other updates; with the shipped table
    the single update from 90 to 300 raises exactly one notification, for
    level 2, and the following update within that level raises none. *)
Theorem isNewDifficultyLevel_once_per_crossing :
  (forall (levels : list DifficultyLevel.t) (previousScore currentScore : Q),
     isNewDifficultyLevel levels previousScore currentScore = true
     <-> (getDifficultyLevelIndex levels previousScore
          < getDifficultyLevelIndex levels currentScore)%nat)
  /\ (forall (levels : list DifficultyLevel.t) (previousScore currentScore : Q),
        getDifficultyLevelIndex levels previousScore
        = getDifficultyLevelIndex levels currentScore ->
        isNewDifficultyLevel levels previousScore currentScore = false)
  /\ (forall (levels : list DifficultyLevel.t),
        wellFormed levels = true ->
        forall (scores : list Q) (st : GameState.State),
        forallb (inDomain levels) (GameState.previousScoreRef st :: scores)
        = true ->
        exists st',
          GameState.updateDifficultyAll levels scores st = Some st'
          /\ GameState.notifications st' =
             GameState.notifications st
             ++ expectedNotifications levels
                  (GameState.previousScoreRef st) scores)
  /\ (isNewDifficultyLevel GAME_SETTINGS.DIFFICULTY_LEVELS 90 300 = true
      /\ expectedNotifications GAME_SETTINGS.DIFFICULTY_LEVELS 90 [300; 301]
         = [2%nat]).
Proof.
  split; [|split; [|split]].
  - intros levels p c. unfold isNewDifficultyLevel. apply Nat.ltb_lt.
  - intros levels p c Heq. unfold isNewDifficultyLevel. rewrite Heq.
    apply Nat.ltb_irrefl.
  - intros levels Hwf scores.
    induction scores as [|s rest IH]; intros st Hdom.
    + exists st. split; [reflexivity|]. cbn. rewrite app_nil_r. reflexivity.
    + cbn [forallb] in Hdom. apply andb_true_iff in Hdom as [Hprev Hrest].
      destruct (updateDifficulty_notifies levels s st Hwf Hprev)
        as (st1 & Hst1 & Hprev1 & Hnot1).
      destruct (IH st1) as (st' & Hst' & Hnot').
      { cbn [forallb]. rewrite Hprev1. exact Hrest. }
      exists st'. cbn [GameState.updateDifficultyAll]. rewrite Hst1.
      split; [exact Hst'|].
      rewrite Hnot', Hnot1, Hprev1. cbn [expectedNotifications].
      rewrite app_assoc. reflexivity.
  - split; vm_compute; reflexivity.
Qed.

End CrossingTheorems.

(* ================================================================= *)
(** ** Properties of the collision detector                           *)
(* ================================================================= *)

Section CollisionLemmas.

Import Obstacles ObstacleSpec.
Local Open Scope R_scope.

Lemma Rltb_true_iff (a b : R) : Rltb a b = true <-> a < b.
Proof.
  unfold Rltb. destruct (Rlt_dec a b); split; intro; try easy.
Qed.

Lemma Rltb_false_iff (a b : R) : Rltb a b = false <-> b <= a.
Proof.
  unfold Rltb. destruct (Rlt_dec a b); split; intro; try easy; lra.
Qed.

(** One step of the loop either leaves the accumulator alone (no overlap)
    or sets the guard and counts one more call (overlap). *)
Lemma checkObstacle_cases (group : Group) (nemoPosition : Vector3.t)
    (nemoRadius : R) (acc : bool * nat) (obstacle : Obstacle.t) :
  (overlaps group nemoPosition nemoRadius obstacle
   /\ checkObstacle group nemoPosition nemoRadius acc obstacle
      = (true, S (snd acc)))
  \/ (~ overlaps group nemoPosition nemoRadius obstacle
      /\ checkObstacle group nemoPosition nemoRadius acc obstacle = acc).
Proof.
  unfold checkObstacle, overlaps.
  destruct (Obstacle.active obstacle); cbn [negb].
  - destruct (group (Obstacle.id obstacle)) as [pos|].
    + destruct (Rltb _ _) eqn:E.
      * left. apply Rltb_true_iff in E. split; [|reflexivity].
        split; [reflexivity|]. exists pos. split; [reflexivity|exact E].
      * right. apply Rltb_false_iff in E. split; [|reflexivity].
        intros [_ (pos' & [= <-] & Hlt)]. lra.
    + right. split; [|reflexivity]. intros [_ (pos' & Hpos & _)]. discriminate.
  - right. split; [|reflexivity]. intros [H _]. discriminate.
Qed.

(** The loop never lowers the call count nor clears the guard. *)
Lemma checkObstacle_fold_grows (group : Group) (nemoPosition : Vector3.t)
    (nemoRadius : R) (obstacles : list Obstacle.t) :
  forall acc,
  let res := fold_left (checkObstacle group nemoPosition nemoRadius)
                       obstacles acc in
  (snd acc <= snd res)%nat
  /\ ((0 < snd acc)%nat -> fst acc = true -> fst res = true).
Proof.
  induction obstacles as [|o rest IH]; intros acc; cbn zeta; cbn [fold_left].
  - split; [lia|tauto].
  - specialize (IH (checkObstacle group nemoPosition nemoRadius acc o)).
    cbn zeta in IH. destruct IH as [IH1 IH2].
    destruct (checkObstacle_cases group nemoPosition nemoRadius acc o)
      as [[_ E]|[_ E]]; rewrite E in *; cbn [fst snd] in *.
    + split; [lia|]. intros _ _. apply IH2; [lia|reflexivity].
    + split; [exact IH1|exact IH2].
Qed.

(** The loop makes a call if and only if some obstacle overlaps (or a call
    had been made already), and then the guard is set. *)
Lemma checkObstacle_fold_reports (group : Group) (nemoPosition : Vector3.t)
    (nemoRadius : R) (obstacles : list Obstacle.t) :
  forall acc,
  let res := fold_left (checkObstacle group nemoPosition nemoRadius)
                       obstacles acc in
  ((snd acc < snd res)%nat
   <-> exists o, In o obstacles /\ overlaps group nemoPosition nemoRadius o)
  /\ ((snd acc < snd res)%nat -> fst res = true).
Proof.
  induction obstacles as [|o rest IH]; intros acc; cbn zeta; cbn [fold_left].
  - split; [|lia]. split; [lia|]. intros (o & [] & _).
  - pose proof (IH (checkObstacle group nemoPosition nemoRadius acc o)) as IHo.
    cbn zeta in IHo. destruct IHo as [IH1 IH2].
    pose proof (checkObstacle_fold_grows group nemoPosition nemoRadius rest
                  (checkObstacle group nemoPosition nemoRadius acc o)) as Hg.
    cbn zeta in Hg. destruct Hg as [Hg1 Hg2].
    destruct (checkObstacle_cases group nemoPosition nemoRadius acc o)
      as [[Hov E]|[Hnov E]]; rewrite E in *; cbn [fst snd] in *.
    + split.
      * split; [|lia]. intros _. exists o. split; [left; reflexivity|exact Hov].
      * intros _. apply Hg2; [lia|reflexivity].
    + split; [|exact IH2].
      rewrite IH1. split.
      * intros (o' & Hin & Hov). exists o'. split; [right; exact Hin|exact Hov].
      * intros (o' & [<-|Hin] & Hov); [contradiction|].
        exists o'. split; [exact Hin|exact Hov].
Qed.

(** One step of the loop in terms of the boolean test. *)
Lemma checkObstacle_overlapsb (group : Group) (nemoPosition : Vector3.t)
    (nemoRadius : R) (acc : bool * nat) (o : Obstacle.t) :
  checkObstacle group nemoPosition nemoRadius acc o
  = if overlapsb group nemoPosition nemoRadius o
    then (true, S (snd acc)) else acc.
Proof.
  unfold checkObstacle, overlapsb.
  destruct (Obstacle.active o); cbn [negb andb]; [|reflexivity].
  destruct (group (Obstacle.id o)); reflexivity.
Qed.

(** The loop calls [onCollision] once for every overlapping obstacle of the
    list, not once at most. *)
Lemma checkObstacle_fold_counts (group : Group) (nemoPosition : Vector3.t)
    (nemoRadius : R) (obstacles : list Obstacle.t) :
  forall acc,
  fold_left (checkObstacle group nemoPosition nemoRadius) obstacles acc
  = (fst acc || existsb (overlapsb group nemoPosition nemoRadius) obstacles,
     (snd acc
      + length (filter (overlapsb group nemoPosition nemoRadius) obstacles))%nat).
Proof.
  induction obstacles as [|o rest IH]; intros [guard calls]; cbn [fold_left].
  - cbn. rewrite orb_false_r, Nat.add_0_r. reflexivity.
  - rewrite IH, checkObstacle_overlapsb. cbn [existsb filter].
    destruct (overlapsb group nemoPosition nemoRadius o);
      cbn [fst snd orb length]; [|reflexivity].
    rewrite orb_true_r, Nat.add_succ_r. reflexivity.
Qed.

(** Distance along the z axis. *)
Lemma distanceTo_along_z (a b c d : R) :
  0 <= d - c ->
  Vector3.distanceTo (Vector3.mk a b c) (Vector3.mk a b d) = d - c.
Proof.
  intro H. unfold Vector3.distanceTo, Vector3.distanceToSquared. cbn.
  replace ((a - a) * (a - a) + (b - b) * (b - b) + (c - d) * (c - d))
    with ((d - c) * (d - c)) by ring.
  apply sqrt_square. exact H.
Qed.

(** While the guard is set, [checkCollisions] does nothing. *)
Lemma checkCollisions_guarded (props : Props) (group : option Group)
    (obstacles : list Obstacle.t) :
  checkCollisions props group obstacles true = (true, 0%nat).
Proof.
  unfold checkCollisions.
  destruct (nemoRef props); [destruct group|]; reflexivity.
Qed.

(** The effect run when a playthrough starts clears the guard. *)
Lemma resetCollisionEffect_clears (st : State) :
  hasCollidedRef (resetCollisionEffect true st) = false.
Proof. reflexivity. Qed.

(** [spawnObstacle] never touches the guard. *)
Lemma spawnObstacle_guard (props : Props) (now : R) (rnd : nat -> R)
    (st : State) :
  hasCollidedRef (spawnObstacle props now rnd st) = hasCollidedRef st.
Proof.
  unfold spawnObstacle. destruct (isPlaying props); cbn [negb]; [|reflexivity].
  destruct (Rltb _ _); reflexivity.
Qed.

(** Once the guard is set, no frame reports a collision and the guard stays
    set, whatever the positions, until a playthrough starts again. *)
Lemma useFrame_guarded (f : Frame) (st : State) :
  hasCollidedRef st = true ->
  snd (useFrame f st) = 0%nat /\ hasCollidedRef (fst (useFrame f st)) = true.
Proof.
  intro Hg. unfold useFrame.
  destruct (obstaclesGroupRef f) as [group|]; [|split; [reflexivity|exact Hg]].
  destruct (isPlaying (props f)); cbn [negb]; [|split; [reflexivity|exact Hg]].
  rewrite spawnObstacle_guard, Hg, checkCollisions_guarded.
  split; reflexivity.
Qed.

Lemma frames_guarded (frames : list Frame) :
  forall st,
  hasCollidedRef st = true ->
  hasCollidedRef (run (map FrameEvent frames) st) = true
  /\ Forall (fun calls => calls = 0%nat) (frameCalls frames st).
Proof.
  induction frames as [|f frames IH]; intros st Hg.
  - split; [exact Hg|constructor].
  - destruct (useFrame_guarded f st Hg) as [Hcalls Hg'].
    destruct (IH _ Hg') as [IHg IHcalls].
    unfold run in *. cbn [map fold_left step frameCalls].
    split; [exact IHg|]. constructor; [exact Hcalls|exact IHcalls].
Qed.

End CollisionLemmas.

Section CollisionTheorems.

Import Obstacles ObstacleSpec.
Local Open Scope R_scope.

(** C1 (the code departs from it).  With the guard clear and two active
    obstacles that both overlap the player, a single invocation of
    [checkCollisions] calls [onCollision] twice: the [forEach] loop goes on
    after the first hit. *)
Theorem checkCollisions_two_overlaps_two_events :
  checkCollisions playingProps (Some allAtOrigin)
    [ obstacleOf 0 rock (Vector3.mk 0 0 0);
      obstacleOf 1 coral (Vector3.mk 0 0 0) ] false
  = (true, 2%nat).
Proof.
  assert (Hd : Vector3.distanceTo (Vector3.mk 0 0 0) (Vector3.mk 0 0 0) = 0).
  { rewrite distanceTo_along_z; lra. }
  unfold checkCollisions, playingProps, nemoAtOrigin, allAtOrigin.
  cbn [nemoRef isPlaying negb worldPosition scaleX fold_left].
  unfold checkObstacle, obstacleOf.
  cbn [Obstacle.active Obstacle.id Obstacle.type negb snd
       obstacleConfigs collisionRadius].
  rewrite Hd. unfold GAME_SETTINGS.COLLISION_THRESHOLD.
  assert (H1 : Rltb 0 (0.5 * 1 * 0.8 + 1.1) = true)
    by (apply Rltb_true_iff; lra).
  assert (H2 : Rltb 0 (0.5 * 1 * 0.8 + 1) = true)
    by (apply Rltb_true_iff; lra).
  rewrite H1. cbn [snd]. rewrite H2. reflexivity.
Qed.

(** C2.  With the player mounted, the game playing and the guard clear,
    [checkCollisions] reports a collision (calls [onCollision], and sets
    the guard) exactly when some active obstacle whose mesh is in the scene
    is at a distance from the player strictly below
    [0.5 * playerSizeScale * 0.8] plus the collision radius of its kind;
    a rock at (0,0,1.2) and a player of size 1 at the origin are at
    distance 1.2, below 0.4 + 1.1 = 1.5, and a collision is reported. *)
Theorem checkCollisions_distance_test :
  (forall (props : Props) (nemo : Nemo) (group : Group)
          (obstacles : list Obstacle.t),
     nemoRef props = Some nemo ->
     isPlaying props = true ->
     let playerRadius :=
       0.5 * scaleX nemo * GAME_SETTINGS.COLLISION_THRESHOLD in
     let result := checkCollisions props (Some group) obstacles false in
     ((0 < snd result)%nat
      <-> exists o obstaclePosition,
            In o obstacles
            /\ Obstacle.active o = true
            /\ group (Obstacle.id o) = Some obstaclePosition
            /\ Vector3.distanceTo (worldPosition nemo) obstaclePosition
               < playerRadius
                 + collisionRadius (obstacleConfigs (Obstacle.type o)))
     /\ (fst result = true <-> (0 < snd result)%nat))
  /\ (GAME_SETTINGS.COLLISION_THRESHOLD = 0.8
      /\ 0.5 * 1.0 * GAME_SETTINGS.COLLISION_THRESHOLD = 0.4
      /\ collisionRadius (obstacleConfigs rock) = 1.1
      /\ Vector3.distanceTo (Vector3.mk 0 0 0) (Vector3.mk 0 0 1.2) = 1.2
      /\ forall (group : Group) (o : Obstacle.t),
           Obstacle.type o = rock ->
           Obstacle.active o = true ->
           group (Obstacle.id o) = Some (Vector3.mk 0 0 1.2) ->
           checkCollisions playingProps (Some group) [o] false
           = (true, 1%nat)).
Proof.
  split.
  - intros props nemo group obstacles Hnemo Hplay playerRadius result.
    subst result. unfold checkCollisions. rewrite Hnemo, Hplay. cbn [negb].
    fold playerRadius.
    pose proof (checkObstacle_fold_reports group (worldPosition nemo)
                  playerRadius obstacles (false, 0%nat)) as H.
    cbn zeta in H. cbn [snd] in H. destruct H as [Hiff Hguard].
    split.
    + rewrite Hiff. unfold overlaps. split.
      * intros (o & Hin & Hact & pos & Hpos & Hlt). exists o, pos. tauto.
      * intros (o & pos & Hin & Hact & Hpos & Hlt). exists o.
        split; [exact Hin|]. split; [exact Hact|]. exists pos. tauto.
    + split; [|exact Hguard].
      (* the guard is only ever set together with a call *)
      assert (Hinv : forall l acc,
                 (fst acc = true -> (0 < snd acc)%nat) ->
                 fst (fold_left (checkObstacle group (worldPosition nemo)
                                   playerRadius) l acc) = true ->
                 (0 < snd (fold_left (checkObstacle group (worldPosition nemo)
                                        playerRadius) l acc))%nat).
      { induction l as [|o l IH]; intros acc Hacc; cbn [fold_left];
          [exact Hacc|].
        apply IH.
        destruct (checkObstacle_cases group (worldPosition nemo)
                    playerRadius acc o) as [[_ E]|[_ E]]; rewrite E.
        - cbn. lia.
        - exact Hacc. }
      apply Hinv. cbn. discriminate.
  - unfold GAME_SETTINGS.COLLISION_THRESHOLD.
    split; [reflexivity|]. split; [lra|]. split; [reflexivity|].
    assert (Hd : Vector3.distanceTo (Vector3.mk 0 0 0) (Vector3.mk 0 0 1.2)
                 = 1.2).
    { rewrite distanceTo_along_z; lra. }
    split; [exact Hd|].
    intros group o Htype Hact Hmesh.
    unfold checkCollisions, playingProps, nemoAtOrigin.
    cbn [nemoRef isPlaying negb worldPosition scaleX fold_left].
    unfold checkObstacle. rewrite Hact, Hmesh, Htype, Hd. cbn [negb snd].
    cbn [obstacleConfigs collisionRadius].
    unfold GAME_SETTINGS.COLLISION_THRESHOLD.
    assert (H : Rltb 1.2 (0.5 * 1 * 0.8 + 1.1) = true)
      by (apply Rltb_true_iff; lra).
    rewrite H. reflexivity.
Qed.

End CollisionTheorems.

(* ================================================================= *)
(** ** Properties of the spawner and of the per-frame update          *)
(* ================================================================= *)

Section SpawnAndMotion.

Import Obstacles ObstacleSpec.
Local Open Scope R_scope.

(** What [spawnObstacle] does once it has decided to spawn. *)
Lemma spawnObstacle_cases (props : Props) (now : R) (rnd : nat -> R)
    (st : State) :
  isPlaying props = true ->
  let spawnInterval :=
    GAME_SETTINGS.OBSTACLE_SPAWN_RATE / getDifficultyFactor (score props) in
  (now - lastSpawnTimeRef st < spawnInterval
   /\ spawnObstacle props now rnd st = st)
  \/ (spawnInterval <= now - lastSpawnTimeRef st
      /\ exists o,
           spawnObstacle props now rnd st
           = mkState (obstacles st ++ [o]) now
               (S (obstacleCounterRef st)) (hasCollidedRef st)
           /\ Obstacle.id o = obstacleCounterRef st
           /\ Obstacle.active o = true
           /\ Vector3.z (Obstacle.position o)
              = - GAME_SETTINGS.OBSTACLE_SPAWN_DISTANCE
           /\ Obstacle.speed o
              = GAME_SETTINGS.INITIAL_SPEED
                * getDifficultyFactor (score props)).
Proof.
  intros Hplay spawnInterval. unfold spawnObstacle. rewrite Hplay. cbn [negb].
  fold spawnInterval.
  destruct (Rltb (now - lastSpawnTimeRef st) spawnInterval) eqn:E.
  - left. apply Rltb_true_iff in E. split; [exact E|reflexivity].
  - right. apply Rltb_false_iff in E. split; [exact E|].
    eexists. split; [reflexivity|]. cbn. repeat split; reflexivity.
Qed.

(** C6.  [spawnObstacle] does nothing when the game is not playing;
    when it is (and the score is not negative) it spawns one obstacle and
    sets [lastSpawnTime] to [now] if
    [now - lastSpawnTime >= 2000 / (1 + score / 5000)], and otherwise leaves
    everything, [lastSpawnTime] included, as it was; with
    [lastSpawnTime = 1000] and score 0 (interval 2000) the call at 1500
    spawns nothing and the call at 3100 spawns an obstacle and sets
    [lastSpawnTime] to 3100. *)
Theorem spawnObstacle_time_gate :
  (forall (props : Props) (now : R) (rnd : nat -> R) (st : State),
     isPlaying props = false -> spawnObstacle props now rnd st = st)
  /\ (forall (props : Props) (now : R) (rnd : nat -> R) (st : State),
        isPlaying props = true ->
        0 <= score props ->
        let spawnInterval := 2000 / (1 + score props / 5000) in
        (spawnInterval <= now - lastSpawnTimeRef st ->
         exists o,
           spawnObstacle props now rnd st
           = mkState (obstacles st ++ [o]) now
               (S (obstacleCounterRef st)) (hasCollidedRef st)
           /\ Obstacle.id o = obstacleCounterRef st
           /\ Obstacle.active o = true)
        /\ (now - lastSpawnTimeRef st < spawnInterval ->
            spawnObstacle props now rnd st = st))
  /\ (forall (rnd : nat -> R) (before : list Obstacle.t) (counter : nat)
             (collided : bool) (nemo : option Nemo),
        let st := mkState before 1000 counter collided in
        let props := mkProps 0 true nemo in
        GAME_SETTINGS.OBSTACLE_SPAWN_RATE / getDifficultyFactor (score props)
        = 2000
        /\ spawnObstacle props 1500 rnd st = st
        /\ lastSpawnTimeRef (spawnObstacle props 3100 rnd st) = 3100
        /\ exists o, obstacles (spawnObstacle props 3100 rnd st)
                     = before ++ [o]).
Proof.
  split; [|split].
  - intros props now rnd st Hplay. unfold spawnObstacle. rewrite Hplay.
    reflexivity.
  - intros props now rnd st Hplay _ spawnInterval.
    destruct (spawnObstacle_cases props now rnd st Hplay)
      as [[Hlt Hst]|[Hge (o & Hst & Hid & Hact & _)]];
      unfold GAME_SETTINGS.OBSTACLE_SPAWN_RATE, getDifficultyFactor in *;
      fold spawnInterval in Hlt || fold spawnInterval in Hge.
    + split; [intro; lra|intros _; exact Hst].
    + split; [intros _; exists o; auto|intro; lra].
  - intros rnd before counter collided nemo st props.
    assert (Hint : GAME_SETTINGS.OBSTACLE_SPAWN_RATE
                   / getDifficultyFactor (score props) = 2000).
    { unfold GAME_SETTINGS.OBSTACLE_SPAWN_RATE, getDifficultyFactor, props.
      cbn [score]. field. }
    split; [exact Hint|].
    split.
    + destruct (spawnObstacle_cases props 1500 rnd st eq_refl)
        as [[_ Hst]|[Hge _]]; [exact Hst|].
      rewrite Hint in Hge. cbn in Hge. lra.
    + destruct (spawnObstacle_cases props 3100 rnd st eq_refl)
        as [[Hlt _]|[_ (o & Hst & _)]].
      * rewrite Hint in Hlt. cbn in Hlt. lra.
      * rewrite Hst. cbn. split; [reflexivity|]. exists o. reflexivity.
Qed.

(** A draw of [Math.random()], a number in #[0,1)#, always selects one of
    the five kinds: the default of [nth] in [spawnObstacle] is not reached. *)
Lemma randomTypeIndex_in_range (r : R) :
  0 <= r < 1 ->
  (Z.to_nat (Math_floor (r * INR (length obstacleTypes)))
   < length obstacleTypes)%nat.
Proof.
  intros [Hlo Hhi]. unfold Math_floor. cbn [obstacleTypes length].
  replace (INR 5) with 5 by (cbn; lra).
  destruct (base_Int_part (r * 5)) as [Hle Hgt].
  assert (H5 : (Int_part (r * 5) < 5)%Z) by (apply lt_IZR; lra).
  assert (H0 : (-1 < Int_part (r * 5))%Z) by (apply lt_IZR; lra).
  lia.
Qed.

(** The forward move of [advance], and what it leaves alone. *)
Lemma advance_moved (group : Group) (elapsedTime delta : R)
    (o : Obstacle.t) :
  Obstacle.active o = true ->
  group (Obstacle.id o) <> None ->
  let o' := advance group elapsedTime delta o in
  Vector3.z (Obstacle.position o')
  = Vector3.z (Obstacle.position o) + Obstacle.speed o * delta * 60
  /\ Obstacle.active o'
     = negb (Rltb 20 (Vector3.z (Obstacle.position o')))
  /\ Obstacle.id o' = Obstacle.id o.
Proof.
  intros Hact Hmesh. cbn zeta. unfold advance. rewrite Hact. cbn [negb].
  destruct (group (Obstacle.id o)) as [pos|]; [|congruence].
  cbn [Obstacle.position Obstacle.active Obstacle.id].
  destruct (Obstacle.movementPattern o); cbn [Vector3.z];
    repeat split; reflexivity.
Qed.

Lemma advance_id (group : Group) (elapsedTime delta : R) (o : Obstacle.t) :
  Obstacle.id (advance group elapsedTime delta o) = Obstacle.id o.
Proof.
  unfold advance. destruct (Obstacle.active o); cbn [negb]; [|reflexivity].
  destruct (group (Obstacle.id o)); reflexivity.
Qed.

(** C7.  One frame moves an active obstacle (whose mesh is in the scene)
    forward by [speed * deltaTime * 60] along z; for a shark on the zigzag
    pattern with elapsed time 0, phase offset 0, frequency 0.5, amplitude
    1.5 and [deltaTime = 1/60], both overlays are [sin 0 = 0]: x and y keep
    their values and z grows by exactly [speed]. *)
Theorem advance_forward_progress :
  (forall (group : Group) (elapsedTime delta : R) (o : Obstacle.t),
     Obstacle.active o = true ->
     group (Obstacle.id o) <> None ->
     Vector3.z (Obstacle.position (advance group elapsedTime delta o))
     = Vector3.z (Obstacle.position o) + Obstacle.speed o * delta * 60)
  /\ (forall (group : Group) (o : Obstacle.t),
        Obstacle.active o = true ->
        group (Obstacle.id o) <> None ->
        Obstacle.type o = shark ->
        Obstacle.movementPattern o = zigzag ->
        Obstacle.animationOffset o = 0 ->
        Obstacle.frequency o = 0.5 ->
        Obstacle.amplitude o = 1.5 ->
        let o' := advance group 0 (1 / 60) o in
        sin ((0 + Obstacle.animationOffset o) * Obstacle.frequency o) = 0
        /\ sin ((0 + Obstacle.animationOffset o) * Obstacle.frequency o * 2)
           = 0
        /\ Vector3.x (Obstacle.position o') = Vector3.x (Obstacle.position o)
        /\ Vector3.y (Obstacle.position o') = Vector3.y (Obstacle.position o)
        /\ Vector3.z (Obstacle.position o')
           = Vector3.z (Obstacle.position o) + Obstacle.speed o).
Proof.
  split.
  - intros group elapsedTime delta o Hact Hmesh.
    apply (advance_moved group elapsedTime delta o Hact Hmesh).
  - intros group o Hact Hmesh Htype Hpat Hoff Hfreq Hamp o'.
    assert (Hs1 : sin ((0 + Obstacle.animationOffset o)
                       * Obstacle.frequency o) = 0).
    { rewrite Hoff, Hfreq. replace ((0 + 0) * 0.5) with 0 by lra.
      apply sin_0. }
    assert (Hs2 : sin ((0 + Obstacle.animationOffset o)
                       * Obstacle.frequency o * 2) = 0).
    { rewrite Hoff, Hfreq. replace ((0 + 0) * 0.5 * 2) with 0 by lra.
      apply sin_0. }
    split; [exact Hs1|]. split; [exact Hs2|].
    subst o'. unfold advance. rewrite Hact. cbn [negb].
    destruct (group (Obstacle.id o)) as [pos|]; [|congruence].
    rewrite Hpat, Htype. cbn [Obstacle.position Vector3.x Vector3.y Vector3.z].
    rewrite Hs1, Hs2. repeat split; field.
Qed.

End SpawnAndMotion.

(* ================================================================= *)
(** ** Culling and the life cycle of an obstacle                      *)
(* ================================================================= *)

Section Culling.

Import Obstacles ObstacleSpec.
Local Open Scope R_scope.

Lemma updateObstacles_cons (group : Group) (e d : R) (o : Obstacle.t)
    (l : list Obstacle.t) :
  updateObstacles group e d (o :: l)
  = if Obstacle.active (advance group e d o)
    then advance group e d o :: updateObstacles group e d l
    else updateObstacles group e d l.
Proof. reflexivity. Qed.

Lemma updateObstacles_app (group : Group) (e d : R)
    (l1 l2 : list Obstacle.t) :
  updateObstacles group e d (l1 ++ l2)
  = updateObstacles group e d l1 ++ updateObstacles group e d l2.
Proof.
  unfold updateObstacles. rewrite map_app, filter_app. reflexivity.
Qed.

(** The update only keeps obstacles, under their own identifiers. *)
Lemma updateObstacles_ids (group : Group) (e d : R) (l : list Obstacle.t)
    (i : nat) :
  In i (map Obstacle.id (updateObstacles group e d l)) ->
  In i (map Obstacle.id l).
Proof.
  induction l as [|o l IH]; [intros []|].
  rewrite updateObstacles_cons.
  destruct (Obstacle.active (advance group e d o)); cbn [map In].
  - rewrite advance_id. tauto.
  - tauto.
Qed.

Lemma updateObstacles_NoDup (group : Group) (e d : R) (l : list Obstacle.t) :
  NoDup (map Obstacle.id l) ->
  NoDup (map Obstacle.id (updateObstacles group e d l)).
Proof.
  induction l as [|o l IH]; intro Hnd; [constructor|].
  cbn [map] in Hnd. inversion Hnd as [|? ? Hnotin Hnd']; subst.
  rewrite updateObstacles_cons.
  destruct (Obstacle.active (advance group e d o)); [|auto].
  cbn [map]. constructor; [|auto].
  rewrite advance_id. intro Hin. apply Hnotin.
  eapply updateObstacles_ids; exact Hin.
Qed.

Lemma updateObstacles_active (group : Group) (e d : R) (l : list Obstacle.t)
    (o : Obstacle.t) :
  In o (updateObstacles group e d l) -> Obstacle.active o = true.
Proof.
  unfold updateObstacles. rewrite filter_In. tauto.
Qed.

(** An obstacle that the update moves beyond 20 is no longer held. *)
Lemma updateObstacles_culls (group : Group) (e d : R) (l : list Obstacle.t)
    (o : Obstacle.t) :
  NoDup (map Obstacle.id l) ->
  In o l ->
  Obstacle.active (advance group e d o) = false ->
  ~ In (Obstacle.id o) (map Obstacle.id (updateObstacles group e d l)).
Proof.
  induction l as [|a l IH]; intros Hnd Hin Hcull; [destruct Hin|].
  cbn [map] in Hnd. inversion Hnd as [|? ? Hnotin Hnd']; subst.
  rewrite updateObstacles_cons.
  destruct Hin as [->|Hin].
  - rewrite Hcull. intro H. apply Hnotin.
    eapply updateObstacles_ids; exact H.
  - assert (Hne : Obstacle.id a <> Obstacle.id o).
    { intro Heq. apply Hnotin. rewrite Heq. apply in_map. exact Hin. }
    destruct (Obstacle.active (advance group e d a)); cbn [map In].
    + rewrite advance_id. intros [H|H]; [contradiction|].
      exact (IH Hnd' Hin Hcull H).
    + exact (IH Hnd' Hin Hcull).
Qed.

(** An obstacle that the update does not move beyond 20 is kept. *)
Lemma updateObstacles_keeps (group : Group) (e d : R) (l : list Obstacle.t)
    (o : Obstacle.t) :
  In o l ->
  Obstacle.active (advance group e d o) = true ->
  In (advance group e d o) (updateObstacles group e d l).
Proof.
  intros Hin Hact. unfold updateObstacles. apply filter_In.
  split; [apply in_map; exact Hin|exact Hact].
Qed.

(** The obstacles and the counter after [spawnObstacle]. *)
Lemma spawnObstacle_shape (props : Props) (now : R) (rnd : nat -> R)
    (st : State) :
  spawnObstacle props now rnd st = st
  \/ exists o,
       spawnObstacle props now rnd st
       = mkState (obstacles st ++ [o]) now
           (S (obstacleCounterRef st)) (hasCollidedRef st)
       /\ Obstacle.id o = obstacleCounterRef st
       /\ Obstacle.active o = true.
Proof.
  destruct (isPlaying props) eqn:Hplay.
  - destruct (spawnObstacle_cases props now rnd st Hplay)
      as [[_ H]|[_ (o & H & Hid & Hact & _)]]; [left; exact H|].
    right. exists o. auto.
  - left. unfold spawnObstacle. rewrite Hplay. reflexivity.
Qed.

Lemma spawnObstacle_Invariant (props : Props) (now : R) (rnd : nat -> R)
    (st : State) :
  Invariant st -> Invariant (spawnObstacle props now rnd st).
Proof.
  intros [Hall Hnd].
  destruct (spawnObstacle_shape props now rnd st)
    as [->|(o & -> & Hid & Hact)]; [split; assumption|].
  unfold Invariant, ids. cbn [obstacles obstacleCounterRef]. split.
  - apply Forall_app. split.
    + eapply Forall_impl; [|exact Hall]. cbn. intros a [H1 H2]. split; [lia|auto].
    + constructor; [|constructor]. split; [lia|exact Hact].
  - rewrite map_app. cbn [map].
    apply NoDup_app; [exact Hnd|repeat constructor; intros []|].
    intros i Hi [<-|[]].
    unfold ids in Hi. apply in_map_iff in Hi as (a & Ha & Hin).
    rewrite Forall_forall in Hall. destruct (Hall a Hin) as [Hlt _]. lia.
Qed.

Lemma useFrame_Invariant (f : Frame) (st : State) :
  Invariant st -> Invariant (fst (useFrame f st)).
Proof.
  intro Hinv. unfold useFrame.
  destruct (obstaclesGroupRef f) as [group|]; [|exact Hinv].
  destruct (isPlaying (props f)); cbn [negb]; [|exact Hinv].
  destruct (checkCollisions _ _ _ _) as [collided calls]. cbn [fst].
  pose proof (spawnObstacle_Invariant (props f) (currentTime f) (random f)
                st Hinv) as [Hall Hnd].
  unfold Invariant, ids. cbn [obstacles obstacleCounterRef]. split.
  - apply Forall_forall. intros o Ho. split.
    + assert (Hi : In (Obstacle.id o)
                      (map Obstacle.id (updateObstacles group (elapsedTime f)
                         (delta f)
                         (obstacles (spawnObstacle (props f) (currentTime f)
                                       (random f) st)))))
        by (apply in_map; exact Ho).
      apply updateObstacles_ids in Hi.
      apply in_map_iff in Hi as (a & <- & Hin).
      rewrite Forall_forall in Hall. apply (Hall a Hin).
    + eapply updateObstacles_active; exact Ho.
  - apply updateObstacles_NoDup. exact Hnd.
Qed.

Lemma step_Invariant (st : State) (e : Event) :
  Invariant st -> Invariant (step st e).
Proof.
  destruct e as [f|b]; cbn [step].
  - apply useFrame_Invariant.
  - unfold resetCollisionEffect. destruct b; [|auto].
    intros [Hall Hnd]. split; assumption.
Qed.

Lemma run_Invariant (events : list Event) :
  forall st, Invariant st -> Invariant (run events st).
Proof.
  unfold run. induction events as [|e events IH]; intros st Hinv; [exact Hinv|].
  cbn [fold_left]. apply IH, step_Invariant, Hinv.
Qed.

Lemma initialState_Invariant : Invariant initialState.
Proof. split; constructor. Qed.

Lemma step_Gone (i : nat) (st : State) (e : Event) :
  Gone i st -> Gone i (step st e).
Proof.
  intros (Hinv & Hlt & Hnotin).
  split; [apply step_Invariant; exact Hinv|].
  destruct e as [f|b]; cbn [step].
  - unfold useFrame.
    destruct (obstaclesGroupRef f) as [group|]; [|split; assumption].
    destruct (isPlaying (props f)); cbn [negb]; [|split; assumption].
    destruct (checkCollisions _ _ _ _) as [collided calls]. cbn [fst].
    unfold ids. cbn [obstacles obstacleCounterRef].
    destruct (spawnObstacle_shape (props f) (currentTime f) (random f) st)
      as [->|(o & -> & Hid & Hact)]; cbn [obstacles obstacleCounterRef].
    + split; [exact Hlt|]. intro H. apply Hnotin.
      eapply updateObstacles_ids; exact H.
    + split; [lia|]. intro H. apply updateObstacles_ids in H.
      rewrite map_app in H. apply in_app_or in H as [H|[H|[]]].
      * exact (Hnotin H).
      * lia.
  - unfold resetCollisionEffect. destruct b; split; assumption.
Qed.

Lemma run_Gone (i : nat) (events : list Event) :
  forall st, Gone i st -> Gone i (run events st).
Proof.
  unfold run. induction events as [|e events IH]; intros st H; [exact H|].
  cbn [fold_left]. apply IH, step_Gone, H.
Qed.

(** C8.  In any state reached from the initial one every obstacle held is
    active.  When a frame advances such an obstacle, its [active] flag
    turns false exactly if its new z exceeds 20; it is then dropped by the
    same update and its identifier never appears among the obstacles
    again, whatever happens later; otherwise the advanced obstacle is
    kept, still active. *)
Theorem culling_is_one_way :
  forall (history : list Event) (f : Frame) (group : Group) (o : Obstacle.t),
  let st := run history initialState in
  In o (obstacles st) ->
  obstaclesGroupRef f = Some group ->
  isPlaying (props f) = true ->
  group (Obstacle.id o) <> None ->
  let o' := advance group (elapsedTime f) (delta f) o in
  let newZ :=
    Vector3.z (Obstacle.position o) + Obstacle.speed o * delta f * 60 in
  Obstacle.active o = true
  /\ Vector3.z (Obstacle.position o') = newZ
  /\ (Obstacle.active o' = false <-> 20 < newZ)
  /\ (20 < newZ ->
      forall later : list Event,
      let st' := run (FrameEvent f :: later) st in
      ~ In (Obstacle.id o) (map Obstacle.id (obstacles st'))
      /\ Forall (fun a => Obstacle.active a = true) (obstacles st'))
  /\ (newZ <= 20 ->
      In o' (obstacles (fst (useFrame f st))) /\ Obstacle.active o' = true).
Proof.
  intros history f group o st Hin Hgroup Hplay Hmesh o' newZ.
  pose proof (run_Invariant history initialState initialState_Invariant)
    as Hinv. fold st in Hinv.
  destruct Hinv as [Hall Hnd].
  assert (Hact : Obstacle.active o = true).
  { rewrite Forall_forall in Hall. apply (Hall o Hin). }
  destruct (advance_moved group (elapsedTime f) (delta f) o Hact Hmesh)
    as (Hz & Hflag & Hid).
  fold o' in Hz, Hflag, Hid. fold newZ in Hz.
  assert (Hiff : Obstacle.active o' = false <-> 20 < newZ).
  { rewrite Hflag, Hz, negb_false_iff. apply Rltb_true_iff. }
  split; [exact Hact|]. split; [exact Hz|]. split; [exact Hiff|].
  (* the obstacles after the frame *)
  assert (Hframe : exists l collided,
             In o l /\ NoDup (map Obstacle.id l)
             /\ obstacles (fst (useFrame f st))
                = updateObstacles group (elapsedTime f) (delta f) l
             /\ (Obstacle.id o < obstacleCounterRef (fst (useFrame f st)))%nat
             /\ hasCollidedRef (fst (useFrame f st)) = collided).
  { unfold useFrame. rewrite Hgroup, Hplay. cbn [negb].
    destruct (checkCollisions _ _ _ _) as [collided calls]. cbn [fst].
    cbn [obstacles obstacleCounterRef hasCollidedRef].
    pose proof (spawnObstacle_Invariant (props f) (currentTime f) (random f)
                  st (conj Hall Hnd)) as [Hall1 Hnd1].
    exists (obstacles (spawnObstacle (props f) (currentTime f) (random f) st)),
           collided.
    assert (Hin1 : In o (obstacles (spawnObstacle (props f) (currentTime f)
                                      (random f) st))).
    { destruct (spawnObstacle_shape (props f) (currentTime f) (random f) st)
        as [->|(a & -> & _)]; [exact Hin|].
      cbn [obstacles]. apply in_or_app. left. exact Hin. }
    split; [exact Hin1|]. split; [exact Hnd1|]. split; [reflexivity|].
    split; [|reflexivity].
    rewrite Forall_forall in Hall1. apply (Hall1 o Hin1). }
  destruct Hframe as (l & collided & Hinl & Hndl & Hobs & Hlt & _).
  split.
  - intros Hbeyond later st'.
    assert (Hgone : Gone (Obstacle.id o) (fst (useFrame f st))).
    { split; [apply useFrame_Invariant; split; assumption|].
      split; [exact Hlt|].
      unfold ids. rewrite Hobs.
      apply updateObstacles_culls; [exact Hndl|exact Hinl|].
      apply Hiff. exact Hbeyond. }
    pose proof (run_Gone (Obstacle.id o) later _ Hgone)
      as ([Hall' _] & _ & Hnotin).
    subst st'. unfold run in *. cbn [fold_left step].
    split; [exact Hnotin|].
    eapply Forall_impl; [|exact Hall']. cbn. tauto.
  - intros Hwithin.
    assert (Hkeep : Obstacle.active o' = true).
    { apply not_false_is_true. intro E. apply Hiff in E. lra. }
    split; [|exact Hkeep]. rewrite Hobs.
    apply updateObstacles_keeps; [exact Hinl|exact Hkeep].
Qed.

End Culling.

(* ================================================================= *)
(** ** The theorems at concrete inputs                                *)
(* ================================================================= *)

Section Instances.

Import DifficultyManager LevelTable Crossing.

(** C3 at the shipped table: the score 100 is the threshold of level 1. *)
Lemma calculateGameParameters_threshold_or_max_witness :
  wellFormed GAME_SETTINGS.DIFFICULTY_LEVELS = true
  /\ exists p,
       calculateGameParameters GAME_SETTINGS.DIFFICULTY_LEVELS 100 = Some p
       /\ GameParameters.speed p = 6%Q
       /\ GameParameters.spawnRate p = 1.8%Q
       /\ GameParameters.scoreMultiplier p = 1.0%Q
       /\ GameParameters.difficultyLevel p = 1%nat.
Proof.
  split; [reflexivity|].
  destruct (proj1 (calculateGameParameters_threshold_or_max
                     GAME_SETTINGS.DIFFICULTY_LEVELS eq_refl)
              100%Q 1%nat (DifficultyLevel.mk 100 6 1.8 None) eq_refl)
    as (p & Hp & Hv & Hr & Hm & Hl & _).
  - left. reflexivity.
  - exists p. repeat split; assumption.
Defined.

(** C4 at the shipped table: the score 50 lies between levels 0 and 1. *)
Lemma calculateGameParameters_interpolates_witness :
  wellFormed GAME_SETTINGS.DIFFICULTY_LEVELS = true
  /\ (0 < 50)%Q /\ (50 < 100)%Q
  /\ exists p,
       calculateGameParameters GAME_SETTINGS.DIFFICULTY_LEVELS 50 = Some p
       /\ GameParameters.difficultyLevel p = 0%nat
       /\ GameParameters.nextMilestone p = Some 100%Q.
Proof.
  split; [reflexivity|]. split; [reflexivity|]. split; [reflexivity|].
  destruct (proj1 calculateGameParameters_interpolates
              GAME_SETTINGS.DIFFICULTY_LEVELS eq_refl 50%Q 0%nat
              (DifficultyLevel.mk 0 5 2.0 None)
              (DifficultyLevel.mk 100 6 1.8 None)
              eq_refl eq_refl eq_refl eq_refl)
    as (p & Hp & _ & _ & _ & Hl & Hn & _).
  exists p. repeat split; assumption.
Defined.

(** C9 at the shipped table: from 20 to 70 within level 0 the speed rises
    (towards 6 from 5) and the spawn rate falls (towards 1.8 from 2.0),
    both strictly. *)
Lemma interpolation_monotone_witness :
  wellFormed GAME_SETTINGS.DIFFICULTY_LEVELS = true
  /\ (0 <= 20)%Q /\ (20 <= 70)%Q /\ (70 < 100)%Q
  /\ exists p1 p2,
       calculateGameParameters GAME_SETTINGS.DIFFICULTY_LEVELS 20 = Some p1
       /\ calculateGameParameters GAME_SETTINGS.DIFFICULTY_LEVELS 70 = Some p2
       /\ (GameParameters.speed p1 < GameParameters.speed p2)%Q
       /\ (GameParameters.spawnRate p2 < GameParameters.spawnRate p1)%Q
       /\ (GameParameters.scoreMultiplier p1
           == GameParameters.scoreMultiplier p2)%Q.
Proof.
  split; [reflexivity|].
  split; [discriminate|]. split; [discriminate|]. split; [reflexivity|].
  destruct (interpolation_monotone
              GAME_SETTINGS.DIFFICULTY_LEVELS eq_refl 0%nat
              (DifficultyLevel.mk 0 5 2.0 None)
              (DifficultyLevel.mk 100 6 1.8 None) 20%Q 70%Q
              eq_refl eq_refl)
    as (p1 & p2 & H1 & H2 & _ & _ & _ & _ & _ & _ & Hstrict & _ & _ & Hsame);
    [discriminate|discriminate|reflexivity|].
  destruct Hstrict as (Hup & _ & _ & Hdown & _); [reflexivity|].
  exists p1, p2. split; [exact H1|]. split; [exact H2|].
  split; [apply Hup; reflexivity|].
  split; [apply Hdown; reflexivity|].
  apply Hsame. reflexivity.
Defined.

(** C10 at the score 150: adding 1 to a score of 10 while playing. *)
Lemma shipped_scoreMultiplier_is_one_witness :
  exists p,
    calculateGameParameters GAME_SETTINGS.DIFFICULTY_LEVELS 150 = Some p
    /\ (GameState.score
          (GameState.setScoreWithMultiplier UI_SETTINGS.SCORE_INCREMENT
             (GameState.mkState GameState.playing 10 0 p false "Easy" 150 []))
        == 10 + GameState.Math_round UI_SETTINGS.SCORE_INCREMENT)%Q.
Proof.
  destruct (shipped_scoreMultiplier_is_one 150%Q) as (p & Hp & _ & Hset).
  exists p. split; [exact Hp|].
  apply (Hset (GameState.mkState GameState.playing 10 0 p false "Easy" 150 [])
              UI_SETTINGS.SCORE_INCREMENT eq_refl eq_refl).
Defined.

(** C5 at the shipped table: from 90, the updates to 300 and then to 301
    raise one notification, for level 2. *)
Lemma isNewDifficultyLevel_once_per_crossing_witness :
  wellFormed GAME_SETTINGS.DIFFICULTY_LEVELS = true
  /\ forallb (inDomain GAME_SETTINGS.DIFFICULTY_LEVELS)
       (GameState.previousScoreRef stateAt90 :: [300; 301]%Q) = true
  /\ exists st',
       GameState.updateDifficultyAll GAME_SETTINGS.DIFFICULTY_LEVELS
         [300; 301]%Q stateAt90 = Some st'
       /\ GameState.notifications st' = [2%nat].
Proof.
  split; [reflexivity|]. split; [reflexivity|].
  destruct (proj1 (proj2 (proj2 isNewDifficultyLevel_once_per_crossing))
              GAME_SETTINGS.DIFFICULTY_LEVELS eq_refl [300; 301]%Q stateAt90
              eq_refl)
    as (st' & Hst' & Hnot).
  exists st'. split; [exact Hst'|]. rewrite Hnot. reflexivity.
Defined.

End Instances.

Section ObstacleInstances.

Import Obstacles ObstacleSpec.
Local Open Scope R_scope.

(** C2 for a rock whose mesh is at (0,0,1.2) and the player at the origin. *)
Lemma checkCollisions_distance_test_witness :
  let group : Group := fun _ => Some (Vector3.mk 0 0 1.2) in
  let o := obstacleOf 0 rock (Vector3.mk 0 0 1.2) in
  nemoRef playingProps = Some nemoAtOrigin
  /\ isPlaying playingProps = true
  /\ Obstacle.type o = rock
  /\ Obstacle.active o = true
  /\ group (Obstacle.id o) = Some (Vector3.mk 0 0 1.2)
  /\ checkCollisions playingProps (Some group) [o] false = (true, 1%nat)
  /\ exists o' obstaclePosition,
       In o' [o]
       /\ Obstacle.active o' = true
       /\ group (Obstacle.id o') = Some obstaclePosition
       /\ Vector3.distanceTo (worldPosition nemoAtOrigin) obstaclePosition
          < 0.5 * scaleX nemoAtOrigin * GAME_SETTINGS.COLLISION_THRESHOLD
            + collisionRadius (obstacleConfigs (Obstacle.type o')).
Proof.
  intros group o.
  split; [reflexivity|]. split; [reflexivity|]. split; [reflexivity|].
  split; [reflexivity|]. split; [reflexivity|].
  destruct checkCollisions_distance_test as [Hgen (_ & _ & _ & _ & Hrock)].
  pose proof (Hrock group o eq_refl eq_refl eq_refl) as Hres.
  split; [exact Hres|].
  apply (proj1 (Hgen playingProps nemoAtOrigin group [o] eq_refl eq_refl)).
  rewrite Hres. cbn. lia.
Defined.

(** C6 at score 0 with the last spawn at 1000: nothing while not playing,
    nothing at 1500, a spawn at 3100. *)
Lemma spawnObstacle_time_gate_witness :
  let st := mkState [] 1000 0 false in
  isPlaying (mkProps 0 false None) = false
  /\ spawnObstacle (mkProps 0 false None) 3100 (fun _ => 0) st = st
  /\ isPlaying playingProps = true
  /\ 0 <= score playingProps
  /\ 2000 / (1 + score playingProps / 5000) <= 3100 - lastSpawnTimeRef st
  /\ 1500 - lastSpawnTimeRef st < 2000 / (1 + score playingProps / 5000)
  /\ spawnObstacle playingProps 1500 (fun _ => 0) st = st
  /\ exists o,
       spawnObstacle playingProps 3100 (fun _ => 0) st
       = mkState ([] ++ [o]) 3100 1 false.
Proof.
  intros st.
  destruct spawnObstacle_time_gate as (Hidle & Hgate & _).
  assert (H0 : 0 <= score playingProps) by (cbn; lra).
  assert (Hge : 2000 / (1 + score playingProps / 5000)
                <= 3100 - lastSpawnTimeRef st) by (cbn; lra).
  assert (Hlt : 1500 - lastSpawnTimeRef st
                < 2000 / (1 + score playingProps / 5000)) by (cbn; lra).
  split; [reflexivity|].
  split; [apply (Hidle (mkProps 0 false None) 3100 (fun _ => 0) st eq_refl)|].
  split; [reflexivity|]. split; [exact H0|]. split; [exact Hge|].
  split; [exact Hlt|].
  split.
  - apply (proj2 (Hgate playingProps 1500 (fun _ => 0) st eq_refl H0) Hlt).
  - destruct (proj1 (Hgate playingProps 3100 (fun _ => 0) st eq_refl H0) Hge)
      as (o & Ho & _).
    exists o. exact Ho.
Defined.

(** C7 for a shark at (1,2,-100) in a scene that holds its mesh. *)
Lemma advance_forward_progress_witness :
  let o := obstacleOf 0 shark (Vector3.mk 1 2 (-100)) in
  Obstacle.active o = true
  /\ allAtOrigin (Obstacle.id o) <> None
  /\ Obstacle.type o = shark
  /\ Obstacle.movementPattern o = zigzag
  /\ Obstacle.animationOffset o = 0
  /\ Obstacle.frequency o = 0.5
  /\ Obstacle.amplitude o = 1.5
  /\ Vector3.x (Obstacle.position (advance allAtOrigin 0 (1 / 60) o)) = 1
  /\ Vector3.y (Obstacle.position (advance allAtOrigin 0 (1 / 60) o)) = 2
  /\ Vector3.z (Obstacle.position (advance allAtOrigin 0 (1 / 60) o))
     = -100 + GAME_SETTINGS.INITIAL_SPEED
  /\ Vector3.z (Obstacle.position (advance allAtOrigin 3 0.02 o))
     = -100 + GAME_SETTINGS.INITIAL_SPEED * 0.02 * 60.
Proof.
  intros o.
  assert (Hmesh : allAtOrigin (Obstacle.id o) <> None) by discriminate.
  destruct advance_forward_progress as [Hz Hshark].
  destruct (Hshark allAtOrigin o eq_refl Hmesh eq_refl eq_refl eq_refl
              eq_refl eq_refl) as (_ & _ & Hx & Hy & Hz').
  repeat (split; [first [reflexivity | exact Hmesh]|]).
  split; [exact Hx|]. split; [exact Hy|]. split; [exact Hz'|].
  apply (Hz allAtOrigin 3 0.02 o eq_refl Hmesh).
Defined.

(** The obstacle spawned by [firstFrame] is held after that frame. *)
Lemma firstFrame_spawns :
  exists o,
    obstacles (run [FrameEvent firstFrame] initialState) = [o]
    /\ Obstacle.id o = 0%nat
    /\ Vector3.z (Obstacle.position o) = -100
    /\ Obstacle.speed o = 0.5.
Proof.
  unfold run. cbn [fold_left step]. unfold useFrame, firstFrame.
  cbn [obstaclesGroupRef props isPlaying playingProps negb currentTime random
       elapsedTime delta].
  destruct (checkCollisions _ _ _ _) as [collided calls]. cbn [fst obstacles].
  destruct (spawnObstacle_cases playingProps 5000
              (fun _ => 0) initialState eq_refl)
    as [[Hlt _]|[_ (o & Ho & Hid & Hact & Hz & Hv)]].
  - exfalso. cbn in Hlt.
    unfold GAME_SETTINGS.OBSTACLE_SPAWN_RATE, getDifficultyFactor in Hlt. lra.
  - rewrite Ho. cbn [obstacles app]. exists o.
    unfold updateObstacles. cbn [initialState obstacles app map].
    assert (Hsame : advance noMeshes 0 (1 / 60) o = o).
    { unfold advance. rewrite Hact. reflexivity. }
    rewrite Hsame. cbn [filter]. rewrite Hact.
    split; [reflexivity|]. split; [exact Hid|].
    split.
    + rewrite Hz. unfold GAME_SETTINGS.OBSTACLE_SPAWN_DISTANCE. reflexivity.
    + rewrite Hv. cbn.
      unfold GAME_SETTINGS.INITIAL_SPEED, getDifficultyFactor. lra.
Qed.

(** C8 for the obstacle spawned by [firstFrame] at z = -100 with speed
    0.5.  A frame of five seconds carries it to z = 50: its flag turns
    false, it is dropped, and it is still away after a further frame.  A
    frame of a sixtieth of a second instead carries it to z = -99.5: it is
    kept and stays active. *)
Lemma culling_is_one_way_witness :
  let st := run [FrameEvent firstFrame] initialState in
  let longFrame :=
    mkFrame playingProps (Some allAtOrigin) 5016 (fun _ => 0) 5 5 in
  exists o,
    In o (obstacles st)
    /\ obstaclesGroupRef longFrame = Some allAtOrigin
    /\ isPlaying (props longFrame) = true
    /\ allAtOrigin (Obstacle.id o) <> None
    /\ Obstacle.active o = true
    /\ Vector3.z (Obstacle.position
                    (advance allAtOrigin (elapsedTime longFrame)
                       (delta longFrame) o)) = 50
    /\ Obstacle.active (advance allAtOrigin (elapsedTime longFrame)
                          (delta longFrame) o) = false
    /\ ~ In (Obstacle.id o)
            (map Obstacle.id (obstacles (run [FrameEvent longFrame] st)))
    /\ ~ In (Obstacle.id o)
            (map Obstacle.id
               (obstacles
                  (run [FrameEvent longFrame; FrameEvent secondFrame] st)))
    /\ Forall (fun a => Obstacle.active a = true)
              (obstacles
                 (run [FrameEvent longFrame; FrameEvent secondFrame] st))
    /\ Vector3.z (Obstacle.position
                    (advance allAtOrigin (elapsedTime secondFrame)
                       (delta secondFrame) o)) = -99.5
    /\ In (advance allAtOrigin (elapsedTime secondFrame)
             (delta secondFrame) o)
          (obstacles (fst (useFrame secondFrame st)))
    /\ Obstacle.active (advance allAtOrigin (elapsedTime secondFrame)
                          (delta secondFrame) o) = true.
Proof.
  intros st longFrame.
  destruct firstFrame_spawns as (o & Hobs & Hid & Hz & Hv). fold st in Hobs.
  exists o.
  assert (Hin : In o (obstacles st)) by (rewrite Hobs; left; reflexivity).
  assert (Hmesh : allAtOrigin (Obstacle.id o) <> None) by discriminate.
  destruct (culling_is_one_way [FrameEvent firstFrame] longFrame
              allAtOrigin o Hin eq_refl eq_refl Hmesh)
    as (Hact & Hnew & Hflag & Hcull & _).
  destruct (culling_is_one_way [FrameEvent firstFrame] secondFrame
              allAtOrigin o Hin eq_refl eq_refl Hmesh)
    as (_ & Hnew' & _ & _ & Hkeep).
  assert (Hpast : 20 < Vector3.z (Obstacle.position o)
                       + Obstacle.speed o * delta longFrame * 60).
  { rewrite Hz, Hv. cbn. lra. }
  assert (Hnear : Vector3.z (Obstacle.position o)
                  + Obstacle.speed o * delta secondFrame * 60 <= 20).
  { rewrite Hz, Hv. cbn. lra. }
  split; [exact Hin|]. split; [reflexivity|]. split; [reflexivity|].
  split; [exact Hmesh|]. split; [exact Hact|].
  split; [rewrite Hnew, Hz, Hv; cbn; lra|].
  split; [apply Hflag; exact Hpast|].
  split; [exact (proj1 (Hcull Hpast []))|].
  split; [exact (proj1 (Hcull Hpast [FrameEvent secondFrame]))|].
  split; [exact (proj2 (Hcull Hpast [FrameEvent secondFrame]))|].
  split; [rewrite Hnew', Hz, Hv; cbn; lra|].
  exact (Hkeep Hnear).
Defined.

End ObstacleInstances.

(* ================================================================= *)
(** ** Further properties of the difficulty manager                   *)
(* ================================================================= *)

Section TierLemmas.

Import DifficultyManager LevelTable Crossing TableShape.
Local Open Scope Q_scope.

Lemma lerp_ge_left (a b t : Q) : a <= b -> 0 <= t -> a <= lerp a b t.
Proof.
  intros Hab Ht. unfold lerp.
  assert (0 <= t * (b - a)) by (apply Qmult_le_0_compat; Lqa.lra).
  Lqa.lra.
Qed.

Lemma lerp_le_right (a b t : Q) : a <= b -> t <= 1 -> lerp a b t <= b.
Proof.
  intros Hab Ht. unfold lerp.
  assert (0 <= (1 - t) * (b - a)) by (apply Qmult_le_0_compat; Lqa.lra).
  assert ((1 - t) * (b - a) == (b - a) - t * (b - a)) by ring.
  Lqa.lra.
Qed.

Lemma lerp_opp (a b t : Q) : lerp (- a) (- b) t == - lerp a b t.
Proof. unfold lerp. ring. Qed.

Lemma lerp_same (a t : Q) : lerp a a t == a.
Proof. unfold lerp. ring. Qed.

(** Interpolation never leaves an interval that holds both ends. *)
Lemma lerp_within (lo hi a b t : Q) :
  lo <= a <= hi -> lo <= b <= hi -> 0 <= t <= 1 ->
  lo <= lerp a b t <= hi.
Proof.
  intros Ha Hb Ht.
  destruct (Qlt_le_dec b a) as [Hba|Hab].
  - pose proof (lerp_ge_left (- a) (- b) t) as H1.
    pose proof (lerp_le_right (- a) (- b) t) as H2.
    rewrite lerp_opp in H1, H2.
    split; [|assert (- a <= - lerp a b t) by (apply H1; Lqa.lra); Lqa.lra].
    assert (- lerp a b t <= - b) by (apply H2; Lqa.lra). Lqa.lra.
  - pose proof (lerp_ge_left a b t Hab). pose proof (lerp_le_right a b t Hab).
    split; [assert (a <= lerp a b t) by (apply H; Lqa.lra)
           |assert (lerp a b t <= b) by (apply H0; Lqa.lra)]; Lqa.lra.
Qed.

Lemma progressBetween_range (cur next : DifficultyLevel.t) (s : Q) :
  DifficultyLevel.score cur <= s ->
  s < DifficultyLevel.score next ->
  0 <= progressBetween cur next s /\ progressBetween cur next s < 1.
Proof.
  intros Hlo Hhi. unfold progressBetween. split.
  - apply Qle_shift_div_l; Lqa.lra.
  - apply Qlt_shift_div_r; Lqa.lra.
Qed.

(** Where a score of the domain falls, and what is returned for it: the
    level [cur] of its index, the level [nxt] after it (or [cur] again at
    the last level), and the interpolation parameter [t]. *)
Lemma calculateGameParameters_in_tier (levels : list DifficultyLevel.t)
    (s : Q) :
  wellFormed levels = true ->
  inDomain levels s = true ->
  exists i cur nxt t p,
    getDifficultyLevelIndex levels s = i
    /\ nth_error levels i = Some cur
    /\ DifficultyLevel.score cur <= s
    /\ calculateGameParameters levels s = Some p
    /\ GameParameters.difficultyLevel p = i
    /\ ((nth_error levels (i + 1) = Some nxt
         /\ s < DifficultyLevel.score nxt
         /\ t = progressBetween cur nxt s
         /\ GameParameters.nextMilestone p = Some (DifficultyLevel.score nxt))
        \/ (i = (length levels - 1)%nat /\ nxt = cur /\ t = 0
            /\ GameParameters.nextMilestone p = None))
    /\ 0 <= t /\ t < 1
    /\ GameParameters.speed p
       == lerp (DifficultyLevel.speed cur) (DifficultyLevel.speed nxt) t
    /\ GameParameters.spawnRate p
       == lerp (DifficultyLevel.spawnRate cur)
               (DifficultyLevel.spawnRate nxt) t
    /\ GameParameters.scoreMultiplier p
       == lerp (multiplierOf cur) (multiplierOf nxt) t.
Proof.
  intros Hwf Hdom.
  destruct (getDifficultyLevelIndex_inDomain levels Hwf s Hdom)
    as (cur & Hi & Hle & Habove).
  set (i := getDifficultyLevelIndex levels s) in *.
  destruct (nth_error levels (i + 1)) as [nxt|] eqn:Hn.
  - assert (Hlt : s < DifficultyLevel.score nxt)
      by (apply (Habove (i + 1)%nat nxt); [lia|exact Hn]).
    destruct (calculateGameParameters_lerp levels i cur nxt s Hwf Hi Hn Hle Hlt)
      as (p & Hp & Hv & Hr & Hm).
    destruct (calculateGameParameters_milestone levels s p Hp) as [Hl Hnm].
    destruct (progressBetween_range cur nxt s Hle Hlt) as [Ht0 Ht1].
    exists i, cur, nxt, (progressBetween cur nxt s), p.
    repeat (split; [first [reflexivity|assumption]|]).
    split.
    { left. repeat split; try assumption.
      rewrite Hnm. apply (getNextMilestone_next levels s i nxt eq_refl Hn). }
    repeat split; assumption.
  - apply nth_error_None in Hn.
    assert (Hlen : (i < length levels)%nat)
      by (apply nth_error_Some; rewrite Hi; discriminate).
    assert (Hlast : i = (length levels - 1)%nat) by lia.
    assert (Hnone : getNextMilestone levels s = None)
      by (apply (getNextMilestone_last levels); exact Hlast).
    pose proof (calculateGameParameters_raw levels Hwf s i cur Hi eq_refl
                  (or_introl Hnone)) as Hp.
    eexists i, cur, cur, 0, _.
    repeat (split; [first [reflexivity|eassumption]|]).
    split.
    { right. cbn. repeat split; assumption. }
    cbn. split; [Lqa.lra|]. split; [Lqa.lra|].
    rewrite !lerp_same. repeat split; reflexivity.
Qed.

(** A relation between adjacent levels, if reflexive and transitive, holds
    between any level and any later one. *)
Lemma adjacent_nth (rel : DifficultyLevel.t -> DifficultyLevel.t -> bool)
    (P : DifficultyLevel.t -> DifficultyLevel.t -> Prop) :
  (forall a, P a a) ->
  (forall a b c, P a b -> P b c -> P a c) ->
  (forall a b, rel a b = true -> P a b) ->
  forall levels, adjacent rel levels = true ->
  forall i j a b, (i <= j)%nat ->
  nth_error levels i = Some a -> nth_error levels j = Some b -> P a b.
Proof.
  intros Hrefl Htrans Hrel.
  assert (Hhead : forall ls a, adjacent rel (a :: ls) = true ->
                  forall j b, nth_error (a :: ls) j = Some b -> P a b).
  { induction ls as [|c ls IH]; intros a Hadj j b Hj.
    - destruct j as [|[|j]]; cbn in Hj; try discriminate.
      injection Hj as <-. apply Hrefl.
    - cbn [adjacent] in Hadj. apply andb_true_iff in Hadj as [Hac Hrest].
      destruct j as [|j]; cbn in Hj.
      + injection Hj as <-. apply Hrefl.
      + eapply Htrans; [apply Hrel; exact Hac|].
        apply (IH c Hrest j b). exact Hj. }
  induction levels as [|c ls IH]; intros Hadj i j a b Hij Hi Hj.
  - destruct i; discriminate.
  - destruct i as [|i].
    + cbn in Hi. injection Hi as <-. apply (Hhead ls c Hadj j b Hj).
    + destruct j as [|j]; [lia|]. cbn in Hi, Hj.
      apply (IH (proj2 (proj1 (andb_true_iff _ _)
                         (match ls as l return
                            adjacent rel (c :: l) = true ->
                            true && adjacent rel l = true
                          with
                          | [] => fun _ => eq_refl
                          | d :: r => fun H =>
                              proj2 (proj1 (andb_true_iff _ _) H)
                          end Hadj))) i j a b); [lia|exact Hi|exact Hj].
Qed.

(** The index never decreases when the score grows. *)
Lemma getDifficultyLevelIndex_mono (levels : list DifficultyLevel.t)
    (s1 s2 : Q) :
  wellFormed levels = true ->
  s1 <= s2 ->
  (getDifficultyLevelIndex levels s1 <= getDifficultyLevelIndex levels s2)%nat.
Proof.
  intros Hwf H12.
  destruct (getDifficultyLevelIndex_spec levels s1)
    as [(l1 & Hi1 & Hle1 & _)|[H0 _]]; [|lia].
  destruct (getDifficultyLevelIndex_spec levels s2)
    as [(l2 & Hi2 & Hle2 & Habove2)|[_ Hnone]].
  - destruct (Nat.le_gt_cases (getDifficultyLevelIndex levels s1)
                              (getDifficultyLevelIndex levels s2))
      as [H|H]; [exact H|].
    exfalso. pose proof (Habove2 _ l1 H Hi1). Lqa.lra.
  - exfalso. pose proof (Hnone l1 (nth_error_In _ _ Hi1)). Lqa.lra.
Qed.

Lemma inDomain_le (levels : list DifficultyLevel.t) (s1 s2 : Q) :
  inDomain levels s1 = true -> s1 <= s2 -> inDomain levels s2 = true.
Proof.
  destruct levels as [|first rest]; [reflexivity|]. cbn.
  rewrite !Qle_bool_iff. intros. Lqa.lra.
Qed.

End TierLemmas.

Section TierTheorems.

Import DifficultyManager LevelTable Crossing TableShape.
Local Open Scope Q_scope.

(** X1.  On a well-formed table and for a score not below the first
    threshold, [getDifficultyLevelIndex] is a valid index, the threshold of
    its level is at most the score, and no level with a threshold at most
    the score has a larger index. *)
Theorem getDifficultyLevelIndex_greatest :
  forall (levels : list DifficultyLevel.t) (s : Q),
  wellFormed levels = true ->
  inDomain levels s = true ->
  exists level,
    nth_error levels (getDifficultyLevelIndex levels s) = Some level
    /\ DifficultyLevel.score level <= s
    /\ forall j l, nth_error levels j = Some l ->
                   DifficultyLevel.score l <= s ->
                   (j <= getDifficultyLevelIndex levels s)%nat.
Proof.
  intros levels s Hwf Hdom.
  destruct (getDifficultyLevelIndex_inDomain levels Hwf s Hdom)
    as (level & Hi & Hle & Habove).
  exists level. split; [exact Hi|]. split; [exact Hle|].
  intros j l Hj Hl.
  destruct (Nat.le_gt_cases j (getDifficultyLevelIndex levels s)) as [H|H];
    [exact H|].
  exfalso. pose proof (Habove j l H Hj). Lqa.lra.
Qed.

(** X2.  On a well-formed table the level index never decreases when the
    score grows, whatever the two scores. *)
Theorem getDifficultyLevelIndex_monotone :
  forall (levels : list DifficultyLevel.t) (s1 s2 : Q),
  wellFormed levels = true ->
  s1 <= s2 ->
  (getDifficultyLevelIndex levels s1 <= getDifficultyLevelIndex levels s2)%nat.
Proof.
  intros levels s1 s2 Hwf H12.
  apply getDifficultyLevelIndex_mono; assumption.
Qed.

(** X3.  On a well-formed table and for a score of the domain,
    [getNextMilestone] returns the least threshold strictly above the
    score, and [null] exactly when no threshold is above it. *)
Theorem getNextMilestone_least_above :
  forall (levels : list DifficultyLevel.t) (s : Q),
  wellFormed levels = true ->
  inDomain levels s = true ->
  match getNextMilestone levels s with
  | Some m =>
      s < m
      /\ (exists l, In l levels /\ DifficultyLevel.score l = m)
      /\ forall l, In l levels -> s < DifficultyLevel.score l ->
                   m <= DifficultyLevel.score l
  | None => forall l, In l levels -> DifficultyLevel.score l <= s
  end.
Proof.
  intros levels s Hwf Hdom.
  destruct (getDifficultyLevelIndex_inDomain levels Hwf s Hdom)
    as (cur & Hi & Hle & Habove).
  set (i := getDifficultyLevelIndex levels s) in *.
  destruct (nth_error levels (i + 1)) as [nxt|] eqn:Hn.
  - rewrite (getNextMilestone_next levels s i nxt eq_refl Hn).
    split; [apply (Habove (i + 1)%nat nxt); [lia|exact Hn]|].
    split; [exists nxt; split; [eapply nth_error_In; exact Hn|reflexivity]|].
    intros l Hin Hl. destruct (In_nth_error _ _ Hin) as [j Hj].
    assert (Hij : (i + 1 <= j)%nat).
    { destruct (Nat.le_gt_cases (i + 1) j) as [H|H]; [exact H|].
      exfalso. assert (Hji : (j <= i)%nat) by lia.
      pose proof (ascending_nth_le levels Hwf j i l cur Hji Hj Hi).
      Lqa.lra. }
    apply (ascending_nth_le levels Hwf (i + 1) j nxt l Hij Hn Hj).
  - apply nth_error_None in Hn.
    assert (Hlen : (i < length levels)%nat)
      by (apply nth_error_Some; rewrite Hi; discriminate).
    rewrite (getNextMilestone_last levels s); [|fold i; lia].
    intros l Hin. destruct (In_nth_error _ _ Hin) as [j Hj].
    assert (Hjlen : (j < length levels)%nat)
      by (apply nth_error_Some; rewrite Hj; discriminate).
    assert (Hji : (j <= i)%nat) by lia.
    pose proof (ascending_nth_le levels Hwf j i l cur Hji Hj Hi).
    Lqa.lra.
Qed.

(** X4.  On a well-formed table and for a score of the domain, the speed
    and the spawn rate returned never leave the range the levels of the
    table span: interpolation does not overshoot. *)
Theorem calculateGameParameters_within_table_range :
  forall (levels : list DifficultyLevel.t) (s vlo vhi rlo rhi : Q),
  wellFormed levels = true ->
  inDomain levels s = true ->
  within DifficultyLevel.speed vlo vhi levels = true ->
  within DifficultyLevel.spawnRate rlo rhi levels = true ->
  exists p,
    calculateGameParameters levels s = Some p
    /\ vlo <= GameParameters.speed p <= vhi
    /\ rlo <= GameParameters.spawnRate p <= rhi.
Proof.
  intros levels s vlo vhi rlo rhi Hwf Hdom Hv Hr.
  destruct (calculateGameParameters_in_tier levels s Hwf Hdom)
    as (i & cur & nxt & t & p & _ & Hi & _ & Hp & _ & Hcase & Ht0 & Ht1
        & Hsp & Hra & _).
  assert (Hin_cur : In cur levels) by (eapply nth_error_In; exact Hi).
  assert (Hin_nxt : In nxt levels).
  { destruct Hcase as [(Hn & _)|(_ & -> & _)];
      [eapply nth_error_In; exact Hn|exact Hin_cur]. }
  unfold within in Hv, Hr. rewrite forallb_forall in Hv, Hr.
  assert (Hb : forall (f : DifficultyLevel.t -> Q) lo hi l,
             Qle_bool lo (f l) && Qle_bool (f l) hi = true ->
             lo <= f l <= hi).
  { intros f lo hi l H. apply andb_true_iff in H as [H1 H2].
    apply Qle_bool_iff in H1, H2. split; assumption. }
  exists p. split; [exact Hp|].
  rewrite Hsp, Hra. split.
  - apply lerp_within;
      [apply (Hb DifficultyLevel.speed), Hv, Hin_cur
      |apply (Hb DifficultyLevel.speed), Hv, Hin_nxt
      |split; Lqa.lra].
  - apply lerp_within;
      [apply (Hb DifficultyLevel.spawnRate), Hr, Hin_cur
      |apply (Hb DifficultyLevel.spawnRate), Hr, Hin_nxt
      |split; Lqa.lra].
Qed.

End TierTheorems.

Section CurveShape.

Import DifficultyManager LevelTable Crossing TableShape.
Local Open Scope Q_scope.

(** Two scores in order, each with the tier it falls in: a quantity that
    does not decrease along the table does not decrease from the first
    interpolated value to the second. *)
Lemma tier_values_ordered (levels : list DifficultyLevel.t)
    (f : DifficultyLevel.t -> Q) :
  wellFormed levels = true ->
  (forall i j a b, (i <= j)%nat ->
     nth_error levels i = Some a -> nth_error levels j = Some b ->
     f a <= f b) ->
  forall (s1 s2 : Q) (i1 i2 : nat) (cur1 nxt1 cur2 nxt2 : DifficultyLevel.t)
         (t1 t2 : Q),
  s1 <= s2 -> (i1 <= i2)%nat ->
  nth_error levels i1 = Some cur1 -> nth_error levels i2 = Some cur2 ->
  DifficultyLevel.score cur1 <= s1 ->
  ((nth_error levels (i1 + 1) = Some nxt1
    /\ s1 < DifficultyLevel.score nxt1 /\ t1 = progressBetween cur1 nxt1 s1)
   \/ (i1 = (length levels - 1)%nat /\ nxt1 = cur1 /\ t1 = 0)) ->
  ((nth_error levels (i2 + 1) = Some nxt2
    /\ s2 < DifficultyLevel.score nxt2 /\ t2 = progressBetween cur2 nxt2 s2)
   \/ (i2 = (length levels - 1)%nat /\ nxt2 = cur2 /\ t2 = 0)) ->
  0 <= t1 -> t1 < 1 -> 0 <= t2 -> t2 < 1 ->
  lerp (f cur1) (f nxt1) t1 <= lerp (f cur2) (f nxt2) t2.
Proof.
  intros Hwf Hmono s1 s2 i1 i2 cur1 nxt1 cur2 nxt2 t1 t2 H12 Hi12 Hc1 Hc2
         Hle1 Hcase1 Hcase2 Ht1 Ht1' Ht2 Ht2'.
  assert (Hlen2 : (i2 < length levels)%nat)
    by (apply nth_error_Some; rewrite Hc2; discriminate).
  assert (Hf2 : f cur2 <= f nxt2).
  { destruct Hcase2 as [(Hn2 & _)|(_ & -> & _)]; [|apply Qle_refl].
    apply (Hmono i2 (i2 + 1)%nat); [lia|exact Hc2|exact Hn2]. }
  destruct (Nat.eq_dec i1 i2) as [Heq|Hne].
  - subst i2. rewrite Hc1 in Hc2. injection Hc2 as <-.
    destruct Hcase1 as [(Hn1 & Hs1 & ->)|(Hl1 & -> & ->)];
      destruct Hcase2 as [(Hn2 & Hs2 & ->)|(Hl2 & -> & ->)].
    + rewrite Hn1 in Hn2. injection Hn2 as <-.
      apply lerp_increasing.
      * apply (Hmono i1 (i1 + 1)%nat); [lia|exact Hc1|exact Hn1].
      * apply progressBetween_mono; [Lqa.lra|exact H12].
    + assert ((i1 + 1 < length levels)%nat)
        by (apply nth_error_Some; rewrite Hn1; discriminate). lia.
    + assert ((i1 + 1 < length levels)%nat)
        by (apply nth_error_Some; rewrite Hn2; discriminate). lia.
    + apply Qle_refl.
  - destruct Hcase1 as [(Hn1 & Hs1 & Ht)|(Hl1 & _)]; [|lia].
    apply Qle_trans with (f nxt1).
    + apply lerp_le_right; [|Lqa.lra].
      apply (Hmono i1 (i1 + 1)%nat); [lia|exact Hc1|exact Hn1].
    + apply Qle_trans with (f cur2).
      * apply (Hmono (i1 + 1)%nat i2); [lia|exact Hn1|exact Hc2].
      * apply lerp_ge_left; [exact Hf2|exact Ht2].
Qed.

(** X5.  On a well-formed table whose speeds never decrease and whose
    spawn rates never increase from one level to the next, a higher score
    (from the first threshold on) never yields a lower speed nor a higher
    spawn rate, also across level boundaries. *)
Theorem parameters_monotone_in_score :
  forall (levels : list DifficultyLevel.t) (s1 s2 : Q),
  wellFormed levels = true ->
  speedsAscend levels = true ->
  spawnRatesDescend levels = true ->
  inDomain levels s1 = true ->
  s1 <= s2 ->
  exists p1 p2,
    calculateGameParameters levels s1 = Some p1
    /\ calculateGameParameters levels s2 = Some p2
    /\ GameParameters.speed p1 <= GameParameters.speed p2
    /\ GameParameters.spawnRate p2 <= GameParameters.spawnRate p1.
Proof.
  intros levels s1 s2 Hwf Hup Hdown Hdom1 H12.
  pose proof (inDomain_le levels s1 s2 Hdom1 H12) as Hdom2.
  destruct (calculateGameParameters_in_tier levels s1 Hwf Hdom1)
    as (i1 & cur1 & nxt1 & t1 & p1 & Hidx1 & Hc1 & Hle1 & Hp1 & _ & Hcase1
        & Ht1 & Ht1' & Hsp1 & Hra1 & _).
  destruct (calculateGameParameters_in_tier levels s2 Hwf Hdom2)
    as (i2 & cur2 & nxt2 & t2 & p2 & Hidx2 & Hc2 & Hle2 & Hp2 & _ & Hcase2
        & Ht2 & Ht2' & Hsp2 & Hra2 & _).
  assert (Hi12 : (i1 <= i2)%nat).
  { rewrite <- Hidx1, <- Hidx2.
    apply getDifficultyLevelIndex_mono; assumption. }
  assert (Hc1' : (nth_error levels (i1 + 1) = Some nxt1
                  /\ s1 < DifficultyLevel.score nxt1
                  /\ t1 = progressBetween cur1 nxt1 s1)
                 \/ (i1 = (length levels - 1)%nat /\ nxt1 = cur1 /\ t1 = 0))
    by (destruct Hcase1 as [(A & B & C & _)|(A & B & C & _)]; auto).
  assert (Hc2' : (nth_error levels (i2 + 1) = Some nxt2
                  /\ s2 < DifficultyLevel.score nxt2
                  /\ t2 = progressBetween cur2 nxt2 s2)
                 \/ (i2 = (length levels - 1)%nat /\ nxt2 = cur2 /\ t2 = 0))
    by (destruct Hcase2 as [(A & B & C & _)|(A & B & C & _)]; auto).
  assert (Hspeed : forall i j a b, (i <= j)%nat ->
            nth_error levels i = Some a -> nth_error levels j = Some b ->
            DifficultyLevel.speed a <= DifficultyLevel.speed b).
  { apply (adjacent_nth
             (fun a b => Qle_bool (DifficultyLevel.speed a)
                                  (DifficultyLevel.speed b))
             (fun a b => DifficultyLevel.speed a <= DifficultyLevel.speed b));
      [intro; apply Qle_refl
      |intros a b c; apply Qle_trans
      |intros a b H; apply Qle_bool_iff; exact H
      |exact Hup]. }
  assert (Hrate : forall i j a b, (i <= j)%nat ->
            nth_error levels i = Some a -> nth_error levels j = Some b ->
            - DifficultyLevel.spawnRate a <= - DifficultyLevel.spawnRate b).
  { intros i j a b Hij Ha Hb.
    assert (DifficultyLevel.spawnRate b <= DifficultyLevel.spawnRate a).
    { apply (adjacent_nth
               (fun a b => Qle_bool (DifficultyLevel.spawnRate b)
                                    (DifficultyLevel.spawnRate a))
               (fun a b => DifficultyLevel.spawnRate b
                           <= DifficultyLevel.spawnRate a))
        with (levels := levels) (i := i) (j := j);
        [intro; apply Qle_refl
        |intros x y z Hxy Hyz; eapply Qle_trans; eassumption
        |intros x y H; apply Qle_bool_iff; exact H
        |exact Hdown|exact Hij|exact Ha|exact Hb]. }
    Lqa.lra. }
  exists p1, p2. split; [exact Hp1|]. split; [exact Hp2|].
  rewrite Hsp1, Hsp2, Hra1, Hra2. split.
  - apply (tier_values_ordered levels DifficultyLevel.speed Hwf Hspeed) with
      (s1 := s1) (s2 := s2) (i1 := i1) (i2 := i2); assumption.
  - assert (H : lerp (- DifficultyLevel.spawnRate cur1)
                     (- DifficultyLevel.spawnRate nxt1) t1
                <= lerp (- DifficultyLevel.spawnRate cur2)
                        (- DifficultyLevel.spawnRate nxt2) t2).
    { apply (tier_values_ordered levels
               (fun l => - DifficultyLevel.spawnRate l) Hwf Hrate) with
        (s1 := s1) (s2 := s2) (i1 := i1) (i2 := i2); assumption. }
    rewrite !lerp_opp in H. Lqa.lra.
Qed.

(** X6.  A score below the first threshold of a well-formed table with at
    least two levels is not clamped: it gets level 0 and the line through
    the first two levels continued backwards, so with a rising speed the
    speed returned is below that of the first level. *)
Theorem negative_scores_extrapolate :
  forall (levels : list DifficultyLevel.t) (first second : DifficultyLevel.t)
         (s : Q),
  wellFormed levels = true ->
  nth_error levels 0 = Some first ->
  nth_error levels 1 = Some second ->
  s < DifficultyLevel.score first ->
  exists p,
    calculateGameParameters levels s = Some p
    /\ GameParameters.difficultyLevel p = 0%nat
    /\ GameParameters.nextMilestone p = Some (DifficultyLevel.score second)
    /\ progressBetween first second s < 0
    /\ GameParameters.speed p
       == lerp (DifficultyLevel.speed first) (DifficultyLevel.speed second)
               (progressBetween first second s)
    /\ GameParameters.spawnRate p
       == lerp (DifficultyLevel.spawnRate first)
               (DifficultyLevel.spawnRate second)
               (progressBetween first second s)
    /\ (DifficultyLevel.speed first < DifficultyLevel.speed second ->
        GameParameters.speed p < DifficultyLevel.speed first).
Proof.
  intros levels first second s Hwf H0 H1 Hs.
  assert (Hasc : DifficultyLevel.score first < DifficultyLevel.score second).
  { apply (ascending_nth levels (wellFormed_ascending levels Hwf) 0 1);
      [lia|exact H0|exact H1]. }
  assert (Hidx : getDifficultyLevelIndex levels s = 0%nat).
  { destruct (getDifficultyLevelIndex_spec levels s)
      as [(l & Hi & Hle & _)|[Hz _]]; [|exact Hz].
    exfalso.
    pose proof (ascending_nth_le levels Hwf 0
                  (getDifficultyLevelIndex levels s) first l
                  (Nat.le_0_l _) H0 Hi).
    Lqa.lra. }
  assert (Hneg : progressBetween first second s < 0).
  { unfold progressBetween, Qdiv.
    assert (0 < / (DifficultyLevel.score second - DifficultyLevel.score first))
      by (apply Qinv_lt_0_compat; Lqa.lra).
    assert (0 < (DifficultyLevel.score first - s)
                * / (DifficultyLevel.score second - DifficultyLevel.score first))
      by (apply Qmult_lt_0_compat; [Lqa.lra|assumption]).
    assert ((s - DifficultyLevel.score first)
            * / (DifficultyLevel.score second - DifficultyLevel.score first)
            == - ((DifficultyLevel.score first - s)
                  * / (DifficultyLevel.score second
                       - DifficultyLevel.score first))) by ring.
    Lqa.lra. }
  assert (Hcalc :
    calculateGameParameters levels s =
    Some (GameParameters.mk
            (lerp (DifficultyLevel.speed first) (DifficultyLevel.speed second)
                  (progressBetween first second s))
            (lerp (DifficultyLevel.spawnRate first)
                  (DifficultyLevel.spawnRate second)
                  (progressBetween first second s))
            (lerp (multiplierOf first) (multiplierOf second)
                  (progressBetween first second s))
            0%nat (Some (DifficultyLevel.score second)))).
  { unfold calculateGameParameters.
    rewrite Hidx, H0. cbn [Nat.add]. rewrite H1.
    rewrite (getNextMilestone_next levels s 0 second Hidx H1).
    rewrite (wellFormed_multiplier levels Hwf 0 first H0),
            (wellFormed_multiplier levels Hwf 1 second H1).
    destruct (Qeq_bool s (DifficultyLevel.score first)) eqn:E.
    - apply Qeq_bool_iff in E. rewrite E in Hs.
      exfalso. exact (Qlt_irrefl _ Hs).
    - reflexivity. }
  eexists. split; [exact Hcalc|]. cbn.
  repeat (split; [first [reflexivity|exact Hneg]|]).
  intro Hrise. unfold lerp.
  assert (0 < (- progressBetween first second s)
              * (DifficultyLevel.speed second - DifficultyLevel.speed first))
    by (apply Qmult_lt_0_compat; Lqa.lra).
  assert ((- progressBetween first second s)
          * (DifficultyLevel.speed second - DifficultyLevel.speed first)
          == - (progressBetween first second s
                * (DifficultyLevel.speed second - DifficultyLevel.speed first)))
    by ring.
  Lqa.lra.
Qed.

(** X7.  [calculateGameParameters] fails (the JavaScript throws) exactly
    when the table has no level; the index and the milestone are then 0 and
    [null]. *)
Theorem calculateGameParameters_throws_iff_empty :
  forall (levels : list DifficultyLevel.t) (s : Q),
  (calculateGameParameters levels s = None <-> levels = [])
  /\ getDifficultyLevelIndex [] s = 0%nat
  /\ getNextMilestone [] s = None.
Proof.
  intros levels s. split; [|split; reflexivity].
  split.
  - intro Hnone. destruct levels as [|l ls]; [reflexivity|].
    destruct (calculateGameParameters_total (l :: ls) s) as [p Hp];
      [discriminate|congruence].
  - intros ->. reflexivity.
Qed.

(** X8.  [getDifficultyName] always returns one of the six labels, returns
    the last one for every index from 5 on, and gives different labels to
    different indices below 6; so with the shipped table two scores have
    the same label only if they have the same level. *)
Theorem getDifficultyName_labels :
  (forall i : nat, In (getDifficultyName i) difficultyNames)
  /\ (forall i : nat, (5 <= i)%nat -> getDifficultyName i = "Master"%string)
  /\ (forall i j : nat, (i < 6)%nat -> (j < 6)%nat ->
        getDifficultyName i = getDifficultyName j -> i = j)
  /\ (forall s1 s2 : Q,
        getDifficultyName
          (getDifficultyLevelIndex GAME_SETTINGS.DIFFICULTY_LEVELS s1)
        = getDifficultyName
            (getDifficultyLevelIndex GAME_SETTINGS.DIFFICULTY_LEVELS s2) ->
        getDifficultyLevelIndex GAME_SETTINGS.DIFFICULTY_LEVELS s1
        = getDifficultyLevelIndex GAME_SETTINGS.DIFFICULTY_LEVELS s2).
Proof.
  assert (Hclamp : forall i, (5 <= i)%nat ->
                   getDifficultyName i = "Master"%string).
  { intros i Hi. unfold getDifficultyName. cbn [length difficultyNames].
    replace (Nat.min i (6 - 1)) with 5%nat by lia. reflexivity. }
  assert (Hinj : forall i j, (i < 6)%nat -> (j < 6)%nat ->
                 getDifficultyName i = getDifficultyName j -> i = j).
  { intros i j Hi Hj.
    do 6 (destruct i as [|i]; [
      do 6 (destruct j as [|j]; [cbn; intro H; first [reflexivity|discriminate H]|]);
      lia|]).
    lia. }
  split; [|split; [exact Hclamp|split; [exact Hinj|]]].
  - intro i. destruct (Nat.le_gt_cases 5 i) as [H|H].
    + rewrite (Hclamp i H). cbn. tauto.
    + do 5 (destruct i as [|i]; [cbn; tauto|]). lia.
  - intros s1 s2. apply Hinj;
      apply (getDifficultyLevelIndex_lt GAME_SETTINGS.DIFFICULTY_LEVELS eq_refl).
Qed.

End CurveShape.

(* ================================================================= *)
(** ** Properties of the game-state context and of the HUD            *)
(* ================================================================= *)

Section SessionLemmas.

Import DifficultyManager LevelTable Crossing TableShape GameState GameSession.
Local Open Scope Q_scope.

Lemma startsAtZero_first (levels : list DifficultyLevel.t) :
  startsAtZero levels = true ->
  exists first, nth_error levels 0 = Some first
                /\ DifficultyLevel.score first == 0.
Proof.
  destruct levels as [|first rest]; [discriminate|]. cbn. intro H.
  exists first. split; [reflexivity|]. apply Qeq_bool_iff. exact H.
Qed.

Lemma startsAtZero_inDomain (levels : list DifficultyLevel.t) (s : Q) :
  startsAtZero levels = true -> 0 <= s -> inDomain levels s = true.
Proof.
  destruct levels as [|first rest]; [discriminate|]. cbn. intros H Hs.
  apply Qeq_bool_iff in H. apply Qle_bool_iff. rewrite H. exact Hs.
Qed.

Lemma Math_round_nonneg (x : Q) : 0 <= x -> 0 <= Math_round x.
Proof.
  intro Hx. unfold Math_round.
  assert (H : (Qfloor (inject_Z 0) <= Qfloor (x + 0.5))%Z)
    by (apply Qfloor_resp_le; change (inject_Z 0) with 0; Lqa.lra).
  rewrite Qfloor_Z in H. rewrite Zle_Qle in H. exact H.
Qed.

Lemma updateDifficulty_frame (levels : list DifficultyLevel.t) (s : Q)
    (st st' : State) :
  updateDifficulty levels s st = Some st' ->
  gameStatus st' = gameStatus st /\ score st' = score st
  /\ highScore st' = highScore st
  /\ calculateGameParameters levels s = Some (gameParameters st').
Proof.
  unfold updateDifficulty.
  destruct (calculateGameParameters levels s) as [p|]; [|discriminate].
  intros [= <-]. cbn. repeat split; reflexivity.
Qed.

Lemma act_keeps (levels : list DifficultyLevel.t) (st : State) (a : Action) :
  levels <> [] ->
  Forall (fun l => DifficultyLevel.scoreMultiplier l = None) levels ->
  0 <= baseOf a ->
  sessionInvariant st ->
  exists st', act levels st a = Some st'
              /\ sessionInvariant st' /\ highScore st <= highScore st'.
Proof.
  intros Hne Hnomult Hbase (Hs0 & [z Hz] & Hm).
  assert (Hinv0 : sessionInvariant st) by (repeat split; [|exists z|]; assumption).
  assert (Hupd : forall s st0, sessionInvariant st0 ->
            exists st', updateDifficulty levels s st0 = Some st'
                        /\ sessionInvariant st'
                        /\ highScore st' = highScore st0
                        /\ gameStatus st' = gameStatus st0).
  { intros s st0 (H0 & Hint & _).
    destruct (calculateGameParameters_total levels s Hne) as [p Hp].
    destruct (updateDifficulty levels s st0) as [st'|] eqn:E.
    - destruct (updateDifficulty_frame levels s st0 st' E) as (Hg & Hsc & Hh & Hpar).
      exists st'. split; [reflexivity|]. split; [|split; assumption].
      unfold sessionInvariant. rewrite Hsc. split; [exact H0|].
      split; [exact Hint|].
      apply (calculateGameParameters_no_multiplier levels s _ Hnomult Hpar).
    - unfold updateDifficulty in E. rewrite Hp in E. discriminate. }
  assert (Hstart : exists st', startGame levels st = Some st'
                     /\ sessionInvariant st' /\ highScore st <= highScore st').
  { unfold startGame.
    destruct (Hupd 0 (mkState (gameStatus st) 0 (highScore st)
                        (gameParameters st) (showDifficultyNotification st)
                        (difficultyName st) 0 (notifications st)))
      as (st1 & -> & Hinv1 & Hh1 & _).
    { repeat split; cbn; [Lqa.lra|exists 0%Z; reflexivity|exact Hm]. }
    eexists. split; [reflexivity|]. split.
    - destruct Hinv1 as (A & B & C). repeat split; cbn; assumption.
    - cbn. rewrite Hh1. cbn. apply Qle_refl. }
  assert (Hsame : forall g, sessionInvariant (setGameStatus g st)
                            /\ highScore st <= highScore (setGameStatus g st)).
  { intro g. split; [exact Hinv0|cbn; apply Qle_refl]. }
  assert (Hcoll : sessionInvariant (handleCollision st)
                  /\ highScore st <= highScore (handleCollision st)).
  { split; [exact Hinv0|]. cbn.
    destruct (Qltb (highScore st) (score st)) eqn:E; [|apply Qle_refl].
    apply Qltb_lt in E. Lqa.lra. }
  destruct a as [code| | | | | |base| |]; cbn [act].
  - destruct code; cbn [handleKeyDown].
    + destruct (gameStatus st) eqn:Eg;
        [exact Hstart| | |];
        (eexists; split; [reflexivity|apply Hsame]).
    + destruct (gameStatus st) eqn:Eg;
        [exists st; split; [reflexivity|split; [exact Hinv0|apply Qle_refl]]
        | | |];
        (eexists; split; [reflexivity|apply Hsame]).
    + exists st. split; [reflexivity|split; [exact Hinv0|apply Qle_refl]].
  - exact Hstart.
  - eexists. split; [reflexivity|exact Hcoll].
  - eexists. split; [reflexivity|exact Hcoll].
  - eexists. split; [reflexivity|apply Hsame].
  - eexists. split; [reflexivity|apply Hsame].
  - eexists. split; [reflexivity|].
    unfold setScoreWithMultiplier.
    destruct (isPlaying st); [|split; [exact Hinv0|apply Qle_refl]].
    split; [|cbn; apply Qle_refl].
    cbn [baseOf] in Hbase.
    assert (Hb : base * GameParameters.scoreMultiplier (gameParameters st)
                 == base) by (rewrite Hm; ring).
    unfold sessionInvariant. cbn [score gameParameters].
    split; [|split; [|exact Hm]].
    + pose proof (Math_round_nonneg
                    (base * GameParameters.scoreMultiplier (gameParameters st))).
      assert (0 <= base * GameParameters.scoreMultiplier (gameParameters st))
        by (rewrite Hb; exact Hbase).
      Lqa.lra.
    + exists (z + Qfloor (base
                          * GameParameters.scoreMultiplier (gameParameters st)
                          + 0.5))%Z.
      unfold Math_round. rewrite inject_Z_plus, Hz. reflexivity.
  - unfold scoreEffect. destruct (isPlaying st).
    + destruct (Hupd (score st) st Hinv0) as (st' & -> & Hinv' & Hh & _).
      exists st'. split; [reflexivity|]. split; [exact Hinv'|].
      rewrite Hh. apply Qle_refl.
    + exists st. split; [reflexivity|split; [exact Hinv0|apply Qle_refl]].
  - eexists. split; [reflexivity|]. split; [exact Hinv0|cbn; apply Qle_refl].
Qed.

End SessionLemmas.

Section SessionTheorems.

Import DifficultyManager LevelTable Crossing TableShape GameState GameSession.
Local Open Scope Q_scope.

(** X9.  On a well-formed table that starts at threshold zero,
    [startGame] always succeeds: the status becomes playing, the score and
    the recorded previous score become 0, the parameters become the first
    level's own values with level 0, the high score is kept and no
    notification is raised.  The difficulty label is left as it was: a new
    game shows the label of the previous one until the next crossing. *)
Theorem startGame_resets :
  forall (levels : list DifficultyLevel.t) (first : DifficultyLevel.t)
         (st : State),
  wellFormed levels = true ->
  startsAtZero levels = true ->
  nth_error levels 0 = Some first ->
  exists st',
    startGame levels st = Some st'
    /\ gameStatus st' = playing
    /\ score st' = 0
    /\ previousScoreRef st' = 0
    /\ highScore st' = highScore st
    /\ notifications st' = notifications st
    /\ showDifficultyNotification st' = showDifficultyNotification st
    /\ difficultyName st' = difficultyName st
    /\ GameParameters.speed (gameParameters st') = DifficultyLevel.speed first
    /\ GameParameters.spawnRate (gameParameters st')
       = DifficultyLevel.spawnRate first
    /\ GameParameters.scoreMultiplier (gameParameters st') = multiplierOf first
    /\ GameParameters.difficultyLevel (gameParameters st') = 0%nat.
Proof.
  intros levels first st Hwf Hzero Hfirst.
  destruct (startsAtZero_first levels Hzero) as (first' & Hf' & Hz).
  rewrite Hfirst in Hf'. injection Hf' as <-.
  assert (Hidx : getDifficultyLevelIndex levels 0 = 0%nat).
  { apply (getDifficultyLevelIndex_in_range levels Hwf 0 0%nat first Hfirst).
    - rewrite Hz. apply Qle_refl.
    - intros next Hn. rewrite <- Hz.
      apply (ascending_nth levels (wellFormed_ascending levels Hwf) 0 1);
        [lia|exact Hfirst|exact Hn]. }
  pose proof (calculateGameParameters_raw levels Hwf 0 0%nat first Hfirst Hidx
                (or_intror (Qeq_sym _ _ Hz))) as Hp.
  unfold startGame, updateDifficulty. rewrite Hp.
  cbn [previousScoreRef].
  assert (Hnew : isNewDifficultyLevel levels 0 0 = false)
    by (unfold isNewDifficultyLevel; apply Nat.ltb_irrefl).
  rewrite Hnew. eexists. split; [reflexivity|]. cbn.
  repeat split; reflexivity.
Qed.


(** X11.  The keyboard: Space pressed twice while playing or paused gives
    back the state unchanged; from game over, Space and Escape both lead to
    the menu and neither to a new game; and a key press brings the game to
    playing only from the menu (Space, through [startGame], score 0) or
    from the pause (Space, score kept). *)
Theorem handleKeyDown_transitions :
  forall (levels : list DifficultyLevel.t) (st : State),
  (gameStatus st = playing \/ gameStatus st = paused ->
   exists st1,
     handleKeyDown levels Space st = Some st1
     /\ handleKeyDown levels Space st1 = Some st)
  /\ (gameStatus st = gameOver ->
      forall code st',
      handleKeyDown levels code st = Some st' ->
      (gameStatus st' = menu \/ gameStatus st' = gameOver)
      /\ score st' = score st /\ highScore st' = highScore st)
  /\ (forall code st',
      handleKeyDown levels code st = Some st' ->
      gameStatus st <> playing ->
      gameStatus st' = playing ->
      code = Space
      /\ ((gameStatus st = menu /\ score st' = 0)
          \/ (gameStatus st = paused /\ score st' = score st))).
Proof.
  intros levels st. split; [|split].
  - intros Hst. destruct st as [g sc hs gp sh dn pr nt]. cbn in Hst.
    destruct Hst as [->| ->]; eexists; split; reflexivity.
  - intros Hst code st' Hkey. destruct st as [g sc hs gp sh dn pr nt].
    cbn in Hst. subst g.
    destruct code; cbn in Hkey; injection Hkey as <-; cbn;
      repeat split; auto.
  - intros code st' Hkey Hnot Hplay.
    destruct st as [g sc hs gp sh dn pr nt]. cbn in Hnot |- *.
    destruct code; cbn [handleKeyDown gameStatus] in Hkey.
    + split; [reflexivity|].
      destruct g; try congruence.
      * left. split; [reflexivity|].
        unfold startGame in Hkey.
        destruct (updateDifficulty levels 0 _) as [st1|] eqn:E; [|discriminate].
        injection Hkey as <-.
        destruct (updateDifficulty_frame levels 0 _ st1 E) as (_ & Hsc & _).
        cbn. rewrite Hsc. reflexivity.
      * right. split; [reflexivity|]. injection Hkey as <-. reflexivity.
      * injection Hkey as <-. cbn in Hplay. discriminate.
    + exfalso. destruct g; try congruence;
        injection Hkey as <-; cbn in Hplay; discriminate.
    + exfalso. injection Hkey as <-. cbn in Hplay. congruence.
Qed.

(** X12.  For a well-formed table that starts at zero and a non-negative
    score, the progress value the HUD computes from the parameters of that
    score lies between 0 and 100, and it is 100 exactly when there is no
    next milestone: below the last level it stays under 100, the cap of
    [Math.min] is never reached. *)
Theorem progressToNext_range :
  forall (levels : list DifficultyLevel.t) (s : Q),
  wellFormed levels = true ->
  startsAtZero levels = true ->
  0 <= s ->
  exists p,
    calculateGameParameters levels s = Some p
    /\ (0 <= HUD.progressToNext s (GameParameters.nextMilestone p) <= 100)%Z
    /\ (HUD.progressToNext s (GameParameters.nextMilestone p) = 100%Z
        <-> GameParameters.nextMilestone p = None).
Proof.
  intros levels s Hwf Hzero Hs.
  pose proof (startsAtZero_inDomain levels s Hzero Hs) as Hdom.
  destruct (startsAtZero_first levels Hzero) as (first & Hfirst & Hz).
  destruct (calculateGameParameters_in_tier levels s Hwf Hdom)
    as (i & cur & nxt & t & p & _ & Hi & _ & Hp & _ & Hcase & _).
  exists p. split; [exact Hp|].
  destruct Hcase as [(Hn & Hlt & _ & ->)|(_ & _ & _ & ->)].
  - assert (Hm : 0 < DifficultyLevel.score nxt) by Lqa.lra.
    unfold HUD.progressToNext.
    destruct (Qeq_bool (DifficultyLevel.score nxt) 0) eqn:E.
    { apply Qeq_bool_iff in E. Lqa.lra. }
    set (m := DifficultyLevel.score nxt) in *.
    assert (Hq0 : 0 <= s / m * 100).
    { assert (0 <= s / m) by (apply Qle_shift_div_l; Lqa.lra). Lqa.lra. }
    assert (Hq1 : s / m * 100 < 100).
    { assert (s / m < 1) by (apply Qlt_shift_div_r; Lqa.lra). Lqa.lra. }
    assert (Hf0 : (0 <= Qfloor (s / m * 100))%Z).
    { assert (H : (Qfloor (inject_Z 0) <= Qfloor (s / m * 100))%Z)
        by (apply Qfloor_resp_le; change (inject_Z 0) with 0; exact Hq0).
      rewrite Qfloor_Z in H. exact H. }
    assert (Hf1 : (Qfloor (s / m * 100) < 100)%Z).
    { rewrite Zlt_Qlt. pose proof (Qfloor_le (s / m * 100)).
      change (inject_Z 100) with 100. Lqa.lra. }
    split; [lia|]. split; [lia|discriminate].
  - cbn. split; [lia|]. split; reflexivity.
Qed.

End SessionTheorems.

(* ================================================================= *)
(** ** Further properties of the obstacle component                   *)
(* ================================================================= *)

Section ObstacleTheorems.

Import Obstacles ObstacleSpec ObstacleRuns.
Local Open Scope R_scope.



(** X15.  [checkCollisions] calls [onCollision] once for each active
    obstacle of the list that passes the distance test, so up to as many
    times as there are obstacles, and sets the guard exactly if it made a
    call; it makes no call and leaves the guard alone when the guard is
    set, the game is not playing, or the player or the group is not
    mounted. *)
Theorem checkCollisions_counts_overlaps :
  forall (props : Props) (obstaclesGroupRef : option Group)
         (obstacles : list Obstacle.t) (hasCollided : bool),
  let result :=
    checkCollisions props obstaclesGroupRef obstacles hasCollided in
  match nemoRef props, obstaclesGroupRef with
  | Some nemo, Some group =>
      if hasCollided || negb (isPlaying props) then result = (hasCollided, 0%nat)
      else
        let hit :=
          overlapsb group (worldPosition nemo)
            (0.5 * scaleX nemo * GAME_SETTINGS.COLLISION_THRESHOLD) in
        snd result = length (filter hit obstacles)
        /\ fst result = existsb hit obstacles
        /\ (snd result <= length obstacles)%nat
        /\ (fst result = true <-> (0 < snd result)%nat)
  | _, _ => result = (hasCollided, 0%nat)
  end.
Proof.
  intros props ogroup obstacles hasCollided result. subst result.
  unfold checkCollisions.
  destruct (nemoRef props) as [nemo|]; [|reflexivity].
  destruct ogroup as [group|]; [|reflexivity].
  destruct hasCollided; cbn [orb]; [reflexivity|].
  destruct (isPlaying props); cbn [negb]; [|reflexivity].
  rewrite checkObstacle_fold_counts. cbn [fst snd orb Nat.add].
  set (hit := overlapsb _ _ _).
  split; [reflexivity|]. split; [reflexivity|].
  split; [apply filter_length_le|].
  induction obstacles as [|o rest IH]; cbn [existsb filter].
  - cbn. split; [discriminate|lia].
  - destruct (hit o); cbn [orb length]; [split; [lia|reflexivity]|exact IH].
Qed.

(** X16.  Once the guard is set, no later frame calls [onCollision],
    whatever the positions, and the guard stays set over any series of
    frames. *)
Theorem collision_guard_latches :
  forall (frames : list Frame) (st : State),
  hasCollidedRef st = true ->
  hasCollidedRef (run (map FrameEvent frames) st) = true
  /\ Forall (fun calls => calls = 0%nat) (frameCalls frames st).
Proof.
  intros frames st Hg. apply frames_guarded. exact Hg.
Qed.

(** X17.  After the effect of a new playthrough has cleared the guard, a
    frame in which a held obstacle overlaps the player calls [onCollision]
    again and sets the guard again, whatever the guard was before. *)
Theorem collision_detected_after_reset :
  forall (f : Frame) (st : State) (group : Group) (nemo : Nemo)
         (o : Obstacle.t),
  obstaclesGroupRef f = Some group ->
  isPlaying (props f) = true ->
  nemoRef (props f) = Some nemo ->
  In o (obstacles st) ->
  overlaps group (worldPosition nemo)
    (0.5 * scaleX nemo * GAME_SETTINGS.COLLISION_THRESHOLD) o ->
  let after := useFrame f (resetCollisionEffect true st) in
  (1 <= snd after)%nat /\ hasCollidedRef (fst after) = true.
Proof.
  intros f st group nemo o Hgroup Hplay Hnemo Hin Hov after.
  subst after. unfold useFrame. rewrite Hgroup, Hplay. cbn [negb].
  rewrite spawnObstacle_guard. cbn [resetCollisionEffect hasCollidedRef obstacles].
  unfold checkCollisions. rewrite Hnemo, Hplay. cbn [negb].
  pose proof (checkObstacle_fold_reports group (worldPosition nemo)
                (0.5 * scaleX nemo * GAME_SETTINGS.COLLISION_THRESHOLD)
                (obstacles st) (false, 0%nat)) as H.
  cbn zeta in H. cbn [snd] in H. destruct H as [Hiff Hguard].
  destruct (fold_left _ _ _) as [collided calls] eqn:E.
  cbn [fst snd hasCollidedRef] in *.
  assert (Hcalls : (0 < calls)%nat)
    by (apply Hiff; exists o; split; assumption).
  split; [lia|]. apply Hguard. exact Hcalls.
Qed.

(** X18.  In one frame an active obstacle whose mesh is in the scene moves
    sideways and vertically by at most [amplitude * delta] (for
    non-negative amplitude and delta), and not at all on the static
    pattern; its identifier, kind, speed, scale, pattern, amplitude,
    frequency, phase and colour are never changed. *)
Theorem advance_lateral_drift_bounded :
  forall (group : Group) (elapsedTime delta : R) (o : Obstacle.t),
  Obstacle.active o = true ->
  group (Obstacle.id o) <> None ->
  0 <= delta ->
  0 <= Obstacle.amplitude o ->
  let o' := advance group elapsedTime delta o in
  Rabs (Vector3.x (Obstacle.position o') - Vector3.x (Obstacle.position o))
  <= Obstacle.amplitude o * delta
  /\ Rabs (Vector3.y (Obstacle.position o') - Vector3.y (Obstacle.position o))
     <= Obstacle.amplitude o * delta
  /\ (Obstacle.movementPattern o = static ->
      Vector3.x (Obstacle.position o') = Vector3.x (Obstacle.position o)
      /\ Vector3.y (Obstacle.position o') = Vector3.y (Obstacle.position o))
  /\ Obstacle.id o' = Obstacle.id o
  /\ Obstacle.type o' = Obstacle.type o
  /\ Obstacle.speed o' = Obstacle.speed o
  /\ Obstacle.scale o' = Obstacle.scale o
  /\ Obstacle.movementPattern o' = Obstacle.movementPattern o
  /\ Obstacle.amplitude o' = Obstacle.amplitude o
  /\ Obstacle.frequency o' = Obstacle.frequency o
  /\ Obstacle.animationOffset o' = Obstacle.animationOffset o
  /\ Obstacle.color o' = Obstacle.color o.
Proof.
  intros group elapsedTime delta o Hact Hmesh Hd Ha o'. subst o'.
  unfold advance. rewrite Hact. cbn [negb].
  destruct (group (Obstacle.id o)) as [pos|]; [|congruence].
  cbn [Obstacle.position Obstacle.id Obstacle.type Obstacle.speed
       Obstacle.scale Obstacle.movementPattern Obstacle.amplitude
       Obstacle.frequency Obstacle.animationOffset Obstacle.color].
  assert (Hprod : 0 <= Obstacle.amplitude o * delta)
    by (apply Rmult_le_pos; assumption).
  assert (Hsin : forall a, Rabs (sin a * Obstacle.amplitude o * delta)
                           <= Obstacle.amplitude o * delta).
  { intro a. destruct (SIN_bound a) as [Hlo Hhi].
    rewrite Rmult_assoc. apply Rabs_le. split; nra. }
  assert (Hsin3 : forall a, Rabs (sin a * (Obstacle.amplitude o / 3) * delta)
                            <= Obstacle.amplitude o * delta).
  { intro a. destruct (SIN_bound a) as [Hlo Hhi].
    apply Rabs_le. split; nra. }
  assert (Hzero : forall v, Rabs (v - v) <= Obstacle.amplitude o * delta).
  { intro v. replace (v - v) with 0 by ring. rewrite Rabs_R0. exact Hprod. }
  assert (Hshift : forall v d, v + d - v = d) by (intros; ring).
  split; [|split; [|split]].
  - destruct (Obstacle.movementPattern o); cbn [Vector3.x];
      rewrite ?Hshift; auto.
  - destruct (Obstacle.movementPattern o); cbn [Vector3.y];
      rewrite ?Hshift; auto.
    destruct (Obstacle.type o); rewrite ?Hshift; auto.
  - intros ->. cbn. split; reflexivity.
  - repeat split; reflexivity.
Qed.

End ObstacleTheorems.

Section ObstacleRunLemmas.

Import Obstacles ObstacleSpec ObstacleRuns.
Local Open Scope R_scope.

Lemma StronglySorted_app_last (l : list nat) (c : nat) :
  StronglySorted lt l -> Forall (fun i => (i < c)%nat) l ->
  StronglySorted lt (l ++ [c]).
Proof.
  induction l as [|a l IH]; intros Hs Hall; cbn.
  - repeat constructor.
  - inversion Hs as [|? ? Hs' Ha]; subst.
    inversion Hall as [|? ? Hac Hall']; subst.
    constructor; [apply IH; assumption|].
    apply Forall_app. split; [exact Ha|repeat constructor; exact Hac].
Qed.

Lemma updateObstacles_sorted (group : Group) (e d : R) (l : list Obstacle.t) :
  StronglySorted lt (map Obstacle.id l) ->
  StronglySorted lt (map Obstacle.id (updateObstacles group e d l)).
Proof.
  induction l as [|o l IH]; intro Hs; [constructor|].
  cbn [map] in Hs. inversion Hs as [|? ? Hs' Ho]; subst.
  rewrite updateObstacles_cons.
  destruct (Obstacle.active (advance group e d o)); [|auto].
  cbn [map]. constructor; [auto|].
  rewrite advance_id. apply Forall_forall. intros i Hi.
  rewrite Forall_forall in Ho. apply Ho.
  eapply updateObstacles_ids; exact Hi.
Qed.

Lemma updateObstacles_length (group : Group) (e d : R) (l : list Obstacle.t) :
  (length (updateObstacles group e d l) <= length l)%nat.
Proof.
  unfold updateObstacles.
  pose proof (filter_length_le Obstacle.active (map (advance group e d) l)) as H.
  rewrite length_map in H. exact H.
Qed.

(** What a frame does to the list and the counter. *)
Lemma useFrame_shape (f : Frame) (st : State) :
  fst (useFrame f st) = st
  \/ exists group l collided,
       obstaclesGroupRef f = Some group
       /\ isPlaying (props f) = true
       /\ (l = obstacles st
           /\ obstacleCounterRef (fst (useFrame f st)) = obstacleCounterRef st
           \/ exists o, l = obstacles st ++ [o]
                        /\ Obstacle.id o = obstacleCounterRef st
                        /\ Obstacle.active o = true
                        /\ obstacleCounterRef (fst (useFrame f st))
                           = S (obstacleCounterRef st))
       /\ fst (useFrame f st)
          = mkState (updateObstacles group (elapsedTime f) (delta f) l)
              (lastSpawnTimeRef (fst (useFrame f st)))
              (obstacleCounterRef (fst (useFrame f st))) collided.
Proof.
  unfold useFrame.
  destruct (obstaclesGroupRef f) as [group|]; [|left; reflexivity].
  destruct (isPlaying (props f)); cbn [negb]; [|left; reflexivity].
  destruct (checkCollisions _ _ _ _) as [collided calls]. cbn [fst].
  right. exists group.
  destruct (spawnObstacle_shape (props f) (currentTime f) (random f) st)
    as [->|(o & -> & Hid & Hact)]; cbn [obstacles obstacleCounterRef
                                        lastSpawnTimeRef].
  - exists (obstacles st), collided. repeat split. left. split; reflexivity.
  - exists (obstacles st ++ [o]), collided. repeat split.
    right. exists o. repeat split; assumption.
Qed.

Lemma find_id_notin (i : nat) (l : list Obstacle.t) :
  ~ In i (map Obstacle.id l) ->
  find (fun o => Nat.eqb (Obstacle.id o) i) l = None.
Proof.
  induction l as [|a l IH]; intro Hnot; [reflexivity|]. cbn [find].
  destruct (Nat.eqb_spec (Obstacle.id a) i) as [Heq|Hne].
  - exfalso. apply Hnot. left. exact Heq.
  - apply IH. intro H. apply Hnot. right. exact H.
Qed.

Lemma find_id_in (i : nat) (l : list Obstacle.t) (o : Obstacle.t) :
  find (fun o => Nat.eqb (Obstacle.id o) i) l = Some o ->
  In o l /\ Obstacle.id o = i.
Proof.
  intro H. apply find_some in H as [Hin Heq].
  split; [exact Hin|]. apply Nat.eqb_eq. exact Heq.
Qed.

Lemma find_id_app (i : nat) (l l' : list Obstacle.t) (o : Obstacle.t) :
  find (fun o => Nat.eqb (Obstacle.id o) i) l = Some o ->
  find (fun o => Nat.eqb (Obstacle.id o) i) (l ++ l') = Some o.
Proof.
  induction l as [|a l IH]; [discriminate|]. cbn [find app].
  destruct (Nat.eqb (Obstacle.id a) i); auto.
Qed.

Lemma find_id_update (group : Group) (e d : R) (i : nat)
    (l : list Obstacle.t) (o : Obstacle.t) :
  NoDup (map Obstacle.id l) ->
  find (fun o => Nat.eqb (Obstacle.id o) i) l = Some o ->
  find (fun o => Nat.eqb (Obstacle.id o) i) (updateObstacles group e d l)
  = if Obstacle.active (advance group e d o)
    then Some (advance group e d o) else None.
Proof.
  induction l as [|a l IH]; intros Hnd Hfind; [discriminate|].
  cbn [map] in Hnd. inversion Hnd as [|? ? Hnotin Hnd']; subst.
  cbn [find] in Hfind. rewrite updateObstacles_cons.
  destruct (Nat.eqb_spec (Obstacle.id a) i) as [Heq|Hne].
  - injection Hfind as <-.
    assert (Hnone : find (fun o => Nat.eqb (Obstacle.id o) i)
                      (updateObstacles group e d l) = None).
    { apply find_id_notin. intro H. apply Hnotin. rewrite Heq.
      eapply updateObstacles_ids; exact H. }
    destruct (Obstacle.active (advance group e d a)); [|exact Hnone].
    cbn [find]. rewrite advance_id, Heq, Nat.eqb_refl. reflexivity.
  - destruct (Obstacle.active (advance group e d a)).
    + cbn [find]. rewrite advance_id.
      destruct (Nat.eqb_spec (Obstacle.id a) i); [contradiction|].
      apply IH; assumption.
    + apply IH; assumption.
Qed.

Lemma advance_speed (group : Group) (e d : R) (o : Obstacle.t) :
  Obstacle.speed (advance group e d o) = Obstacle.speed o.
Proof.
  unfold advance. destruct (Obstacle.active o); cbn [negb]; [|reflexivity].
  destruct (group (Obstacle.id o)); reflexivity.
Qed.

(** The obstacle held under [i] after a frame that shows its mesh: the
    advanced obstacle if still active, none otherwise. *)
Lemma held_after_frame (f : Frame) (group : Group) (st : State) (i : nat)
    (o : Obstacle.t) :
  Invariant st ->
  held i st = Some o ->
  obstaclesGroupRef f = Some group ->
  isPlaying (props f) = true ->
  held i (fst (useFrame f st))
  = if Obstacle.active (advance group (elapsedTime f) (delta f) o)
    then Some (advance group (elapsedTime f) (delta f) o) else None.
Proof.
  intros Hinv Hheld Hgroup Hplay. unfold held in *.
  pose proof (spawnObstacle_Invariant (props f) (currentTime f) (random f)
                st Hinv) as [_ Hnd1].
  unfold useFrame. rewrite Hgroup, Hplay. cbn [negb].
  destruct (checkCollisions _ _ _ _) as [collided calls].
  cbn [fst obstacles].
  apply find_id_update; [exact Hnd1|].
  destruct (spawnObstacle_shape (props f) (currentTime f) (random f) st)
    as [->|(a & -> & _)]; [exact Hheld|].
  cbn [obstacles]. apply find_id_app. exact Hheld.
Qed.

Lemma Gone_not_held (i : nat) (st : State) : Gone i st -> held i st = None.
Proof.
  intros (_ & _ & Hnot). unfold held. apply find_id_notin. exact Hnot.
Qed.

(** Over a series of frames that all show its mesh, an obstacle, as long as
    it is held, has moved along z by its speed times 60 times the time
    covered, at unchanged speed; and once advanced it is within z <= 20. *)
Lemma held_progress (frames : list Frame) :
  forall (st : State) (i : nat) (o : Obstacle.t),
  Invariant st ->
  held i st = Some o ->
  Forall (showsMesh i) frames ->
  match held i (run (map FrameEvent frames) st) with
  | Some o' =>
      Vector3.z (Obstacle.position o')
      = Vector3.z (Obstacle.position o)
        + Obstacle.speed o * sumDeltas frames * 60
      /\ Obstacle.speed o' = Obstacle.speed o
      /\ Obstacle.id o' = i
      /\ (frames <> [] -> Vector3.z (Obstacle.position o') <= 20)
  | None => Gone i (run (map FrameEvent frames) st)
  end.
Proof.
  induction frames as [|f rest IH]; intros st i o Hinv Hheld Hshow.
  - unfold run. cbn [map fold_left]. rewrite Hheld. cbn [sumDeltas fold_right].
    destruct (find_id_in i _ o Hheld) as [_ Hid].
    repeat split; [ring|exact Hid|congruence].
  - inversion Hshow as [|? ? (Hplay & group & Hgroup & Hmesh) Hrest]; subst.
    destruct (find_id_in i _ o Hheld) as [Hin Hid].
    assert (Hact : Obstacle.active o = true).
    { destruct Hinv as [Hall _]. rewrite Forall_forall in Hall.
      apply (Hall o Hin). }
    assert (Hmesh' : group (Obstacle.id o) <> None) by (rewrite Hid; exact Hmesh).
    destruct (advance_moved group (elapsedTime f) (delta f) o Hact Hmesh')
      as (Hz & Hflag & _).
    pose proof (held_after_frame f group st i o Hinv Hheld Hgroup Hplay) as H1.
    pose proof (useFrame_Invariant f st Hinv) as Hinv1.
    unfold run in *. cbn [map fold_left step].
    set (st1 := fst (useFrame f st)) in *.
    set (o1 := advance group (elapsedTime f) (delta f) o) in *.
    destruct (Obstacle.active o1) eqn:Eact.
    + specialize (IH st1 i o1 Hinv1 H1 Hrest).
      destruct (held i (fold_left step (map FrameEvent rest) st1)) as [o'|];
        [|exact IH].
      destruct IH as (Hz' & Hv' & Hid' & Hle').
      assert (Hv1 : Obstacle.speed o1 = Obstacle.speed o)
        by apply advance_speed.
      assert (Hz1 : Vector3.z (Obstacle.position o1) <= 20).
      { assert (Hf : negb (Rltb 20 (Vector3.z (Obstacle.position o1))) = true)
          by congruence.
        apply negb_true_iff, Rltb_false_iff in Hf. exact Hf. }
      split.
      { rewrite Hz', Hz, Hv1. cbn [sumDeltas fold_right].
        fold (sumDeltas rest). ring. }
      split; [congruence|]. split; [exact Hid'|].
      intros _. destruct rest as [|g rest'].
      * cbn [sumDeltas fold_right] in Hz'. rewrite Hz'. lra.
      * apply Hle'. discriminate.
    + assert (Hgone : Gone i st1).
      { split; [exact Hinv1|]. split.
        - destruct Hinv as [Hall _]. rewrite Forall_forall in Hall.
          destruct (Hall o Hin) as [Hlt _]. rewrite Hid in Hlt.
          destruct (useFrame_shape f st) as [E|(g & l & c & _ & _ & Hl & E)].
          + fold st1 in E. rewrite E. exact Hlt.
          + fold st1 in Hl.
            destruct Hl as [[_ ->]|(a & _ & _ & _ & ->)]; lia.
        - intro Hi. unfold ids in Hi.
          assert (Hsome : held i st1 <> None).
          { unfold held. intro Hnone.
            apply in_map_iff in Hi as (a & Ha & Hina).
            apply (find_none _ _ Hnone) in Hina.
            rewrite Ha, Nat.eqb_refl in Hina. discriminate. }
          apply Hsome. exact H1. }
      pose proof (run_Gone i (map FrameEvent rest) st1 Hgone) as Hg.
      unfold run in Hg. rewrite (Gone_not_held i _ Hg). exact Hg.
Qed.

End ObstacleRunLemmas.

Section ObstacleRunTheorems.

Import Obstacles ObstacleSpec ObstacleRuns.
Local Open Scope R_scope.

Lemma step_spawn_order (st : State) (e : Event) :
  StronglySorted lt (ids st)
  /\ Forall (fun i => (i < obstacleCounterRef st)%nat) (ids st)
  /\ (length (obstacles st) <= obstacleCounterRef st)%nat ->
  StronglySorted lt (ids (step st e))
  /\ Forall (fun i => (i < obstacleCounterRef (step st e))%nat)
       (ids (step st e))
  /\ (length (obstacles (step st e)) <= obstacleCounterRef (step st e))%nat.
Proof.
  intros (Hs & Hall & Hlen).
  destruct e as [f|b]; cbn [step];
    [|unfold resetCollisionEffect; destruct b; repeat split; assumption].
  destruct (useFrame_shape f st) as [->|(g & l & c & _ & _ & Hl & E)];
    [repeat split; assumption|].
  rewrite E. unfold ids. cbn [obstacles obstacleCounterRef].
  assert (Hl' : StronglySorted lt (map Obstacle.id l)
                /\ Forall (fun i => (i < obstacleCounterRef
                                           (fst (useFrame f st)))%nat)
                     (map Obstacle.id l)
                /\ (length l <= obstacleCounterRef (fst (useFrame f st)))%nat).
  { destruct Hl as [[-> ->]|(o & -> & Hid & _ & ->)];
      [repeat split; assumption|].
    rewrite map_app, length_app. cbn [map length]. rewrite Hid.
    split; [apply StronglySorted_app_last; assumption|].
    split; [|lia].
    apply Forall_app. split; [|repeat constructor].
    eapply Forall_impl; [|exact Hall]. cbn. intros; lia. }
  destruct Hl' as (Hs' & Hall' & Hlen').
  split; [apply updateObstacles_sorted; exact Hs'|].
  split.
  - apply Forall_forall. intros i Hi. rewrite Forall_forall in Hall'.
    apply Hall'. eapply updateObstacles_ids; exact Hi.
  - pose proof (updateObstacles_length g (elapsedTime f) (delta f) l). lia.
Qed.

(** X19.  In every state the component reaches from its initial state the
    obstacles are held in spawn order: identifiers strictly increase along
    the list, all lie below the counter, and there are never more
    obstacles than identifiers handed out.  One frame adds at most one
    obstacle and moves the counter by at most one. *)
Theorem obstacles_held_in_spawn_order :
  forall (events : list Event),
  let st := run events initialState in
  StronglySorted lt (ids st)
  /\ Forall (fun i => (i < obstacleCounterRef st)%nat) (ids st)
  /\ (length (obstacles st) <= obstacleCounterRef st)%nat
  /\ forall f : Frame,
       (length (obstacles (fst (useFrame f st)))
        <= S (length (obstacles st)))%nat
       /\ (obstacleCounterRef st
           <= obstacleCounterRef (fst (useFrame f st))
           <= S (obstacleCounterRef st))%nat.
Proof.
  intros events st.
  assert (Hgen : forall evs s0,
            StronglySorted lt (ids s0)
            /\ Forall (fun i => (i < obstacleCounterRef s0)%nat) (ids s0)
            /\ (length (obstacles s0) <= obstacleCounterRef s0)%nat ->
            StronglySorted lt (ids (run evs s0))
            /\ Forall (fun i => (i < obstacleCounterRef (run evs s0))%nat)
                 (ids (run evs s0))
            /\ (length (obstacles (run evs s0))
                <= obstacleCounterRef (run evs s0))%nat).
  { unfold run. induction evs as [|e evs IH]; intros s0 H0; [exact H0|].
    cbn [fold_left]. apply IH, step_spawn_order, H0. }
  destruct (Hgen events initialState) as (Hs & Hall & Hlen).
  { repeat split; cbn; [constructor|constructor|lia]. }
  fold st in Hs, Hall, Hlen.
  split; [exact Hs|]. split; [exact Hall|]. split; [exact Hlen|].
  intro f.
  destruct (useFrame_shape f st) as [->|(g & l & c & _ & _ & Hl & E)];
    [lia|].
  rewrite E. cbn [obstacles obstacleCounterRef].
  pose proof (updateObstacles_length g (elapsedTime f) (delta f) l) as Hu.
  destruct Hl as [[-> ->]|(o & -> & _ & _ & ->)].
  - lia.
  - rewrite length_app in Hu. cbn [length] in Hu. lia.
Qed.

(** X20.  Over a series of frames that all show its mesh, an obstacle that
    is still held has kept its speed and has moved along z by exactly
    [speed * 60] times the sum of the frames' deltas, whatever its pattern
    and whatever was spawned or culled meanwhile; and after at least one
    such frame it lies at z <= 20. *)
Theorem held_obstacle_progress :
  forall (frames : list Frame) (st : State) (i : nat) (o o' : Obstacle.t),
  Invariant st ->
  held i st = Some o ->
  Forall (showsMesh i) frames ->
  held i (run (map FrameEvent frames) st) = Some o' ->
  Vector3.z (Obstacle.position o')
  = Vector3.z (Obstacle.position o) + Obstacle.speed o * sumDeltas frames * 60
  /\ Obstacle.speed o' = Obstacle.speed o
  /\ (frames <> [] -> Vector3.z (Obstacle.position o') <= 20).
Proof.
  intros frames st i o o' Hinv Hheld Hshow Hafter.
  pose proof (held_progress frames st i o Hinv Hheld Hshow) as H.
  rewrite Hafter in H. destruct H as (Hz & Hv & _ & Hle).
  repeat split; assumption.
Qed.

(** X21.  An obstacle is culled for good once its path passes z = 20: if a
    non-empty series of frames that all show its mesh carries it, at its
    speed, beyond 20, then it is no longer held after them, nor after any
    events that follow. *)
Theorem obstacle_culled_once_past :
  forall (frames : list Frame) (later : list Event) (st : State) (i : nat)
         (o : Obstacle.t),
  Invariant st ->
  held i st = Some o ->
  Forall (showsMesh i) frames ->
  frames <> [] ->
  20 < Vector3.z (Obstacle.position o)
       + Obstacle.speed o * sumDeltas frames * 60 ->
  held i (run (map FrameEvent frames) st) = None
  /\ held i (run later (run (map FrameEvent frames) st)) = None.
Proof.
  intros frames later st i o Hinv Hheld Hshow Hne Hpast.
  pose proof (held_progress frames st i o Hinv Hheld Hshow) as H.
  destruct (held i (run (map FrameEvent frames) st)) as [o'|] eqn:E.
  - exfalso. destruct H as (Hz & _ & _ & Hle). specialize (Hle Hne). lra.
  - split; [reflexivity|].
    apply Gone_not_held, run_Gone. exact H.
Qed.

End ObstacleRunTheorems.

(* ================================================================= *)
(** ** Properties of the player controls                              *)
(* ================================================================= *)

Section NemoTheorems.

Import NemoControls.
Local Open Scope R_scope.

Lemma clamp_within (b v : R) : 0 <= b -> - b <= Rmax (- b) (Rmin b v) <= b.
Proof.
  intro Hb. split.
  - apply Rmax_l.
  - apply Rmax_lub; [lra|apply Rmin_l].
Qed.

Lemma clamp_id (b v : R) : - b <= v <= b -> Rmax (- b) (Rmin b v) = v.
Proof.
  intros [Hlo Hhi]. rewrite Rmin_right by exact Hhi.
  apply Rmax_right. exact Hlo.
Qed.

(** Clamping never moves a value further than the unclamped step would. *)
Lemma clamp_step (b v w : R) :
  - b <= v <= b -> Rabs (Rmax (- b) (Rmin b w) - v) <= Rabs (w - v).
Proof.
  intros [Hlo Hhi].
  unfold Rmax, Rmin.
  destruct (Rle_dec b w); destruct (Rle_dec (- b) _);
    unfold Rabs; repeat destruct (Rcase_abs _); lra.
Qed.

(** X22.  After every frame in which the game plays and the player is
    mounted, the player lies within the bounds |x| <= 5 and |y| <= 4,
    wherever it was before and whatever keys are held; this holds after any
    non-empty series of such frames.  The z coordinate is not clamped: it
    changes by at most 0.01 per frame. *)
Theorem player_stays_within_bounds :
  forall (frames : list (Keys * (R * R))) (k : Keys) (elapsedTime delta : R)
         (st : State),
  let st' :=
    useFrame true true k elapsedTime delta (runFrames true true frames st) in
  - BOUNDS_x <= Vector3.x (position st') <= BOUNDS_x
  /\ - BOUNDS_y <= Vector3.y (position st') <= BOUNDS_y
  /\ Rabs (Vector3.z (position st')
           - Vector3.z (position (runFrames true true frames st))) <= 0.01.
Proof.
  intros frames k elapsedTime delta st st'. subst st'.
  set (s0 := runFrames true true frames st).
  unfold useFrame. cbn [negb orb position Vector3.x Vector3.y Vector3.z].
  split; [apply clamp_within; unfold BOUNDS_x; lra|].
  split; [apply clamp_within; unfold BOUNDS_y; lra|].
  destruct (SIN_bound (elapsedTime * 2)) as [Hlo Hhi].
  replace (Vector3.z (position s0) + sin (elapsedTime * 2) * 0.01
           - Vector3.z (position s0))
    with (sin (elapsedTime * 2) * 0.01) by ring.
  apply Rabs_le. split; lra.
Qed.

(** X23.  A player within the bounds moves in one frame by at most 0.2
    along x and along y (0.1 without the boost key), and does not move
    along an axis whose two opposite keys are both held or both
    released. *)
Theorem player_step_bounded :
  forall (k : Keys) (elapsedTime delta : R) (st : State),
  - BOUNDS_x <= Vector3.x (position st) <= BOUNDS_x ->
  - BOUNDS_y <= Vector3.y (position st) <= BOUNDS_y ->
  let st' := useFrame true true k elapsedTime delta st in
  let step :=
    if boost k then MOVEMENT_SPEED_fast else MOVEMENT_SPEED_normal in
  Rabs (Vector3.x (position st') - Vector3.x (position st)) <= step
  /\ Rabs (Vector3.y (position st') - Vector3.y (position st)) <= step
  /\ step <= 0.2
  /\ (moveLeft k = moveRight k ->
      Vector3.x (position st') = Vector3.x (position st))
  /\ (moveUp k = moveDown k ->
      Vector3.y (position st') = Vector3.y (position st)).
Proof.
  intros k elapsedTime delta st Hx Hy st' step. subst st'.
  unfold useFrame. cbn [negb orb position Vector3.x Vector3.y Vector3.z].
  fold step.
  assert (Hstep : 0 < step <= 0.2).
  { unfold step, MOVEMENT_SPEED_fast, MOVEMENT_SPEED_normal.
    destruct (boost k); lra. }
  assert (Habs : forall v w, Rabs (w - v) <= step -> forall b,
            - b <= v <= b -> Rabs (Rmax (- b) (Rmin b w) - v) <= step).
  { intros v w Hw b Hb. eapply Rle_trans; [apply clamp_step; exact Hb|exact Hw]. }
  assert (Hsmall : forall v w, w = v \/ w = v + step \/ w = v - step ->
            Rabs (w - v) <= step).
  { intros v w [ -> | [ -> | -> ] ]; apply Rabs_le; lra. }
  split; [|split; [|split; [lra|split]]].
  - apply Habs; [|exact Hx]. apply Hsmall.
    destruct (moveLeft k), (moveRight k); lra.
  - apply Habs; [|exact Hy]. apply Hsmall.
    destruct (moveUp k), (moveDown k); lra.
  - intro Heq. rewrite <- Heq.
    destruct (moveLeft k).
    + replace (Vector3.x (position st) - step + step)
        with (Vector3.x (position st)) by ring.
      apply clamp_id. exact Hx.
    + apply clamp_id. exact Hx.
  - intro Heq. rewrite <- Heq.
    destruct (moveUp k).
    + replace (Vector3.y (position st) + step - step)
        with (Vector3.y (position st)) by ring.
      apply clamp_id. exact Hy.
    + apply clamp_id. exact Hy.
Qed.

(** X24.  [updateSizeFromScore] sets the size to
    [1 + 0.05 * floor(score / 1000)]: for a score in
    #[1000 n, 1000 (n+1))# the size is [1 + 0.05 n]; it never decreases
    when the score grows and is at least 1 for a non-negative score; and
    the radius [checkCollisions] gives a player of that size is
    [0.4 + 0.02 n]. *)
Theorem updateSizeFromScore_steps :
  forall (score : R) (n : Z) (st : State),
  IZR n * 1000 <= score < (IZR n + 1) * 1000 ->
  size (updateSizeFromScore score st) = 1 + 0.05 * IZR n
  /\ (0 <= score -> 1 <= size (updateSizeFromScore score st))
  /\ (forall score', score <= score' ->
        size (updateSizeFromScore score st)
        <= size (updateSizeFromScore score' st))
  /\ 0.5 * Obstacles.scaleX (asNemo (updateSizeFromScore score st))
     * GAME_SETTINGS.COLLISION_THRESHOLD
     = 0.4 + 0.02 * IZR n.
Proof.
  intros score n st [Hlo Hhi].
  assert (Hfloor : forall s z, IZR z * 1000 <= s < (IZR z + 1) * 1000 ->
            Obstacles.Math_floor (s / 1000) = z).
  { intros s z [H1 H2]. unfold Obstacles.Math_floor. symmetry.
    apply Int_part_spec. split; lra. }
  assert (Hsize : size (updateSizeFromScore score st) = 1 + 0.05 * IZR n).
  { unfold updateSizeFromScore. cbn [size].
    unfold GAME_SETTINGS_REST.GROWTH_SCORE_THRESHOLD,
           GAME_SETTINGS_REST.NEMO_INITIAL_SIZE,
           GAME_SETTINGS_REST.NEMO_GROWTH_FACTOR.
    rewrite (Hfloor score n (conj Hlo Hhi)). lra. }
  split; [exact Hsize|]. split; [|split].
  - intro H0. rewrite Hsize.
    assert (Hn : (0 <= n)%Z).
    { destruct (Z.le_gt_cases 0 n) as [H|H]; [exact H|].
      exfalso. assert (IZR n + 1 <= 0).
      { replace 0 with (IZR 0) by reflexivity. rewrite <- plus_IZR.
        apply IZR_le. lia. }
      nra. }
    apply IZR_le in Hn. lra.
  - intros score' Hle. rewrite Hsize.
    unfold updateSizeFromScore. cbn [size].
    unfold GAME_SETTINGS_REST.GROWTH_SCORE_THRESHOLD,
           GAME_SETTINGS_REST.NEMO_INITIAL_SIZE,
           GAME_SETTINGS_REST.NEMO_GROWTH_FACTOR.
    destruct (base_Int_part (score' / 1000)) as [Hb1 Hb2].
    assert (Hz : (n <= Obstacles.Math_floor (score' / 1000))%Z).
    { unfold Obstacles.Math_floor.
      destruct (Z.le_gt_cases n (Int_part (score' / 1000))) as [H|H];
        [exact H|].
      exfalso.
      assert (IZR (Int_part (score' / 1000)) + 1 <= IZR n).
      { rewrite <- plus_IZR. apply IZR_le. lia. }
      lra. }
    apply IZR_le in Hz. lra.
  - unfold asNemo. cbn [Obstacles.scaleX]. rewrite Hsize.
    unfold GAME_SETTINGS.COLLISION_THRESHOLD. lra.
Qed.

(** X25.  Each frame brings the tilt of the player a tenth of the way to
    its target: the distance of [rotation.x] and [rotation.z] to their
    targets shrinks by the factor 0.9, so after [n] frames with the same
    keys it is [0.9 ^ n] times the initial one; [rotation.y] is always
    [PI / 2] after a frame. *)
Theorem rotation_converges :
  forall (k : Keys) (times : list (R * R)) (st : State),
  let st' := runFrames true true (map (fun t => (k, t)) times) st in
  Vector3.x (rotation st') - targetRotationX k
  = 0.9 ^ length times * (Vector3.x (rotation st) - targetRotationX k)
  /\ Vector3.z (rotation st') - targetRotationZ k
     = 0.9 ^ length times * (Vector3.z (rotation st) - targetRotationZ k)
  /\ (times <> [] -> Vector3.y (rotation st') = PI / 2).
Proof.
  intros k times. unfold runFrames.
  induction times as [|t times IH]; intros st; cbn zeta.
  - cbn. split; [ring|]. split; [ring|congruence].
  - cbn [map fold_left fst snd length].
    set (s1 := useFrame true true k (fst t) (snd t) st).
    specialize (IH s1). cbn zeta in IH. destruct IH as (Hx & Hz & Hy).
    assert (H1x : Vector3.x (rotation s1) - targetRotationX k
                  = 0.9 * (Vector3.x (rotation st) - targetRotationX k))
      by (subst s1; unfold useFrame; cbn; lra).
    assert (H1z : Vector3.z (rotation s1) - targetRotationZ k
                  = 0.9 * (Vector3.z (rotation st) - targetRotationZ k))
      by (subst s1; unfold useFrame; cbn; lra).
    assert (H1y : Vector3.y (rotation s1) = PI / 2)
      by (subst s1; unfold useFrame; cbn; reflexivity).
    split; [rewrite Hx, H1x; cbn [pow]; ring|].
    split; [rewrite Hz, H1z; cbn [pow]; ring|].
    intros _. destruct times as [|t' times']; [exact H1y|].
    apply Hy. discriminate.
Qed.

End NemoTheorems.

(* ================================================================= *)
(** ** Properties of the storage manager                              *)
(* ================================================================= *)

Section StorageLemmas.

Import StorageManager.
Local Open Scope Q_scope.

Lemma getProfiles_saveProfiles (l : list UserProfile) (st : Storage) :
  getProfiles (saveProfiles l st) = firstn MAX_PROFILES l.
Proof. reflexivity. Qed.

Lemma firstn_short (l : list UserProfile) :
  (length l <= MAX_PROFILES)%nat -> firstn MAX_PROFILES l = l.
Proof. intro H. apply firstn_all2. exact H. Qed.

Lemma find_hasName_none (n : string) (l : list UserProfile) :
  find (hasName n) l = None <-> ~ In n (map name l).
Proof.
  induction l as [|p l IH]; cbn [find map In]; [tauto|].
  unfold hasName at 1. destruct (String.eqb_spec (name p) n) as [Heq|Hne].
  - split; [discriminate|]. intro H. exfalso. apply H. left. exact Heq.
  - rewrite IH. tauto.
Qed.

Lemma find_hasName_app_new (n : string) (l : list UserProfile)
    (p : UserProfile) (m : string) :
  find (hasName m) (l ++ [p])
  = match find (hasName m) l with
    | Some q => Some q
    | None => if hasName m p then Some p else None
    end.
Proof.
  induction l as [|q l IH]; cbn [app find].
  - destruct (hasName m p); reflexivity.
  - destruct (hasName m q); [reflexivity|exact IH].
Qed.

Lemma filter_names_NoDup (f : UserProfile -> bool) (l : list UserProfile) :
  NoDup (map name l) -> NoDup (map name (filter f l)).
Proof.
  induction l as [|p l IH]; intro Hnd; [constructor|].
  cbn [map] in Hnd. inversion Hnd as [|? ? Hnot Hnd']; subst.
  cbn [filter]. destruct (f p); [|auto].
  cbn [map]. constructor; [|auto].
  intro Hin. apply Hnot. apply in_map_iff in Hin as (q & Hq & Hinq).
  apply filter_In in Hinq as [Hinq _]. rewrite <- Hq. apply in_map. exact Hinq.
Qed.

Lemma find_filter_other (n m : string) (l : list UserProfile) :
  m <> n ->
  find (hasName m) (filter (fun p => negb (hasName n p)) l)
  = find (hasName m) l.
Proof.
  intro Hne. induction l as [|p l IH]; [reflexivity|]. cbn [filter find].
  destruct (hasName n p) eqn:En; cbn [negb].
  - destruct (hasName m p) eqn:Em; [|exact IH].
    unfold hasName in En, Em.
    apply String.eqb_eq in En. apply String.eqb_eq in Em. congruence.
  - cbn [find]. destruct (hasName m p); [reflexivity|exact IH].
Qed.

Lemma find_filter_self (n : string) (l : list UserProfile) :
  find (hasName n) (filter (fun p => negb (hasName n p)) l) = None.
Proof.
  apply find_hasName_none. intro Hin.
  apply in_map_iff in Hin as (p & Hp & Hinp).
  apply filter_In in Hinp as [_ Hf]. unfold hasName in Hf.
  rewrite Hp, String.eqb_refl in Hf. discriminate.
Qed.

Lemma filter_length_same_iff (n : string) (l : list UserProfile) :
  length (filter (fun p => negb (hasName n p)) l) = length l
  <-> ~ In n (map name l).
Proof.
  induction l as [|p l IH]; cbn [filter map In length]; [tauto|].
  pose proof (filter_length_le (fun p => negb (hasName n p)) l) as Hle.
  destruct (hasName n p) eqn:En; cbn [negb length];
    unfold hasName in En.
  - apply String.eqb_eq in En. split; [intro H; lia|].
    intro H. exfalso. apply H. left. exact En.
  - apply String.eqb_neq in En. split; intro H.
    + injection H as H. apply IH in H. tauto.
    + f_equal. apply IH. tauto.
Qed.

Lemma replaceFirst_names (n : string) (f : UserProfile -> UserProfile)
    (l l' : list UserProfile) :
  (forall p, name p = n -> name (f p) = n) ->
  replaceFirst n f l = Some l' ->
  map name l' = map name l /\ length l' = length l.
Proof.
  intro Hf. revert l'. induction l as [|p l IH]; intros l' H; [discriminate|].
  cbn [replaceFirst] in H. unfold hasName in H.
  destruct (String.eqb_spec (name p) n) as [Heq|Hne].
  - injection H as <-. cbn. rewrite (Hf p Heq), Heq. split; reflexivity.
  - destruct (replaceFirst n f l) as [r|]; [|discriminate].
    injection H as <-. destruct (IH r eq_refl) as [Hn Hl].
    cbn. rewrite Hn, Hl. split; reflexivity.
Qed.

Lemma updateProfile_profilesOk (profile : UserProfile) (now : string)
    (st : Storage) :
  profilesOk st -> profilesOk (snd (updateProfile profile now st)).
Proof.
  intros [Hlen Hnd]. unfold updateProfile.
  destruct (replaceFirst _ _ _) as [l'|] eqn:E; [|split; assumption].
  apply replaceFirst_names in E as [Hn Hl]; [|reflexivity].
  cbn [snd]. unfold profilesOk. rewrite getProfiles_saveProfiles.
  rewrite firstn_short by lia. rewrite Hn, Hl. split; assumption.
Qed.

Lemma perform_profilesOk (st : Storage) (op : Op) :
  profilesOk st -> profilesOk (perform st op).
Proof.
  intros Hok. pose proof Hok as [Hlen Hnd].
  destruct op as [n now|n|profile now|n score now|score|score cur now|n
                 |prefs|type volume|type|]; cbn [perform].
  - unfold createProfile.
    destruct (find (hasName n) (getProfiles st)) eqn:Ef; [exact Hok|].
    destruct (Nat.leb_spec MAX_PROFILES (length (getProfiles st)));
      [exact Hok|].
    cbn [snd]. unfold profilesOk, saveCurrentProfileName.
    change (getProfiles (setCurrentProfileItem (Some n) ?s))
      with (getProfiles s).
    rewrite getProfiles_saveProfiles.
    assert (Hl : (length (getProfiles st ++ [mkProfile n 0 now])
                  <= MAX_PROFILES)%nat)
      by (rewrite length_app; cbn [length]; lia).
    rewrite firstn_short by exact Hl. split; [exact Hl|].
    rewrite map_app. cbn [map name].
    apply NoDup_app; [exact Hnd|repeat constructor; intros []|].
    intros m Hm [<-|[]]. apply find_hasName_none in Ef. exact (Ef Hm).
  - unfold deleteProfile.
    set (newProfiles := filter _ (getProfiles st)).
    destruct (Nat.eqb_spec (length newProfiles) (length (getProfiles st)));
      [exact Hok|].
    cbn [snd].
    assert (Hok1 : profilesOk (saveProfiles newProfiles st)).
    { unfold profilesOk. rewrite getProfiles_saveProfiles.
      pose proof (filter_length_le (fun p => negb (hasName n p))
                    (getProfiles st)) as Hle. fold newProfiles in Hle.
      rewrite firstn_short by lia.
      split; [lia|apply filter_names_NoDup; exact Hnd]. }
    destruct (getCurrentProfileName (saveProfiles newProfiles st)) as [c|];
      [|exact Hok1].
    destruct (String.eqb c n); [|exact Hok1].
    destruct newProfiles; exact Hok1.
  - apply updateProfile_profilesOk. exact Hok.
  - unfold updateProfileHighScore.
    destruct (getProfileByName n st) as [p|]; [|exact Hok].
    destruct (highScore p <? score)%Z; [|exact Hok].
    apply updateProfile_profilesOk. exact Hok.
  - unfold updateHighScore.
    destruct (getHighScore st <? score)%Z; exact Hok.
  - unfold autoSave.
    assert (Hok1 : profilesOk (snd (updateHighScore score st))).
    { unfold updateHighScore.
      destruct (getHighScore st <? score)%Z; exact Hok. }
    destruct cur as [c|]; [|exact Hok1].
    destruct (truthyString c); [|exact Hok1].
    unfold updateProfileHighScore.
    destruct (getProfileByName c _) as [p|]; [|exact Hok1].
    destruct (highScore p <? score)%Z; [|exact Hok1].
    apply updateProfile_profilesOk. exact Hok1.
  - exact Hok.
  - exact Hok.
  - unfold updateSoundVolume.
    destruct (getPreferencesRef st); cbn; exact Hok.
  - unfold toggleMute.
    destruct (getPreferencesRef st); cbn; exact Hok.
  - split; cbn; [lia|constructor].
Qed.

Lemma clampValue_range (v : Q) : 0 <= clampValue v 0 1 <= 1.
Proof.
  unfold clampValue, Math_max, Math_min.
  destruct (Qle_bool 1 v) eqn:E1.
  - cbn. split; Lqa.lra.
  - destruct (Qle_bool 0 v) eqn:E0.
    + apply Qle_bool_iff in E0.
      assert (v < 1).
      { destruct (Qlt_le_dec v 1) as [H|H]; [exact H|].
        apply Qle_bool_iff in H. congruence. }
      split; Lqa.lra.
    + split; Lqa.lra.
Qed.

Lemma savePreferences_inRange (p : GamePreferences) (st : Storage) :
  inRange (getPreferences (savePreferences p st)).
Proof.
  unfold inRange. simpl. repeat split; apply clampValue_range.
Qed.

Lemma perform_preferencesOk (st : Storage) (op : Op) :
  preferencesOk st -> preferencesOk (perform st op).
Proof.
  intros Hok. pose proof Hok as [Hdef Hget].
  assert (Hsame : forall st', DEFAULT_PREFERENCES st' = DEFAULT_PREFERENCES st ->
            preferencesItem st' = preferencesItem st -> preferencesOk st').
  { intros st' Hd Hi. unfold preferencesOk, getPreferences, getPreferencesRef.
    rewrite Hi. unfold deref. 
    unfold getPreferences, getPreferencesRef, deref in Hget.
    destruct (preferencesItem st) as [[|q]|]; rewrite ?Hd; split; assumption. }
  assert (Hsave : forall p st', DEFAULT_PREFERENCES st' = DEFAULT_PREFERENCES st ->
            preferencesOk (savePreferences p st')).
  { intros p st' Hd. split; [simpl; rewrite Hd; exact Hdef|].
    apply savePreferences_inRange. }
  destruct op as [n now|n|profile now|n score now|score|score cur now|n
                 |prefs|type volume|type|]; cbn [perform].
  - apply Hsame; unfold createProfile;
      destruct (find _ _); try reflexivity;
      destruct (_ <=? _)%nat; reflexivity.
  - apply Hsame; unfold deleteProfile;
      destruct (_ =? _)%nat; try reflexivity; cbn [snd];
      destruct (getCurrentProfileName _) as [c|]; try reflexivity;
      destruct (String.eqb c n); try reflexivity;
      destruct (filter _ _); reflexivity.
  - apply Hsame; unfold updateProfile;
      destruct (replaceFirst _ _ _); reflexivity.
  - apply Hsame; unfold updateProfileHighScore, updateProfile;
      destruct (getProfileByName n st) as [p|]; try reflexivity;
      destruct (_ <? _)%Z; try reflexivity;
      destruct (replaceFirst _ _ _); reflexivity.
  - apply Hsame; unfold updateHighScore;
      destruct (_ <? _)%Z; reflexivity.
  - apply Hsame; unfold autoSave, updateHighScore, updateProfileHighScore,
      updateProfile;
      destruct (_ <? _)%Z; cbn [snd];
      destruct cur as [c|]; try reflexivity;
      destruct (truthyString c); try reflexivity;
      destruct (getProfileByName c _) as [p|]; try reflexivity;
      destruct (_ <? _)%Z; try reflexivity;
      destruct (replaceFirst _ _ _); reflexivity.
  - apply Hsame; reflexivity.
  - unfold updatePreferences. apply Hsave. reflexivity.
  - unfold updateSoundVolume, assign.
    destruct (getPreferencesRef st) as [|q] eqn:Er.
    + split; [|apply savePreferences_inRange].
      destruct Hdef as (A & B & C).
      destruct type; unfold inRange; simpl; repeat split;
        solve [apply clampValue_range | apply A | apply B | apply C].
    + apply Hsave. reflexivity.
  - unfold toggleMute, assign.
    destruct (getPreferencesRef st) as [|q] eqn:Er; cbn [snd].
    + split; [|apply savePreferences_inRange].
      destruct type; exact Hdef.
    + apply Hsave. reflexivity.
  - unfold resetStorage. split; [exact Hdef|].
    unfold inRange. simpl. repeat split; apply clampValue_range.
Qed.

Lemma perform_highScore (st : Storage) (op : Op) :
  isReset op = false -> (getHighScore st <= getHighScore (perform st op))%Z.
Proof.
  intro Hop.
  assert (Hsame : forall st', highScoreItem st' = highScoreItem st ->
            (getHighScore st <= getHighScore st')%Z).
  { intros st' H. unfold getHighScore. rewrite H. lia. }
  assert (Hupd : forall s st0,
            (getHighScore st0 <= getHighScore (snd (updateHighScore s st0)))%Z).
  { intros s st0. unfold updateHighScore.
    destruct (Z.ltb_spec (getHighScore st0) s); cbn; lia. }
  destruct op as [n now|n|profile now|n score now|score|score cur now|n
                 |prefs|type volume|type|]; cbn [perform]; try discriminate.
  - apply Hsame; unfold createProfile;
      destruct (find _ _); try reflexivity;
      destruct (_ <=? _)%nat; reflexivity.
  - apply Hsame; unfold deleteProfile;
      destruct (_ =? _)%nat; try reflexivity; cbn [snd];
      destruct (getCurrentProfileName _) as [c|]; try reflexivity;
      destruct (String.eqb c n); try reflexivity;
      destruct (filter _ _); reflexivity.
  - apply Hsame; unfold updateProfile;
      destruct (replaceFirst _ _ _); reflexivity.
  - apply Hsame; unfold updateProfileHighScore, updateProfile;
      destruct (getProfileByName n st) as [p|]; try reflexivity;
      destruct (_ <? _)%Z; try reflexivity;
      destruct (replaceFirst _ _ _); reflexivity.
  - apply Hupd.
  - eapply Z.le_trans; [apply (Hupd score st)|].
    unfold autoSave. set (st1 := snd (updateHighScore score st)).
    assert (Hs1 : forall st', highScoreItem st' = highScoreItem st1 ->
              (getHighScore st1 <= getHighScore st')%Z).
    { intros st' H. unfold getHighScore. rewrite H. lia. }
    apply Hs1.
    destruct cur as [c|]; try reflexivity.
    destruct (truthyString c); try reflexivity.
    unfold updateProfileHighScore, updateProfile.
    destruct (getProfileByName c st1) as [p|]; try reflexivity.
    destruct (_ <? _)%Z; try reflexivity.
    destruct (replaceFirst _ _ _); reflexivity.
  - apply Hsame; reflexivity.
  - apply Hsame; reflexivity.
  - apply Hsame. unfold updateSoundVolume, assign.
    destruct (getPreferencesRef st); reflexivity.
  - apply Hsame. unfold toggleMute, assign.
    destruct (getPreferencesRef st); reflexivity.
Qed.

Lemma perform_highScore_origin (st : Storage) (op : Op) :
  isReset op = false ->
  getHighScore (perform st op) = getHighScore st
  \/ submittedScore op = Some (getHighScore (perform st op)).
Proof.
  intro Hop.
  assert (Hsame : forall st', highScoreItem st' = highScoreItem st ->
            getHighScore st' = getHighScore st).
  { intros st' H. unfold getHighScore. rewrite H. reflexivity. }
  assert (Hupd : forall s st0,
            getHighScore (snd (updateHighScore s st0)) = getHighScore st0
            \/ getHighScore (snd (updateHighScore s st0)) = s).
  { intros s st0. unfold updateHighScore.
    destruct (getHighScore st0 <? s)%Z; cbn [snd]; [right|left]; reflexivity. }
  destruct op as [n now|n|profile now|n score now|score|score cur now|n
                 |prefs|type volume|type|]; cbn [perform submittedScore];
    try discriminate.
  - left. apply Hsame; unfold createProfile;
      destruct (find _ _); try reflexivity;
      destruct (_ <=? _)%nat; reflexivity.
  - left. apply Hsame; unfold deleteProfile;
      destruct (_ =? _)%nat; try reflexivity; cbn [snd];
      destruct (getCurrentProfileName _) as [c|]; try reflexivity;
      destruct (String.eqb c n); try reflexivity;
      destruct (filter _ _); reflexivity.
  - left. apply Hsame; unfold updateProfile;
      destruct (replaceFirst _ _ _); reflexivity.
  - left. apply Hsame; unfold updateProfileHighScore, updateProfile;
      destruct (getProfileByName n st) as [p|]; try reflexivity;
      destruct (_ <? _)%Z; try reflexivity;
      destruct (replaceFirst _ _ _); reflexivity.
  - destruct (Hupd score st) as [H|H]; [left; exact H|right; congruence].
  - assert (Hauto : getHighScore (autoSave score cur now st)
                    = getHighScore (snd (updateHighScore score st))).
    { unfold autoSave. set (st1 := snd (updateHighScore score st)).
      unfold getHighScore. f_equal.
      destruct cur as [c|]; try reflexivity.
      destruct (truthyString c); try reflexivity.
      unfold updateProfileHighScore, updateProfile.
      destruct (getProfileByName c st1) as [p|]; try reflexivity.
      destruct (_ <? _)%Z; try reflexivity.
      destruct (replaceFirst _ _ _); reflexivity. }
    rewrite Hauto.
    destruct (Hupd score st) as [H|H]; [left; exact H|right; congruence].
  - left. apply Hsame; reflexivity.
  - left. apply Hsame; reflexivity.
  - left. apply Hsame. unfold updateSoundVolume, assign.
    destruct (getPreferencesRef st); reflexivity.
  - left. apply Hsame. unfold toggleMute, assign.
    destruct (getPreferencesRef st); reflexivity.
Qed.

End StorageLemmas.

Section StorageTheorems.

Import StorageManager.
Local Open Scope Q_scope.

Lemma filter_notin_id (n : string) (l : list UserProfile) :
  ~ In n (map name l) -> filter (fun p => negb (hasName n p)) l = l.
Proof.
  induction l as [|p l IH]; intro H; [reflexivity|]. cbn [filter].
  cbn [map In] in H. unfold hasName at 1.
  destruct (String.eqb_spec (name p) n) as [Heq|Hne]; [tauto|].
  cbn [negb]. f_equal. apply IH. tauto.
Qed.

Lemma clampValue_idem (v : Q) :
  clampValue (clampValue v 0 1) 0 1 = clampValue v 0 1.
Proof.
  unfold clampValue, Math_max, Math_min.
  destruct (Qle_bool 1 v) eqn:E1; [reflexivity|].
  destruct (Qle_bool 0 v) eqn:E0.
  - rewrite E1, E0. reflexivity.
  - reflexivity.
Qed.

Lemma performAll_snoc (ops : list Op) (op : Op) (st : Storage) :
  performAll (ops ++ [op]) st = perform (performAll ops st) op.
Proof. unfold performAll. rewrite fold_left_app. reflexivity. Qed.

(** X26.  Whatever operations of the class are performed, the stored
    profiles stay at most five and keep pairwise different names. *)
Theorem profiles_stay_limited_and_unique :
  forall (ops : list Op) (st : Storage),
  profilesOk st -> profilesOk (performAll ops st).
Proof.
  induction ops as [|op ops IH]; intros st Hok; [exact Hok|].
  cbn [performAll fold_left]. apply IH. apply perform_profilesOk. exact Hok.
Qed.

(** X27.  With at most five profiles stored: [createProfile] returns null,
    and leaves the store alone, exactly when the name is taken or five
    profiles exist; otherwise the new profile (high score 0) is appended,
    is found under its name and becomes the current one, and deleting it
    again gives back the profile list.  [deleteProfile] returns true
    exactly when the name was stored, leaves the store alone otherwise,
    and afterwards the name is not found, the profile that was current is
    replaced by the first remaining one, and the other names are found as
    before under both operations. *)
Theorem createProfile_deleteProfile_lookup :
  forall (n now : string) (st : Storage),
  (length (getProfiles st) <= MAX_PROFILES)%nat ->
  let created := createProfile n now st in
  let deleted := deleteProfile n st in
  (fst created = None
   <-> In n (map name (getProfiles st))
       \/ length (getProfiles st) = MAX_PROFILES)
  /\ (fst created = None -> snd created = st)
  /\ (fst created <> None ->
      fst created = Some (mkProfile n 0 now)
      /\ getProfiles (snd created) = getProfiles st ++ [mkProfile n 0 now]
      /\ getProfileByName n (snd created) = Some (mkProfile n 0 now)
      /\ getCurrentProfileName (snd created) = Some n
      /\ getProfiles (snd (deleteProfile n (snd created))) = getProfiles st)
  /\ (fst deleted = true <-> In n (map name (getProfiles st)))
  /\ (fst deleted = false -> snd deleted = st)
  /\ getProfileByName n (snd deleted) = None
  /\ (fst deleted = true ->
      getCurrentProfileName st = Some n ->
      getCurrentProfileName (snd deleted)
      = option_map name (hd_error (getProfiles (snd deleted))))
  /\ (forall m : string, m <> n ->
      getProfileByName m (snd created) = getProfileByName m st
      /\ getProfileByName m (snd deleted) = getProfileByName m st).
Proof.
  intros n now st Hlen created deleted.
  set (l := getProfiles st) in *.
  set (new := mkProfile n 0 now).
  (* createProfile *)
  assert (Hc : (find (hasName n) l <> None \/ length l = MAX_PROFILES)
               /\ created = (None, st)
               \/ (find (hasName n) l = None /\ (length l < MAX_PROFILES)%nat)
                  /\ created
                     = (Some new,
                        saveCurrentProfileName n (saveProfiles (l ++ [new]) st))).
  { unfold created, createProfile. fold l.
    destruct (find (hasName n) l) eqn:Ef.
    - left. split; [left; discriminate|reflexivity].
    - destruct (Nat.leb_spec MAX_PROFILES (length l)).
      + left. split; [right; lia|reflexivity].
      + right. split; [split; [reflexivity|lia]|reflexivity]. }
  assert (Hfind : find (hasName n) l <> None <-> In n (map name l)).
  { pose proof (find_hasName_none n l) as H.
    destruct (find (hasName n) l); split; intro H1.
    - destruct (in_dec string_dec n (map name l)) as [Hin|Hnin];
        [exact Hin|]. apply H in Hnin. discriminate.
    - discriminate.
    - contradiction.
    - exfalso. apply (proj1 H eq_refl). exact H1. }
  (* deleteProfile *)
  set (newProfiles := filter (fun p => negb (hasName n p)) l).
  assert (Hd : (~ In n (map name l)) /\ deleted = (false, st)
               \/ In n (map name l)
                  /\ fst deleted = true
                  /\ getProfiles (snd deleted) = newProfiles
                  /\ (getCurrentProfileName st = Some n ->
                      getCurrentProfileName (snd deleted)
                      = option_map name (hd_error newProfiles))).
  { unfold deleted, deleteProfile. fold l. fold newProfiles.
    pose proof (filter_length_same_iff n l) as Hiff. fold newProfiles in Hiff.
    pose proof (filter_length_le (fun p => negb (hasName n p)) l) as Hle.
    fold newProfiles in Hle.
    destruct (Nat.eqb_spec (length newProfiles) (length l)) as [Heq|Hneq].
    - left. split; [apply Hiff; exact Heq|reflexivity].
    - right. split.
      { destruct (in_dec string_dec n (map name l)) as [Hin|Hnin];
          [exact Hin|]. exfalso. apply Hneq. apply Hiff. exact Hnin. }
      cbn [fst snd]. split; [reflexivity|].
      assert (Hg : getProfiles (saveProfiles newProfiles st) = newProfiles).
      { rewrite getProfiles_saveProfiles. apply firstn_short. lia. }
      change (getCurrentProfileName (saveProfiles newProfiles st))
        with (getCurrentProfileName st).
      destruct (getCurrentProfileName st) as [c|] eqn:Ec.
      + destruct (String.eqb_spec c n) as [Hcn|Hcn].
        * split.
          { destruct newProfiles as [|first rest] eqn:En; exact Hg. }
          intros _. destruct newProfiles as [|first rest]; reflexivity.
        * split; [exact Hg|]. intro H. congruence.
      + split; [exact Hg|]. discriminate. }
  repeat split.
  - intro H. destruct Hc as [[Hor Hcr]|[[Hf Hl] Hcr]].
    + destruct Hor as [Hor|Hor]; [left; apply Hfind; exact Hor|right; exact Hor].
    + rewrite Hcr in H. discriminate.
  - intro H. destruct Hc as [[Hor Hcr]|[[Hf Hl] Hcr]].
    + rewrite Hcr. reflexivity.
    + exfalso. destruct H as [H|H]; [|lia].
      apply Hfind in H. contradiction.
  - intro H. destruct Hc as [[Hor Hcr]|[[Hf Hl] Hcr]].
    + rewrite Hcr. reflexivity.
    + rewrite Hcr in H. discriminate.
  - destruct Hc as [[Hor Hcr]|[[Hf Hl] Hcr]];
      [rewrite Hcr in H; contradiction|rewrite Hcr; reflexivity].
  - destruct Hc as [[Hor Hcr]|[[Hf Hl] Hcr]];
      [rewrite Hcr in H; contradiction|rewrite Hcr].
    cbn [snd]. unfold saveCurrentProfileName.
    change (getProfiles (setCurrentProfileItem (Some n) ?s))
      with (getProfiles s).
    rewrite getProfiles_saveProfiles. apply firstn_short.
    rewrite length_app. cbn [length]. lia.
  - destruct Hc as [[Hor Hcr]|[[Hf Hl] Hcr]];
      [rewrite Hcr in H; contradiction|rewrite Hcr].
    cbn [snd]. unfold getProfileByName, saveCurrentProfileName.
    change (getProfiles (setCurrentProfileItem (Some n) ?s))
      with (getProfiles s).
    rewrite getProfiles_saveProfiles, firstn_short
      by (rewrite length_app; cbn [length]; lia).
    rewrite (find_hasName_app_new n), Hf.
    unfold hasName, new. cbn [name]. rewrite String.eqb_refl. reflexivity.
  - destruct Hc as [[Hor Hcr]|[[Hf Hl] Hcr]];
      [rewrite Hcr in H; contradiction|rewrite Hcr; reflexivity].
  - destruct Hc as [[Hor Hcr]|[[Hf Hl] Hcr]];
      [rewrite Hcr in H; contradiction|rewrite Hcr].
    cbn [snd]. set (st1 := saveCurrentProfileName n _).
    assert (Hg1 : getProfiles st1 = l ++ [new]).
    { unfold st1, saveCurrentProfileName.
      change (getProfiles (setCurrentProfileItem (Some n) ?s))
        with (getProfiles s).
      rewrite getProfiles_saveProfiles. apply firstn_short.
      rewrite length_app. cbn [length]. lia. }
    assert (Hfl : filter (fun p => negb (hasName n p)) (l ++ [new]) = l).
    { rewrite filter_app, filter_notin_id
        by (apply find_hasName_none; exact Hf).
      cbn [filter]. unfold hasName, new. cbn [name].
      rewrite String.eqb_refl. cbn [negb]. apply app_nil_r. }
    unfold deleteProfile. rewrite Hg1, Hfl.
    destruct (Nat.eqb_spec (length l) (length (l ++ [new]))) as [Heq|Hneq].
    { rewrite length_app in Heq. cbn [length] in Heq. lia. }
    cbn [snd].
    assert (Hg2 : getProfiles (saveProfiles l st1) = l).
    { rewrite getProfiles_saveProfiles. apply firstn_short. exact Hlen. }
    destruct (getCurrentProfileName (saveProfiles l st1)) as [c|];
      [|exact Hg2].
    destruct (String.eqb c n); [|exact Hg2].
    destruct l; exact Hg2.
  - intro H. destruct Hd as [[Hn Hdr]|(Hin & Hfst & _)];
      [rewrite Hdr in H; discriminate|exact Hin].
  - intro H. destruct Hd as [[Hn Hdr]|(Hin & Hfst & _)];
      [contradiction|exact Hfst].
  - intro H. destruct Hd as [[Hn Hdr]|(Hin & Hfst & _)];
      [rewrite Hdr; reflexivity|congruence].
  - unfold getProfileByName.
    destruct Hd as [[Hn Hdr]|(Hin & Hfst & Hg & _)].
    + rewrite Hdr. cbn [snd]. fold l. apply find_hasName_none. exact Hn.
    + rewrite Hg. apply find_filter_self.
  - intros Ht Hcur. destruct Hd as [[Hn Hdr]|(Hin & Hfst & Hg & Hc')].
    + rewrite Hdr in Ht. discriminate.
    + rewrite Hg. apply Hc'. exact Hcur.
  - unfold getProfileByName.
    destruct Hc as [[Hor Hcr]|[[Hf Hl] Hcr]]; rewrite Hcr; [reflexivity|].
    cbn [snd]. unfold saveCurrentProfileName.
    change (getProfiles (setCurrentProfileItem (Some n) ?s))
      with (getProfiles s).
    rewrite getProfiles_saveProfiles, firstn_short
      by (rewrite length_app; cbn [length]; lia).
    rewrite (find_hasName_app_new n). fold l.
    destruct (find (hasName m) l); [reflexivity|].
    unfold hasName, new. cbn [name].
    destruct (String.eqb_spec n m); [congruence|reflexivity].
  - unfold getProfileByName.
    destruct Hd as [[Hn Hdr]|(Hin & Hfst & Hg & _)].
    + rewrite Hdr. reflexivity.
    + rewrite Hg. apply find_filter_other. exact H.
Qed.

(** X28.  For the calls [createProfile], [deleteProfile], [updateProfile],
    [updateProfileHighScore], [updateHighScore], [autoSave],
    [saveCurrentProfileName], [updatePreferences], [updateSoundVolume] and
    [toggleMute], in any order and number, with scores that are safe
    integers and a stored high score that is one: the stored high score
    never goes down, it ends at least as high as every score handed to
    [updateHighScore] or [autoSave] on the way, and it ends as the value
    stored at the start or as one of those scores, so it is a safe integer
    again.  The calls that write a high score without comparing it
    ([saveHighScore], [restoreAllData], [importData], [resetStorage]) are
    not among them: they can lower it. *)
Theorem high_score_never_decreases :
  forall (ops : list Op) (st : Storage),
  forallb (fun op => negb (isReset op)) ops = true ->
  forallb safeScore ops = true ->
  isSafeInteger (getHighScore st) = true ->
  (getHighScore st <= getHighScore (performAll ops st))%Z
  /\ (forall op score, In op ops -> submittedScore op = Some score ->
      (score <= getHighScore (performAll ops st))%Z)
  /\ (getHighScore (performAll ops st) = getHighScore st
      \/ exists op, In op ops
                    /\ submittedScore op
                       = Some (getHighScore (performAll ops st)))
  /\ isSafeInteger (getHighScore (performAll ops st)) = true.
Proof.
  induction ops as [|op ops IH] using rev_ind; intros st Hall Hsafe Hst.
  - split; [cbn; lia|]. split; [intros ? ? []|].
    split; [left; reflexivity|exact Hst].
  - rewrite forallb_app in Hall. apply andb_true_iff in Hall as [Hall Hop].
    cbn [forallb] in Hop. rewrite andb_true_r in Hop.
    apply negb_true_iff in Hop.
    rewrite forallb_app in Hsafe. apply andb_true_iff in Hsafe as [Hsafe Hs1].
    cbn [forallb] in Hs1. rewrite andb_true_r in Hs1.
    destruct (IH st Hall Hsafe Hst) as (Hmono & Hsub & Horigin & Hrange).
    rewrite performAll_snoc.
    pose proof (perform_highScore (performAll ops st) op Hop) as Hstep.
    pose proof (perform_highScore_origin (performAll ops st) op Hop) as Hfrom.
    split; [lia|]. split; [|split].
    + intros op' score Hin Hs. apply in_app_or in Hin as [Hin|[<-|[]]].
      * specialize (Hsub op' score Hin Hs). lia.
      * assert (Hupd : forall st0,
            (score <= getHighScore (snd (updateHighScore score st0)))%Z).
        { intro st0. unfold updateHighScore.
          destruct (Z.ltb_spec (getHighScore st0) score); cbn; lia. }
        destruct op; try discriminate; cbn [submittedScore] in Hs;
          injection Hs as ->; cbn [perform].
        -- apply Hupd.
        -- eapply Z.le_trans; [apply (Hupd (performAll ops st))|].
           pose proof (perform_highScore
                         (snd (updateHighScore score (performAll ops st)))
                         (UpdateProfileHighScore
                            (match currentProfileName with
                             | Some c => c | None => EmptyString end)
                            score now) eq_refl) as Hp.
           cbn [perform] in Hp. unfold autoSave.
           destruct currentProfileName as [c|]; [|lia].
           destruct (truthyString c); [exact Hp|lia].
    + destruct Hfrom as [Hkeep|Hnew].
      * rewrite Hkeep. destruct Horigin as [H|(op' & Hin & Hs)].
        -- left. exact H.
        -- right. exists op'. split; [apply in_or_app; left; exact Hin|].
           exact Hs.
      * right. exists op. split; [apply in_or_app; right; left; reflexivity|].
        exact Hnew.
    + destruct Hfrom as [Hkeep|Hnew].
      * rewrite Hkeep. exact Hrange.
      * unfold safeScore in Hs1. rewrite Hnew in Hs1. exact Hs1.
Qed.

(** X29.  If the three ranged preferences (music volume, sound volume,
    control sensitivity) of the stored preferences and of the defaults lie
    in [0,1], they do so after any operations of the class; and a volume
    set with [updateSoundVolume] is read back clamped to [0,1]. *)
Theorem preferences_stay_in_range :
  forall (ops : list Op) (st : Storage),
  preferencesOk st ->
  preferencesOk (performAll ops st)
  /\ (forall (type : SoundType) (volume : Q),
      volumeOf type
        (getPreferences (updateSoundVolume type volume (performAll ops st)))
      = clampValue volume 0 1).
Proof.
  intros ops st Hok. split.
  - revert st Hok. induction ops as [|op ops IH]; intros st Hok; [exact Hok|].
    cbn [performAll fold_left]. apply IH. apply perform_preferencesOk.
    exact Hok.
  - intros type volume. generalize (performAll ops st) as st0. intro st0.
    unfold updateSoundVolume, assign.
    destruct (getPreferencesRef st0); destruct type; simpl;
      apply clampValue_idem.
Qed.

(** X30.  [getPreferences] hands out the object [DEFAULT_PREFERENCES] itself
    when no preferences are stored, and [toggleMute] and
    [updateSoundVolume] write to the object they get: on such a store they
    change the defaults, so that a later [resetStorage] stores the changed
    mute state and volume instead of the original ones.  With stored
    preferences the defaults are not touched.  In both cases [toggleMute]
    returns the negated mute state and that state is read back. *)
Theorem toggleMute_changes_defaults :
  forall (type : SoundType) (volume : Q) (st : Storage),
  let toggled := snd (toggleMute type st) in
  let tuned := updateSoundVolume type volume st in
  fst (toggleMute type st) = negb (muteState type (getPreferences st))
  /\ muteState type (getPreferences toggled)
     = negb (muteState type (getPreferences st))
  /\ match preferencesItem st with
     | Some (PreferencesObject _) =>
         DEFAULT_PREFERENCES toggled = DEFAULT_PREFERENCES st
         /\ DEFAULT_PREFERENCES tuned = DEFAULT_PREFERENCES st
     | Some NotAnObject | None =>
         muteState type (DEFAULT_PREFERENCES toggled)
         = negb (muteState type (DEFAULT_PREFERENCES st))
         /\ muteState type (getPreferences (resetStorage toggled))
            = negb (muteState type (DEFAULT_PREFERENCES st))
         /\ volumeOf type (DEFAULT_PREFERENCES tuned) = clampValue volume 0 1
         /\ volumeOf type (getPreferences (resetStorage tuned))
            = clampValue volume 0 1
     end.
Proof.
  intros type volume st toggled tuned.
  unfold toggled, tuned, toggleMute, updateSoundVolume, assign,
    getPreferences, getPreferencesRef.
  destruct (preferencesItem st) as [[|q]|]; destruct type; simpl;
    repeat split; try reflexivity; apply clampValue_idem.
Qed.

End StorageTheorems.

(* ================================================================= *)
(** ** Instances of the further properties                            *)
(* ================================================================= *)

Section TierInstances.

Import DifficultyManager LevelTable Crossing TableShape.
Local Open Scope Q_scope.

(** X1 at the shipped table and the score 300. *)
Lemma getDifficultyLevelIndex_greatest_witness :
  wellFormed GAME_SETTINGS.DIFFICULTY_LEVELS = true
  /\ inDomain GAME_SETTINGS.DIFFICULTY_LEVELS 300 = true
  /\ exists level,
       nth_error GAME_SETTINGS.DIFFICULTY_LEVELS
         (getDifficultyLevelIndex GAME_SETTINGS.DIFFICULTY_LEVELS 300)
       = Some level
       /\ DifficultyLevel.score level <= 300
       /\ forall j l, nth_error GAME_SETTINGS.DIFFICULTY_LEVELS j = Some l ->
                      DifficultyLevel.score l <= 300 ->
                      (j <= getDifficultyLevelIndex
                              GAME_SETTINGS.DIFFICULTY_LEVELS 300)%nat.
Proof.
  split; [reflexivity|]. split; [reflexivity|].
  apply (getDifficultyLevelIndex_greatest
           GAME_SETTINGS.DIFFICULTY_LEVELS 300 eq_refl eq_refl).
Defined.

(** X2 at the shipped table and the scores 90 and 120. *)
Lemma getDifficultyLevelIndex_monotone_witness :
  wellFormed GAME_SETTINGS.DIFFICULTY_LEVELS = true
  /\ 90 <= 120
  /\ (getDifficultyLevelIndex GAME_SETTINGS.DIFFICULTY_LEVELS 90
      <= getDifficultyLevelIndex GAME_SETTINGS.DIFFICULTY_LEVELS 120)%nat.
Proof.
  split; [reflexivity|]. split; [discriminate|].
  apply (getDifficultyLevelIndex_monotone
           GAME_SETTINGS.DIFFICULTY_LEVELS 90 120 eq_refl).
  discriminate.
Defined.

(** X3 at the shipped table and the score 300: the milestone is 500. *)
Lemma getNextMilestone_least_above_witness :
  wellFormed GAME_SETTINGS.DIFFICULTY_LEVELS = true
  /\ inDomain GAME_SETTINGS.DIFFICULTY_LEVELS 300 = true
  /\ getNextMilestone GAME_SETTINGS.DIFFICULTY_LEVELS 300 = Some 500
  /\ 300 < 500
  /\ (exists l, In l GAME_SETTINGS.DIFFICULTY_LEVELS
                /\ DifficultyLevel.score l = 500)
  /\ forall l, In l GAME_SETTINGS.DIFFICULTY_LEVELS ->
               300 < DifficultyLevel.score l ->
               500 <= DifficultyLevel.score l.
Proof.
  split; [reflexivity|]. split; [reflexivity|]. split; [reflexivity|].
  exact (getNextMilestone_least_above
           GAME_SETTINGS.DIFFICULTY_LEVELS 300 eq_refl eq_refl).
Defined.

(** X4 at the shipped table: speeds within 5 and 10, spawn rates within 1
    and 2. *)
Lemma calculateGameParameters_within_table_range_witness :
  wellFormed GAME_SETTINGS.DIFFICULTY_LEVELS = true
  /\ inDomain GAME_SETTINGS.DIFFICULTY_LEVELS 300 = true
  /\ within DifficultyLevel.speed 5 10 GAME_SETTINGS.DIFFICULTY_LEVELS = true
  /\ within DifficultyLevel.spawnRate 1 2 GAME_SETTINGS.DIFFICULTY_LEVELS
     = true
  /\ exists p,
       calculateGameParameters GAME_SETTINGS.DIFFICULTY_LEVELS 300 = Some p
       /\ 5 <= GameParameters.speed p <= 10
       /\ 1 <= GameParameters.spawnRate p <= 2.
Proof.
  split; [reflexivity|]. split; [reflexivity|]. split; [reflexivity|].
  split; [reflexivity|].
  apply (calculateGameParameters_within_table_range
           GAME_SETTINGS.DIFFICULTY_LEVELS 300 5 10 1 2
           eq_refl eq_refl eq_refl eq_refl).
Defined.

(** X5 at the shipped table and the scores 20 and 700, two tiers apart. *)
Lemma parameters_monotone_in_score_witness :
  wellFormed GAME_SETTINGS.DIFFICULTY_LEVELS = true
  /\ speedsAscend GAME_SETTINGS.DIFFICULTY_LEVELS = true
  /\ spawnRatesDescend GAME_SETTINGS.DIFFICULTY_LEVELS = true
  /\ inDomain GAME_SETTINGS.DIFFICULTY_LEVELS 20 = true
  /\ 20 <= 700
  /\ exists p1 p2,
       calculateGameParameters GAME_SETTINGS.DIFFICULTY_LEVELS 20 = Some p1
       /\ calculateGameParameters GAME_SETTINGS.DIFFICULTY_LEVELS 700 = Some p2
       /\ GameParameters.speed p1 <= GameParameters.speed p2
       /\ GameParameters.spawnRate p2 <= GameParameters.spawnRate p1.
Proof.
  split; [reflexivity|]. split; [reflexivity|]. split; [reflexivity|].
  split; [reflexivity|]. split; [discriminate|].
  apply (parameters_monotone_in_score
           GAME_SETTINGS.DIFFICULTY_LEVELS 20 700
           eq_refl eq_refl eq_refl eq_refl).
  discriminate.
Defined.

(** X6 at the shipped table and the score -50: the speed comes out below
    the speed of the first level. *)
Lemma negative_scores_extrapolate_witness :
  let first := DifficultyLevel.mk 0 5 2.0 None in
  let second := DifficultyLevel.mk 100 6 1.8 None in
  wellFormed GAME_SETTINGS.DIFFICULTY_LEVELS = true
  /\ nth_error GAME_SETTINGS.DIFFICULTY_LEVELS 0 = Some first
  /\ nth_error GAME_SETTINGS.DIFFICULTY_LEVELS 1 = Some second
  /\ -50 < DifficultyLevel.score first
  /\ exists p,
       calculateGameParameters GAME_SETTINGS.DIFFICULTY_LEVELS (-50) = Some p
       /\ GameParameters.difficultyLevel p = 0%nat
       /\ GameParameters.nextMilestone p = Some 100
       /\ GameParameters.speed p < 5.
Proof.
  intros first second.
  split; [reflexivity|]. split; [reflexivity|]. split; [reflexivity|].
  split; [reflexivity|].
  destruct (negative_scores_extrapolate
              GAME_SETTINGS.DIFFICULTY_LEVELS first second (-50)
              eq_refl eq_refl eq_refl eq_refl)
    as (p & Hp & Hlevel & Hnext & _ & _ & _ & Hbelow).
  exists p. split; [exact Hp|]. split; [exact Hlevel|].
  split; [exact Hnext|]. apply Hbelow. reflexivity.
Defined.

End TierInstances.

Section SessionInstances.

Import DifficultyManager GameState GameSession LevelTable Crossing TableShape.
Local Open Scope Q_scope.

(** X9 for a new game started after a game that ended at 340 points. *)
Lemma startGame_resets_witness :
  let first := DifficultyLevel.mk 0 5 2.0 None in
  let st := mkState gameOver 340 340 (GameParameters.mk 7.36 1.528 1 2 (Some 500))
              true "Challenging" 340 [1%nat; 2%nat] in
  wellFormed GAME_SETTINGS.DIFFICULTY_LEVELS = true
  /\ startsAtZero GAME_SETTINGS.DIFFICULTY_LEVELS = true
  /\ nth_error GAME_SETTINGS.DIFFICULTY_LEVELS 0 = Some first
  /\ exists st',
       startGame GAME_SETTINGS.DIFFICULTY_LEVELS st = Some st'
       /\ gameStatus st' = playing
       /\ score st' = 0
       /\ highScore st' = 340
       /\ difficultyName st' = "Challenging"%string
       /\ GameParameters.speed (gameParameters st') = 5.
Proof.
  intros first st.
  split; [reflexivity|]. split; [reflexivity|]. split; [reflexivity|].
  destruct (startGame_resets GAME_SETTINGS.DIFFICULTY_LEVELS first st
              eq_refl eq_refl eq_refl)
    as (st' & Hst & Hstatus & Hscore & _ & Hhigh & _ & _ & Hname & Hspeed & _).
  exists st'. repeat split; assumption.
Defined.


(** X12 at the shipped table and the score 300: the milestone is 500. *)
Lemma progressToNext_range_witness :
  wellFormed GAME_SETTINGS.DIFFICULTY_LEVELS = true
  /\ startsAtZero GAME_SETTINGS.DIFFICULTY_LEVELS = true
  /\ 0 <= 300
  /\ exists p,
       calculateGameParameters GAME_SETTINGS.DIFFICULTY_LEVELS 300 = Some p
       /\ (0 <= HUD.progressToNext 300 (GameParameters.nextMilestone p)
           <= 100)%Z
       /\ (HUD.progressToNext 300 (GameParameters.nextMilestone p) = 100%Z
           <-> GameParameters.nextMilestone p = None).
Proof.
  split; [reflexivity|]. split; [reflexivity|]. split; [discriminate|].
  apply (progressToNext_range GAME_SETTINGS.DIFFICULTY_LEVELS 300
           eq_refl eq_refl).
  discriminate.
Defined.

End SessionInstances.

Section ObstacleRunInstances.

Import Obstacles ObstacleSpec ObstacleRuns.
Local Open Scope R_scope.



(** X16 for one frame with an obstacle on the player and the guard set. *)
Lemma collision_guard_latches_witness :
  let st := mkState [obstacleOf 0 rock (Vector3.mk 0 0 0)] 5000 1 true in
  hasCollidedRef st = true
  /\ hasCollidedRef (run (map FrameEvent [secondFrame]) st) = true
  /\ Forall (fun calls => calls = 0%nat) (frameCalls [secondFrame] st).
Proof.
  intros st. split; [reflexivity|].
  exact (collision_guard_latches [secondFrame] st eq_refl).
Defined.

(** X17 for the same state: after the reset the frame reports the
    collision. *)
Lemma collision_detected_after_reset_witness :
  let o := obstacleOf 0 rock (Vector3.mk 0 0 0) in
  let st := mkState [o] 5000 1 true in
  let after := useFrame secondFrame (resetCollisionEffect true st) in
  obstaclesGroupRef secondFrame = Some allAtOrigin
  /\ isPlaying (props secondFrame) = true
  /\ nemoRef (props secondFrame) = Some nemoAtOrigin
  /\ In o (obstacles st)
  /\ overlaps allAtOrigin (worldPosition nemoAtOrigin)
       (0.5 * scaleX nemoAtOrigin * GAME_SETTINGS.COLLISION_THRESHOLD) o
  /\ (1 <= snd after)%nat /\ hasCollidedRef (fst after) = true.
Proof.
  intros o st after.
  assert (Hin : In o (obstacles st)) by (left; reflexivity).
  assert (Hov : overlaps allAtOrigin (worldPosition nemoAtOrigin)
                  (0.5 * scaleX nemoAtOrigin
                   * GAME_SETTINGS.COLLISION_THRESHOLD) o).
  { split; [reflexivity|]. exists (Vector3.mk 0 0 0).
    split; [reflexivity|].
    change (worldPosition nemoAtOrigin) with (Vector3.mk 0 0 0).
    rewrite distanceTo_along_z by lra.
    unfold GAME_SETTINGS.COLLISION_THRESHOLD. cbn. lra. }
  split; [reflexivity|]. split; [reflexivity|]. split; [reflexivity|].
  split; [exact Hin|]. split; [exact Hov|].
  exact (collision_detected_after_reset secondFrame st allAtOrigin
           nemoAtOrigin o eq_refl eq_refl eq_refl Hin Hov).
Defined.

(** X18 for a jellyfish over one frame of a sixtieth of a second. *)
Lemma advance_lateral_drift_bounded_witness :
  let o := obstacleOf 0 jellyfish (Vector3.mk 1 2 (-50)) in
  let o' := advance allAtOrigin 3 (1 / 60) o in
  Obstacle.active o = true
  /\ allAtOrigin (Obstacle.id o) <> None
  /\ 0 <= 1 / 60
  /\ 0 <= Obstacle.amplitude o
  /\ Rabs (Vector3.x (Obstacle.position o') - Vector3.x (Obstacle.position o))
     <= Obstacle.amplitude o * (1 / 60)
  /\ Rabs (Vector3.y (Obstacle.position o') - Vector3.y (Obstacle.position o))
     <= Obstacle.amplitude o * (1 / 60)
  /\ Obstacle.speed o' = Obstacle.speed o.
Proof.
  intros o o'.
  assert (Hmesh : allAtOrigin (Obstacle.id o) <> None) by discriminate.
  assert (Hd : 0 <= 1 / 60) by lra.
  assert (Ha : 0 <= Obstacle.amplitude o) by (cbn; lra).
  split; [reflexivity|]. split; [exact Hmesh|]. split; [exact Hd|].
  split; [exact Ha|].
  destruct (advance_lateral_drift_bounded allAtOrigin 3 (1 / 60) o
              eq_refl Hmesh Hd Ha)
    as (Hx & Hy & _ & _ & _ & Hspeed & _).
  split; [exact Hx|]. split; [exact Hy|exact Hspeed].
Defined.

(** X20 for the obstacle spawned by the first frame, followed over the
    second frame. *)
Lemma held_obstacle_progress_witness :
  let st := run [FrameEvent firstFrame] initialState in
  exists o o',
    Invariant st
    /\ held 0 st = Some o
    /\ Forall (showsMesh 0) [secondFrame]
    /\ held 0 (run (map FrameEvent [secondFrame]) st) = Some o'
    /\ Vector3.z (Obstacle.position o')
       = Vector3.z (Obstacle.position o)
         + Obstacle.speed o * sumDeltas [secondFrame] * 60
    /\ Obstacle.speed o' = Obstacle.speed o.
Proof.
  intros st.
  destruct firstFrame_spawns as (o & Hobs & Hid & Hz & Hv). fold st in Hobs.
  assert (Hinv : Invariant st)
    by (apply run_Invariant, initialState_Invariant).
  assert (Hheld : held 0 st = Some o).
  { unfold held. rewrite Hobs. cbn [find]. rewrite Hid. reflexivity. }
  assert (Hshow : Forall (showsMesh 0) [secondFrame]).
  { repeat constructor. exists allAtOrigin. split; [reflexivity|discriminate]. }
  assert (Hact : Obstacle.active o = true).
  { destruct Hinv as [Hall _]. rewrite Hobs in Hall.
    inversion Hall as [|? ? [_ Ha] _]. exact Ha. }
  assert (Hmesh : allAtOrigin (Obstacle.id o) <> None) by discriminate.
  destruct (advance_moved allAtOrigin (elapsedTime secondFrame)
              (delta secondFrame) o Hact Hmesh) as (Hz' & Hact' & _).
  assert (Hlater : held 0 (run (map FrameEvent [secondFrame]) st)
                   = Some (advance allAtOrigin (elapsedTime secondFrame)
                             (delta secondFrame) o)).
  { change (run (map FrameEvent [secondFrame]) st)
      with (fst (useFrame secondFrame st)).
    rewrite (held_after_frame secondFrame allAtOrigin st 0 o
               Hinv Hheld eq_refl eq_refl).
    rewrite Hact', Hz', Hz, Hv.
    assert (Hf : Rltb 20 (-100 + 0.5 * delta secondFrame * 60) = false)
      by (apply Rltb_false_iff; cbn; lra).
    rewrite Hf. reflexivity. }
  exists o, (advance allAtOrigin (elapsedTime secondFrame)
               (delta secondFrame) o).
  split; [exact Hinv|]. split; [exact Hheld|]. split; [exact Hshow|].
  split; [exact Hlater|].
  destruct (held_obstacle_progress [secondFrame] st 0 o _
              Hinv Hheld Hshow Hlater) as (Hmove & Hspeed & _).
  split; [exact Hmove|exact Hspeed].
Defined.

(** X21 for the same obstacle and one frame of five seconds, which
    carries it from z = -100 to z = 50. *)
Lemma obstacle_culled_once_past_witness :
  let st := run [FrameEvent firstFrame] initialState in
  let longFrame :=
    mkFrame playingProps (Some allAtOrigin) 5016 (fun _ => 0) 5 5 in
  exists o,
    Invariant st
    /\ held 0 st = Some o
    /\ Forall (showsMesh 0) [longFrame]
    /\ 20 < Vector3.z (Obstacle.position o)
            + Obstacle.speed o * sumDeltas [longFrame] * 60
    /\ held 0 (run (map FrameEvent [longFrame]) st) = None
    /\ held 0 (run [FrameEvent secondFrame]
                 (run (map FrameEvent [longFrame]) st)) = None.
Proof.
  intros st longFrame.
  destruct firstFrame_spawns as (o & Hobs & Hid & Hz & Hv). fold st in Hobs.
  assert (Hinv : Invariant st)
    by (apply run_Invariant, initialState_Invariant).
  assert (Hheld : held 0 st = Some o).
  { unfold held. rewrite Hobs. cbn [find]. rewrite Hid. reflexivity. }
  assert (Hshow : Forall (showsMesh 0) [longFrame]).
  { repeat constructor. exists allAtOrigin. split; [reflexivity|discriminate]. }
  assert (Hne : [longFrame] <> []) by discriminate.
  assert (Hpast : 20 < Vector3.z (Obstacle.position o)
                       + Obstacle.speed o * sumDeltas [longFrame] * 60).
  { rewrite Hz, Hv. cbn. lra. }
  exists o.
  split; [exact Hinv|]. split; [exact Hheld|]. split; [exact Hshow|].
  split; [exact Hpast|].
  exact (obstacle_culled_once_past [longFrame] [FrameEvent secondFrame]
           st 0 o Hinv Hheld Hshow Hne Hpast).
Defined.

End ObstacleRunInstances.

Section NemoInstances.

Import NemoControls.
Local Open Scope R_scope.

(** X23 for the initial state with the right arrow and the boost held. *)
Lemma player_step_bounded_witness :
  let k := mkKeys false false false true false false false false true in
  let st' := useFrame true true k 0 (1 / 60) initialState in
  - BOUNDS_x <= Vector3.x (position initialState) <= BOUNDS_x
  /\ - BOUNDS_y <= Vector3.y (position initialState) <= BOUNDS_y
  /\ Rabs (Vector3.x (position st') - Vector3.x (position initialState))
     <= MOVEMENT_SPEED_fast
  /\ Vector3.y (position st') = Vector3.y (position initialState).
Proof.
  intros k st'.
  assert (Hx : - BOUNDS_x <= Vector3.x (position initialState) <= BOUNDS_x)
    by (unfold BOUNDS_x; cbn; lra).
  assert (Hy : - BOUNDS_y <= Vector3.y (position initialState) <= BOUNDS_y)
    by (unfold BOUNDS_y; cbn; lra).
  split; [exact Hx|]. split; [exact Hy|].
  destruct (player_step_bounded k 0 (1 / 60) initialState Hx Hy)
    as (Hdx & _ & _ & _ & Hsame).
  split; [exact Hdx|]. apply Hsame. reflexivity.
Defined.

(** X24 at the score 2500: the size is 1.1. *)
Lemma updateSizeFromScore_steps_witness :
  IZR 2 * 1000 <= 2500 < (IZR 2 + 1) * 1000
  /\ size (updateSizeFromScore 2500 initialState) = 1 + 0.05 * IZR 2.
Proof.
  assert (H : IZR 2 * 1000 <= 2500 < (IZR 2 + 1) * 1000) by lra.
  split; [exact H|].
  exact (proj1 (updateSizeFromScore_steps 2500 2 initialState H)).
Defined.

End NemoInstances.

Section StorageInstances.

Import StorageManager.
Local Open Scope Q_scope.

(** X26 from an empty store: a profile, a second attempt under the same
    name, and the removal of a name that is not stored. *)
Lemma profiles_stay_limited_and_unique_witness :
  let ops := [CreateProfile "ann" "t1"; CreateProfile "ann" "t2";
              DeleteProfile "bob"] in
  profilesOk emptyStorage /\ profilesOk (performAll ops emptyStorage).
Proof.
  intros ops.
  assert (H : profilesOk emptyStorage).
  { split; [cbn; lia|constructor]. }
  split; [exact H|].
  exact (profiles_stay_limited_and_unique ops emptyStorage H).
Defined.

(** X27 on an empty store: the profile is created, found and current. *)
Lemma createProfile_deleteProfile_lookup_witness :
  let created := createProfile "ann" "t1" emptyStorage in
  (length (getProfiles emptyStorage) <= MAX_PROFILES)%nat
  /\ fst created = Some (mkProfile "ann" 0 "t1")
  /\ getProfileByName "ann" (snd created) = Some (mkProfile "ann" 0 "t1")
  /\ getCurrentProfileName (snd created) = Some "ann"%string
  /\ getProfiles (snd (deleteProfile "ann" (snd created)))
     = getProfiles emptyStorage
  /\ fst (deleteProfile "ann" emptyStorage) = false.
Proof.
  intros created.
  assert (H : (length (getProfiles emptyStorage) <= MAX_PROFILES)%nat)
    by (cbn; lia).
  split; [exact H|].
  destruct (createProfile_deleteProfile_lookup "ann" "t1" emptyStorage H)
    as (_ & _ & Hnew & _).
  destruct Hnew as (H1 & _ & H3 & H4 & H5); [discriminate|].
  split; [exact H1|]. split; [exact H3|]. split; [exact H4|].
  split; [exact H5|reflexivity].
Defined.

(** X28 from an empty store: after the scores 30 and 20 the high score is
    30. *)
Lemma high_score_never_decreases_witness :
  let ops := [UpdateHighScore 30; AutoSave 20 None "t1"; ToggleMute music] in
  forallb (fun op => negb (isReset op)) ops = true
  /\ forallb safeScore ops = true
  /\ isSafeInteger (getHighScore emptyStorage) = true
  /\ (getHighScore emptyStorage <= getHighScore (performAll ops emptyStorage))%Z
  /\ (30 <= getHighScore (performAll ops emptyStorage))%Z
  /\ isSafeInteger (getHighScore (performAll ops emptyStorage)) = true.
Proof.
  intros ops. split; [reflexivity|]. split; [reflexivity|].
  split; [reflexivity|].
  destruct (high_score_never_decreases ops emptyStorage
              eq_refl eq_refl eq_refl)
    as (Hmono & Hsub & _ & Hrange).
  split; [exact Hmono|]. split; [|exact Hrange].
  apply (Hsub (UpdateHighScore 30)); [left; reflexivity|reflexivity].
Defined.

(** X29 from an empty store: a volume of 1.5 is stored as 1. *)
Lemma preferences_stay_in_range_witness :
  let ops := [UpdateSoundVolume music 1.5; ToggleMute sfx; ResetStorage] in
  preferencesOk emptyStorage
  /\ preferencesOk (performAll ops emptyStorage)
  /\ musicVolume
       (getPreferences
          (updateSoundVolume music 1.5 (performAll ops emptyStorage)))
     = clampValue 1.5 0 1.
Proof.
  intros ops.
  assert (H : preferencesOk emptyStorage).
  { repeat split; discriminate. }
  split; [exact H|].
  destruct (preferences_stay_in_range ops emptyStorage H) as [Hok Hread].
  split; [exact Hok|exact (Hread music 1.5)].
Defined.

End StorageInstances.
